(** * Message compilation, wire records and signature slots of the legacy
      compatibility layer (packages/legacy/src: publickey.ts, message.ts,
      transaction.ts), as a shallow embedding.

    Pure synchronous code becomes Rocq functions.  Code that can throw returns
    a [result].  The asynchronous cryptographic primitives (digest, signature
    verification, curve membership) are suspension points of an external
    provider; they are Section variables here and the code around them is
    modelled as the sequential computation the [await]s describe. *)

From Stdlib Require Import Strings.String Strings.Ascii Strings.Byte.
From Stdlib Require Import List Bool Arith Lia ZArith Permutation ZifyNat ZifyN.
Import ListNotations.

Set Implicit Arguments.

(* ================================================================== *)
(** * Bytes, addresses and errors *)
(* ================================================================== *)

Definition bytes := list byte.

Fixpoint bytes_eqb (a b : bytes) : bool :=
  match a, b with
  | [], [] => true
  | x :: a', y :: b' => Byte.eqb x y && bytes_eqb a' b'
  | _, _ => false
  end.

(** An [Address] is a 32-byte value.  The source holds it in its canonical
    text form (a branded base-58 string) and keys its [Map]s by that text;
    the text codec is an injective re-encoding of the bytes, so the model
    identifies an address with its bytes and [toBase58] with the identity.
    [PublicKey] is the class wrapping one [Address]. *)
Definition Address := bytes.
Definition PublicKey := Address.

Definition PUBLIC_KEY_LENGTH : nat := 32.
Definition MAX_SEED_LENGTH : nat := 32.
Definition MAX_SEEDS : nat := 16.
Definition SIGNATURE_LENGTH : nat := 64.

Definition toBase58 (k : PublicKey) : Address := k.
Definition toAddress (k : PublicKey) : Address := k.
Definition fromAddress (a : Address) : PublicKey := a.
Definition toBytes (k : PublicKey) : bytes := k.
Definition equals (a b : PublicKey) : bool := bytes_eqb (toAddress a) (toAddress b).

(** The [Error]s the modelled functions throw, one constructor per message. *)
Inductive Error : Type :=
| AccountLookupMetaNotSupported
| ExpectedVersionedGotLegacy
| MaxSeedCountExceeded (count : nat)
| MaxSeedLengthExceeded (len : nat)
| InvalidSeeds
| RecentBlockhashRequired
| FeePayerRequired
| SignatureVerificationFailed
| MissingSignature
| UnknownSigner (k : PublicKey)
| CodecError.

Inductive result (A : Type) : Type :=
| Ok (a : A)
| Err (e : Error).
Arguments Ok {A} a.
Arguments Err {A} e.

Definition bind {A B} (r : result A) (f : A -> result B) : result B :=
  match r with
  | Ok a => f a
  | Err e => Err e
  end.

Notation "x <- r ;; k" := (bind r (fun x => k))
  (at level 61, r at next level, right associativity).

Fixpoint mapM {A B} (f : A -> result B) (l : list A) : result (list B) :=
  match l with
  | [] => Ok []
  | x :: l' => y <- f x ;; ys <- mapM f l' ;; Ok (y :: ys)
  end.

Definition isSome {A} (o : option A) : bool :=
  match o with Some _ => true | None => false end.

(* ================================================================== *)
(** * JavaScript [Map] keyed by address text *)
(* ================================================================== *)

(** A [Map] iterates in insertion order; [set] on a present key replaces the
    value where it stands, [set] on an absent key appends.  Mutating an object
    obtained by [get] is a [set] of the changed object under the same key. *)
Module JSMap.
Section Defs.
Variable V : Type.

Definition t := list (Address * V).

Definition empty : t := [].

Fixpoint get (m : t) (k : Address) : option V :=
    match m with
    | [] => None
    | (k', v) :: m' => if bytes_eqb k' k then Some v else get m' k
    end.

Definition has (m : t) (k : Address) : bool := isSome (get m k).

Fixpoint set (m : t) (k : Address) (v : V) : t :=
    match m with
    | [] => [(k, v)]
    | (k', v') :: m' =>
        if bytes_eqb k' k then (k', v) :: m' else (k', v') :: set m' k v
    end.

Definition keys (m : t) : list Address := map fst m.
Definition values (m : t) : list V := map snd m.
End Defs.
End JSMap.

(* ================================================================== *)
(** * Instructions and their normal form (message.ts) *)
(* ================================================================== *)

Record AccountMeta := {
  meta_isSigner : bool;
  meta_isWritable : bool;
  meta_pubkey : PublicKey
}.

Record TransactionInstruction := {
  ix_data : bytes;
  ix_keys : list AccountMeta;
  ix_programId : PublicKey
}.

(** Modelled from the spec: the account role of the instructions package
    (not among the sources), a capability set over signer and writable. *)
Inductive AccountRole := READONLY | WRITABLE | READONLY_SIGNER | WRITABLE_SIGNER.

Definition isSignerRole (r : AccountRole) : bool :=
  match r with READONLY_SIGNER | WRITABLE_SIGNER => true | _ => false end.

Definition isWritableRole (r : AccountRole) : bool :=
  match r with WRITABLE | WRITABLE_SIGNER => true | _ => false end.

(** An account of a Kit instruction: a plain meta, or a lookup meta (the
    object has a [lookupTableAddress] property). *)
Inductive KitAccount :=
| KitAccountMeta (address : Address) (role : AccountRole)
| KitAccountLookupMeta (address : Address) (role : AccountRole)
    (lookupTableAddress : Address) (addressIndex : nat).

Record Instruction := {
  kit_programAddress : Address;
  kit_accounts : option (list KitAccount);
  kit_data : option bytes
}.

Inductive InstructionInput :=
| KitInstruction (i : Instruction)
| LegacyInstruction (i : TransactionInstruction).

Definition isKitInstruction (instruction : InstructionInput) : bool :=
  match instruction with KitInstruction _ => true | LegacyInstruction _ => false end.

Definition normalizeAccount (account : KitAccount) : result AccountMeta :=
  match account with
  | KitAccountLookupMeta _ _ _ _ => Err AccountLookupMetaNotSupported
  | KitAccountMeta address role =>
      Ok {| meta_isSigner := isSignerRole role;
            meta_isWritable := isWritableRole role;
            meta_pubkey := fromAddress address |}
  end.

Definition normalizeInstruction (instruction : InstructionInput)
  : result TransactionInstruction :=
  match instruction with
  | KitInstruction i =>
      keys <- mapM normalizeAccount
                (match kit_accounts i with Some l => l | None => [] end) ;;
      Ok {| ix_data := match kit_data i with Some d => d | None => [] end;
            ix_keys := keys;
            ix_programId := fromAddress (kit_programAddress i) |}
  | LegacyInstruction i =>
      Ok {| ix_data := ix_data i; ix_keys := ix_keys i; ix_programId := ix_programId i |}
  end.

(* ================================================================== *)
(** * Messages (message.ts) *)
(* ================================================================== *)

Record MessageHeader := {
  numReadonlySignedAccounts : nat;
  numReadonlyUnsignedAccounts : nat;
  numRequiredSignatures : nat
}.

(** Legacy compiled instruction; [ci_data] is the base-64 text of the data. *)
Record CompiledInstruction := {
  ci_accounts : list nat;
  ci_data : string;
  ci_programIdIndex : nat
}.

Record MessageCompiledInstruction := {
  accountKeyIndexes : list nat;
  mci_data : bytes;
  mci_programIdIndex : nat
}.

Record MessageAddressTableLookup := {
  atl_accountKey : PublicKey;
  readonlyIndexes : list nat;
  writableIndexes : list nat
}.

(** The lifetime token is kept as its 32 bytes, like an address. *)
Definition Blockhash := bytes.

Record Message := {
  header : MessageHeader;
  accountKeys : list PublicKey;
  recentBlockhash : Blockhash;
  instructions : list CompiledInstruction
}.

Record MessageV0 := {
  v0_header : MessageHeader;
  staticAccountKeys : list PublicKey;
  v0_recentBlockhash : Blockhash;
  compiledInstructions : list MessageCompiledInstruction;
  addressTableLookups : list MessageAddressTableLookup
}.

Record AddressLookupTableAccount := {
  alt_key : PublicKey;
  alt_addresses : list PublicKey
}.

Record CompileLegacyArgs := {
  cl_instructions : list InstructionInput;
  cl_payerKey : PublicKey;
  cl_recentBlockhash : Blockhash
}.

Record CompileV0Args := {
  cv_addressLookupTableAccounts : option (list AddressLookupTableAccount);
  cv_instructions : list InstructionInput;
  cv_payerKey : PublicKey;
  cv_recentBlockhash : Blockhash
}.

(* ================================================================== *)
(** * Base-64 text of a byte buffer (the runtime's [Buffer]) *)
(* ================================================================== *)

Definition byte_of_nat (n : nat) : byte :=
  match Byte.of_nat (n mod 256) with Some b => b | None => x00 end.

Definition B64_ALPHABET : list ascii :=
  list_ascii_of_string
    "ABCDEFGHIJKLMNOPQRSTUVWXYZabcdefghijklmnopqrstuvwxyz0123456789+/".

Definition b64_char (sextet : nat) : ascii := nth sextet B64_ALPHABET "="%char.

Fixpoint index_of (c : ascii) (l : list ascii) : option nat :=
  match l with
  | [] => None
  | x :: l' => if Ascii.eqb x c then Some 0 else option_map S (index_of c l')
  end.

Definition b64_value (c : ascii) : option nat := index_of c B64_ALPHABET.

(** The six-bit groups of a buffer, three bytes making four groups. *)
Fixpoint to_sextets (l : list nat) : list nat :=
  match l with
  | a :: b :: c :: r =>
      a / 4 :: (a mod 4) * 16 + b / 16 :: (b mod 16) * 4 + c / 64 :: c mod 64
        :: to_sextets r
  | [a; b] => [a / 4; (a mod 4) * 16 + b / 16; (b mod 16) * 4]
  | [a] => [a / 4; (a mod 4) * 16]
  | [] => []
  end.

Definition b64_padding (len : nat) : list ascii :=
  match len mod 3 with
  | 1 => ["="; "="]%char
  | 2 => ["="]%char
  | _ => []
  end.

(** [buf.toString('base64')] *)
Definition toBase64 (buf : bytes) : string :=
  string_of_list_ascii
    (map b64_char (to_sextets (map Byte.to_nat buf)) ++ b64_padding (length buf)).

(** The values of the longest prefix made of alphabet characters; decoding
    stops at the padding character or at any other foreign character. *)
Fixpoint b64_values (s : list ascii) : list nat :=
  match s with
  | [] => []
  | c :: s' =>
      match b64_value c with
      | Some v => v :: b64_values s'
      | None => []
      end
  end.

Fixpoint from_sextets (l : list nat) : list nat :=
  match l with
  | s0 :: s1 :: s2 :: s3 :: r =>
      s0 * 4 + s1 / 16 :: (s1 mod 16) * 16 + s2 / 4 :: (s2 mod 4) * 64 + s3
        :: from_sextets r
  | [s0; s1; s2] => [s0 * 4 + s1 / 16; (s1 mod 16) * 16 + s2 / 4]
  | [s0; s1] => [s0 * 4 + s1 / 16]
  | _ => []
  end.

(** [Buffer.from(text, 'base64')] *)
Definition fromBase64 (text : string) : bytes :=
  map byte_of_nat (from_sextets (b64_values (list_ascii_of_string text))).

(* ================================================================== *)
(** * Static account ordering, shared by both compilers *)
(* ================================================================== *)

Section Ordering.
Variable A : Type.
Variables (signer writable : A -> bool).

Definition writableSignersOf (accounts : list A) : list A :=
    filter (fun a => signer a && writable a) accounts.
Definition readonlySignersOf (accounts : list A) : list A :=
    filter (fun a => signer a && negb (writable a)) accounts.
Definition writableNonSignersOf (accounts : list A) : list A :=
    filter (fun a => negb (signer a) && writable a) accounts.
Definition readonlyNonSignersOf (accounts : list A) : list A :=
    filter (fun a => negb (signer a) && negb (writable a)) accounts.

Definition orderAccounts (accounts : list A) : list A :=
    writableSignersOf accounts ++ readonlySignersOf accounts
      ++ writableNonSignersOf accounts ++ readonlyNonSignersOf accounts.

Definition buildHeader (accounts : list A) : MessageHeader :=
    {| numReadonlySignedAccounts := length (readonlySignersOf accounts);
       numReadonlyUnsignedAccounts := length (readonlyNonSignersOf accounts);
       numRequiredSignatures :=
         length (writableSignersOf accounts) + length (readonlySignersOf accounts) |}.
End Ordering.

(** [ordered.forEach((acc, idx) => keyIndexMap.set(key(acc), idx))] onto an
    existing index map, [idx] counting from [start]. *)
Fixpoint setIndexes (keyIndexMap : JSMap.t nat) (ks : list Address) (start : nat)
  : JSMap.t nat :=
  match ks with
  | [] => keyIndexMap
  | k :: ks' => setIndexes (JSMap.set keyIndexMap k start) ks' (S start)
  end.

(** [keyIndexMap.get(key)!]: the assertion has no run-time effect; a missing
    key cannot occur for the keys the compilers look up (lemmas
    [Message_compile_indices_defined], [MessageV0_compile_indices_defined]),
    and the model gives it the value 0. *)
Definition indexOfKey (keyIndexMap : JSMap.t nat) (k : Address) : nat :=
  match JSMap.get keyIndexMap k with Some i => i | None => 0 end.

(* ================================================================== *)
(** * Message.compile *)
(* ================================================================== *)

Record LegacyEntry := {
  le_isSigner : bool;
  le_isWritable : bool;
  le_pubkey : PublicKey
}.

Definition legacyAddProgram (accountMap : JSMap.t LegacyEntry) (programId : PublicKey)
  : JSMap.t LegacyEntry :=
  let programKey := toBase58 programId in
  if JSMap.has accountMap programKey then accountMap
  else JSMap.set accountMap programKey
         {| le_isSigner := false; le_isWritable := false; le_pubkey := programId |}.

Definition legacyAddMeta (accountMap : JSMap.t LegacyEntry) (meta : AccountMeta)
  : JSMap.t LegacyEntry :=
  let key := toBase58 (meta_pubkey meta) in
  match JSMap.get accountMap key with
  | Some existing =>
      JSMap.set accountMap key
        {| le_isSigner := le_isSigner existing || meta_isSigner meta;
           le_isWritable := le_isWritable existing || meta_isWritable meta;
           le_pubkey := le_pubkey existing |}
  | None =>
      JSMap.set accountMap key
        {| le_isSigner := meta_isSigner meta;
           le_isWritable := meta_isWritable meta;
           le_pubkey := meta_pubkey meta |}
  end.

Definition legacyAddInstruction (accountMap : JSMap.t LegacyEntry)
    (ix : TransactionInstruction) : JSMap.t LegacyEntry :=
  fold_left legacyAddMeta (ix_keys ix) (legacyAddProgram accountMap (ix_programId ix)).

(** The account map after the fee payer and every instruction went in. *)
Definition legacyAccountMap (payerKey : PublicKey) (ixs : list TransactionInstruction)
  : JSMap.t LegacyEntry :=
  fold_left legacyAddInstruction ixs
    (JSMap.set (JSMap.empty _) (toBase58 payerKey)
       {| le_isSigner := true; le_isWritable := true; le_pubkey := payerKey |}).

Definition compileLegacyInstruction (keyIndexMap : JSMap.t nat)
    (ix : TransactionInstruction) : CompiledInstruction :=
  {| ci_accounts :=
       map (fun meta => indexOfKey keyIndexMap (toBase58 (meta_pubkey meta))) (ix_keys ix);
     ci_data := toBase64 (ix_data ix);
     ci_programIdIndex := indexOfKey keyIndexMap (toBase58 (ix_programId ix)) |}.

Definition Message_compile_normalized (payerKey : PublicKey) (blockhash : Blockhash)
    (ixs : list TransactionInstruction) : Message :=
  let accounts := JSMap.values (legacyAccountMap payerKey ixs) in
  let orderedAccounts := orderAccounts le_isSigner le_isWritable accounts in
  let keyIndexMap :=
    setIndexes (JSMap.empty _) (map (fun a => toBase58 (le_pubkey a)) orderedAccounts) 0 in
  {| header := buildHeader le_isSigner le_isWritable accounts;
     accountKeys := map le_pubkey orderedAccounts;
     recentBlockhash := blockhash;
     instructions := map (compileLegacyInstruction keyIndexMap) ixs |}.

Definition Message_compile (args : CompileLegacyArgs) : result Message :=
  ixs <- mapM normalizeInstruction (cl_instructions args) ;;
  Ok (Message_compile_normalized (cl_payerKey args) (cl_recentBlockhash args) ixs).

(* ================================================================== *)
(** * MessageV0.compile *)
(* ================================================================== *)

Record LookupInfo := {
  tableIndex : nat;
  tableKey : PublicKey
}.

Record AccountEntry := {
  fromLookup : option LookupInfo;
  isSigner : bool;
  isWritable : bool;
  pubkey : PublicKey
}.

(** [table.state.addresses.forEach((addr, idx) => ...)], [idx] counting from
    [idx0]: the first table, and in it the first position, that lists an
    address wins. *)
Fixpoint addTableAddresses (lookupMap : JSMap.t LookupInfo) (key : PublicKey)
    (addresses : list PublicKey) (idx0 : nat) : JSMap.t LookupInfo :=
  match addresses with
  | [] => lookupMap
  | addr :: rest =>
      let k := toBase58 addr in
      let lookupMap' :=
        if JSMap.has lookupMap k then lookupMap
        else JSMap.set lookupMap k {| tableIndex := idx0; tableKey := key |} in
      addTableAddresses lookupMap' key rest (S idx0)
  end.

Definition buildLookupMap (tables : list AddressLookupTableAccount)
  : JSMap.t LookupInfo :=
  fold_left
    (fun lookupMap table =>
       addTableAddresses lookupMap (alt_key table) (alt_addresses table) 0)
    tables (JSMap.empty _).

Definition v0AddProgram (accountMap : JSMap.t AccountEntry) (programId : PublicKey)
  : JSMap.t AccountEntry :=
  let programKey := toBase58 programId in
  if JSMap.has accountMap programKey then accountMap
  else JSMap.set accountMap programKey
         {| fromLookup := None; isSigner := false; isWritable := false;
            pubkey := programId |}.

Definition v0AddMeta (lookupMap : JSMap.t LookupInfo)
    (accountMap : JSMap.t AccountEntry) (meta : AccountMeta) : JSMap.t AccountEntry :=
  let key := toBase58 (meta_pubkey meta) in
  match JSMap.get accountMap key with
  | Some existing =>
      JSMap.set accountMap key
        {| fromLookup :=
             if meta_isSigner meta && isSome (fromLookup existing) then None
             else fromLookup existing;
           isSigner := isSigner existing || meta_isSigner meta;
           isWritable := isWritable existing || meta_isWritable meta;
           pubkey := pubkey existing |}
  | None =>
      let lookupInfo := JSMap.get lookupMap key in
      let canUseLookup := negb (meta_isSigner meta) && isSome lookupInfo in
      JSMap.set accountMap key
        {| fromLookup := if canUseLookup then lookupInfo else None;
           isSigner := meta_isSigner meta;
           isWritable := meta_isWritable meta;
           pubkey := meta_pubkey meta |}
  end.

Definition v0AddInstruction (lookupMap : JSMap.t LookupInfo)
    (accountMap : JSMap.t AccountEntry) (ix : TransactionInstruction)
  : JSMap.t AccountEntry :=
  fold_left (v0AddMeta lookupMap) (ix_keys ix)
    (v0AddProgram accountMap (ix_programId ix)).

Definition v0AccountMap (lookupMap : JSMap.t LookupInfo) (payerKey : PublicKey)
    (ixs : list TransactionInstruction) : JSMap.t AccountEntry :=
  fold_left (v0AddInstruction lookupMap) ixs
    (JSMap.set (JSMap.empty _) (toBase58 payerKey)
       {| fromLookup := None; isSigner := true; isWritable := true;
          pubkey := payerKey |}).

(** [tableToLookup]: per table key, the accounts pushed so far (the two index
    arrays the source stores next to them are never written or read). *)
Definition groupAccount (tableToLookup : JSMap.t (list AccountEntry))
    (acc : AccountEntry) : JSMap.t (list AccountEntry) :=
  match fromLookup acc with
  | None => tableToLookup
  | Some info =>
      let k := toBase58 (tableKey info) in
      let t := if JSMap.has tableToLookup k then tableToLookup
               else JSMap.set tableToLookup k [] in
      match JSMap.get t k with
      | Some accounts => JSMap.set t k (accounts ++ [acc])
      | None => t
      end
  end.

Definition entryTableIndex (acc : AccountEntry) : nat :=
  match fromLookup acc with Some info => tableIndex info | None => 0 end.

(** [for (const acc of accs) { keyIndexMap.set(key, nextIndex++);
    indexes.push(acc.fromLookup.tableIndex) }] *)
Fixpoint assignIndexes (keyIndexMap : JSMap.t nat) (nextIndex : nat)
    (accs : list AccountEntry) : JSMap.t nat * nat * list nat :=
  match accs with
  | [] => (keyIndexMap, nextIndex, [])
  | acc :: rest =>
      let '(m, n, indexes) :=
        assignIndexes (JSMap.set keyIndexMap (toBase58 (pubkey acc)) nextIndex)
          (S nextIndex) rest in
      (m, n, entryTableIndex acc :: indexes)
  end.

Record LookupState := {
  ls_keyIndexMap : JSMap.t nat;
  ls_nextIndex : nat;
  ls_lookups : list MessageAddressTableLookup
}.

Definition buildLookup (st : LookupState) (entry : Address * list AccountEntry)
  : LookupState :=
  let '(tableKeyStr, data) := entry in
  let writableAccs := filter isWritable data in
  let readonlyAccs := filter (fun a => negb (isWritable a)) data in
  let '(m1, n1, wIndexes) :=
    assignIndexes (ls_keyIndexMap st) (ls_nextIndex st) writableAccs in
  let '(m2, n2, rIndexes) := assignIndexes m1 n1 readonlyAccs in
  {| ls_keyIndexMap := m2;
     ls_nextIndex := n2;
     ls_lookups :=
       if (0 <? length wIndexes) || (0 <? length rIndexes)
       then ls_lookups st
              ++ [{| atl_accountKey := fromAddress tableKeyStr;
                     readonlyIndexes := rIndexes;
                     writableIndexes := wIndexes |}]
       else ls_lookups st |}.

Definition compileV0Instruction (keyIndexMap : JSMap.t nat)
    (ix : TransactionInstruction) : MessageCompiledInstruction :=
  {| accountKeyIndexes :=
       map (fun meta => indexOfKey keyIndexMap (toBase58 (meta_pubkey meta))) (ix_keys ix);
     mci_data := ix_data ix;
     mci_programIdIndex := indexOfKey keyIndexMap (toBase58 (ix_programId ix)) |}.

Definition staticAccountsOf (accounts : list AccountEntry) : list AccountEntry :=
  filter (fun a => negb (isSome (fromLookup a))) accounts.

Definition lookupAccountsOf (accounts : list AccountEntry) : list AccountEntry :=
  filter (fun a => isSome (fromLookup a)) accounts.

Definition MessageV0_compile_normalized (tables : list AddressLookupTableAccount)
    (payerKey : PublicKey) (blockhash : Blockhash)
    (ixs : list TransactionInstruction) : MessageV0 :=
  let lookupMap := buildLookupMap tables in
  let accounts := JSMap.values (v0AccountMap lookupMap payerKey ixs) in
  let staticAccounts := staticAccountsOf accounts in
  let lookupAccounts := lookupAccountsOf accounts in
  let orderedStaticAccounts := orderAccounts isSigner isWritable staticAccounts in
  let keyIndexMap :=
    setIndexes (JSMap.empty _)
      (map (fun a => toBase58 (pubkey a)) orderedStaticAccounts) 0 in
  let tableToLookup := fold_left groupAccount lookupAccounts (JSMap.empty _) in
  let st :=
    fold_left buildLookup tableToLookup
      {| ls_keyIndexMap := keyIndexMap;
         ls_nextIndex := length orderedStaticAccounts;
         ls_lookups := [] |} in
  {| v0_header := buildHeader isSigner isWritable staticAccounts;
     staticAccountKeys := map pubkey orderedStaticAccounts;
     v0_recentBlockhash := blockhash;
     compiledInstructions := map (compileV0Instruction (ls_keyIndexMap st)) ixs;
     addressTableLookups := ls_lookups st |}.

Definition MessageV0_compile (args : CompileV0Args) : result MessageV0 :=
  let tables :=
    match cv_addressLookupTableAccounts args with Some l => l | None => [] end in
  ixs <- mapM normalizeInstruction (cv_instructions args) ;;
  Ok (MessageV0_compile_normalized tables (cv_payerKey args)
        (cv_recentBlockhash args) ixs).

(* ================================================================== *)
(** * Version detection and the query interface *)
(* ================================================================== *)

Inductive MessageVersion := VersionLegacy | VersionNumber (n : Z).

(** [serializedMessage[0]] is [undefined] on an empty array; [undefined & 0x7f]
    is 0 and [undefined !== 0] holds. *)
Definition deserializeMessageVersion (serializedMessage : bytes) : MessageVersion :=
  let prefix := option_map (fun b => Z.of_nat (Byte.to_nat b)) (nth_error serializedMessage 0) in
  let maskedPrefix :=
    match prefix with Some p => Z.land p 127 | None => 0%Z end in
  let differs :=
    match prefix with Some p => negb (Z.eqb p maskedPrefix) | None => true end in
  if differs && (maskedPrefix <=? 0)%Z then VersionNumber maskedPrefix
  else VersionLegacy.

Definition Message_isAccountSigner (m : Message) (index : nat) : bool :=
  index <? numRequiredSignatures (header m).

Definition MessageV0_isAccountSigner (m : MessageV0) (index : nat) : bool :=
  index <? numRequiredSignatures (v0_header m).

(* ================================================================== *)
(** * Program-derived addresses (publickey.ts) *)
(* ================================================================== *)

(** A seed is a byte array or a text; [new TextEncoder().encode] gives the
    UTF-8 bytes of a text, which is what a Rocq [string] holds. *)
Inductive Seed :=
| SeedBytes (b : bytes)
| SeedText (s : string).

Definition textEncode (s : string) : bytes := list_byte_of_string s.

Definition seedToBytes (seed : Seed) : bytes :=
  match seed with
  | SeedText s => textEncode s
  | SeedBytes b => b
  end.

Definition PDA_MARKER_BYTES : bytes :=
  [x50; x72; x6f; x67; x72; x61; x6d; x44; x65; x72; x69; x76; x65; x64; x41;
   x64; x64; x72; x65; x73; x73].

(** The loop over the seeds: the first seed that is too long throws, the
    others are pushed onto [seedBytes]. *)
Fixpoint collectSeedBytes (seeds : list Seed) (seedBytes : bytes) : result bytes :=
  match seeds with
  | [] => Ok seedBytes
  | seed :: rest =>
      let b := seedToBytes seed in
      if MAX_SEED_LENGTH <? length b then Err (MaxSeedLengthExceeded (length b))
      else collectSeedBytes rest (seedBytes ++ b)
  end.

Section CryptoProvider.
  (** The provider's SHA-256 digest, its curve-membership test on an address
      and its Ed25519 verification (public key bytes, signature, message). *)
Variable sha256 : bytes -> bytes.
Variable isOffCurveAddress : Address -> bool.
Variable verifySignature : bytes -> bytes -> bytes -> bool.

Definition createProgramAddress (seeds : list Seed) (programId : PublicKey)
    : result PublicKey :=
    if MAX_SEEDS <? length seeds then Err (MaxSeedCountExceeded (length seeds))
    else
      seedBytes <- collectSeedBytes seeds [] ;;
      let programBytes := toBytes programId in
      let hashInput := seedBytes ++ programBytes ++ PDA_MARKER_BYTES in
      let addressBytes := sha256 hashInput in
      let derivedAddress : Address := addressBytes in
      if negb (isOffCurveAddress derivedAddress) then Err InvalidSeeds
      else Ok (fromAddress derivedAddress).

Definition isOnCurve (pubkeyData : PublicKey) : bool :=
    negb (isOffCurveAddress (toAddress pubkeyData)).
End CryptoProvider.

(* ================================================================== *)
(** * The wire codec of compiled messages and transactions *)
(* ================================================================== *)

(** Modelled from the spec: the byte codec of the transaction-messages and
    transactions packages (not among the sources), after the wire layout of
    the spec: one-byte unsigned fields, 32-byte addresses, compact arrays, and
    the version discriminator on byte 0.  The spec leaves the length prefix of
    a compact array to the codec; the model uses the network's short-u16 (seven
    bits a byte, lowest first, high bit as continuation).  An encoder returns
    [None] where a value does not fit its field. *)
Module Wire.

Definition Decoder (A : Type) := bytes -> option (A * bytes).

Definition obind {A B} (o : option A) (f : A -> option B) : option B :=
    match o with Some a => f a | None => None end.

Definition encodeU8 (n : nat) : option bytes := option_map (fun b => [b]) (Byte.of_nat n).

Definition decodeU8 : Decoder nat := fun bs =>
    match bs with
    | b :: rest => Some (Byte.to_nat b, rest)
    | [] => None
    end.

Definition encodeByte (b : byte) : option bytes := Some [b].

Definition decodeByte : Decoder byte := fun bs =>
    match bs with
    | b :: rest => Some (b, rest)
    | [] => None
    end.

Definition byte_of_N (v : N) : byte :=
    match Byte.of_N (v mod 256) with Some b => b | None => x00 end.

Definition encodeShortU16 (n : nat) : option bytes :=
    let v := N.of_nat n in
    if (v <? 128)%N then Some [byte_of_N v]
    else if (v <? 16384)%N then Some [byte_of_N (128 + v mod 128); byte_of_N (v / 128)]
    else if (v <? 65536)%N then
      Some [byte_of_N (128 + v mod 128); byte_of_N (128 + (v / 128) mod 128);
            byte_of_N (v / 16384)]
    else None.

Definition decodeShortU16 : Decoder nat := fun bs =>
    match bs with
    | [] => None
    | b0 :: r0 =>
        let v0 := Byte.to_N b0 in
        if (v0 <? 128)%N then Some (N.to_nat v0, r0)
        else
          match r0 with
          | [] => None
          | b1 :: r1 =>
              let v1 := Byte.to_N b1 in
              if (v1 <? 128)%N then Some (N.to_nat ((v0 - 128) + 128 * v1), r1)
              else
                match r1 with
                | [] => None
                | b2 :: r2 =>
                    Some (N.to_nat ((v0 - 128) + 128 * (v1 - 128)
                                    + 16384 * Byte.to_N b2), r2)
                end
          end
    end.

  (** A fixed field of [n] bytes. *)
Definition encodeFixed (n : nat) (b : bytes) : option bytes :=
    if length b =? n then Some b else None.

Definition decodeFixed (n : nat) : Decoder bytes := fun bs =>
    if n <=? length bs then Some (firstn n bs, skipn n bs) else None.

Fixpoint encodeAll {A} (enc : A -> option bytes) (l : list A) : option bytes :=
    match l with
    | [] => Some []
    | x :: l' =>
        obind (enc x) (fun e => obind (encodeAll enc l') (fun es => Some (e ++ es)))
    end.

Fixpoint decodeN {A} (dec : Decoder A) (n : nat) : Decoder (list A) := fun bs =>
    match n with
    | 0 => Some ([], bs)
    | S n' =>
        obind (dec bs) (fun '(x, r) =>
        obind (decodeN dec n' r) (fun '(xs, r') => Some (x :: xs, r')))
    end.

Definition encodeArray {A} (enc : A -> option bytes) (l : list A) : option bytes :=
    obind (encodeShortU16 (length l)) (fun n =>
    obind (encodeAll enc l) (fun es => Some (n ++ es))).

Definition decodeArray {A} (dec : Decoder A) : Decoder (list A) := fun bs =>
    obind (decodeShortU16 bs) (fun '(n, r) => decodeN dec n r).

  (** The structural record handed to and from the codec. *)
Record Header := {
    numReadonlyNonSignerAccounts : nat;
    numReadonlySignerAccounts : nat;
    numSignerAccounts : nat
  }.

Record CompiledIx := {
    accountIndices : option (list nat);
    data : option bytes;
    programAddressIndex : nat
  }.

Record Lookup := {
    lookupTableAddress : Address;
    lk_readonlyIndexes : list nat;
    lk_writableIndexes : list nat
  }.

Inductive Version := Legacy | V0.

Record CompiledMessage := {
    cm_addressTableLookups : option (list Lookup);
    cm_header : Header;
    cm_instructions : list CompiledIx;
    cm_lifetimeToken : Blockhash;
    cm_staticAccounts : list Address;
    cm_version : Version
  }.

Definition orEmpty {A} (o : option (list A)) : list A :=
    match o with Some l => l | None => [] end.

Definition encodeHeader (h : Header) : option bytes :=
    obind (encodeU8 (numSignerAccounts h)) (fun a =>
    obind (encodeU8 (numReadonlySignerAccounts h)) (fun b =>
    obind (encodeU8 (numReadonlyNonSignerAccounts h)) (fun c => Some (a ++ b ++ c)))).

Definition decodeHeader : Decoder Header := fun bs =>
    obind (decodeU8 bs) (fun '(a, r1) =>
    obind (decodeU8 r1) (fun '(b, r2) =>
    obind (decodeU8 r2) (fun '(c, r3) =>
      Some ({| numReadonlyNonSignerAccounts := c;
               numReadonlySignerAccounts := b;
               numSignerAccounts := a |}, r3)))).

Definition encodeIx (ix : CompiledIx) : option bytes :=
    obind (encodeU8 (programAddressIndex ix)) (fun p =>
    obind (encodeArray encodeU8 (orEmpty (accountIndices ix))) (fun a =>
    obind (encodeArray encodeByte (orEmpty (data ix))) (fun d => Some (p ++ a ++ d)))).

Definition decodeIx : Decoder CompiledIx := fun bs =>
    obind (decodeU8 bs) (fun '(p, r1) =>
    obind (decodeArray decodeU8 r1) (fun '(a, r2) =>
    obind (decodeArray decodeByte r2) (fun '(d, r3) =>
      Some ({| accountIndices := Some a; data := Some d;
               programAddressIndex := p |}, r3)))).

Definition encodeLookup (l : Lookup) : option bytes :=
    obind (encodeFixed 32 (lookupTableAddress l)) (fun t =>
    obind (encodeArray encodeU8 (lk_writableIndexes l)) (fun w =>
    obind (encodeArray encodeU8 (lk_readonlyIndexes l)) (fun r => Some (t ++ w ++ r)))).

Definition decodeLookup : Decoder Lookup := fun bs =>
    obind (decodeFixed 32 bs) (fun '(t, r1) =>
    obind (decodeArray decodeU8 r1) (fun '(w, r2) =>
    obind (decodeArray decodeU8 r2) (fun '(r, r3) =>
      Some ({| lookupTableAddress := t; lk_readonlyIndexes := r;
               lk_writableIndexes := w |}, r3)))).

  (** Header, static addresses, lifetime token and instructions: the part the
      two layouts share. *)
Definition encodeBody (m : CompiledMessage) : option bytes :=
    obind (encodeHeader (cm_header m)) (fun h =>
    obind (encodeArray (encodeFixed 32) (cm_staticAccounts m)) (fun a =>
    obind (encodeFixed 32 (cm_lifetimeToken m)) (fun t =>
    obind (encodeArray encodeIx (cm_instructions m)) (fun i =>
      Some (h ++ a ++ t ++ i))))).

Definition encodeCompiledMessage (m : CompiledMessage) : option bytes :=
    match cm_version m with
    | Legacy => encodeBody m
    | V0 =>
        obind (encodeBody m) (fun b =>
        obind (encodeArray encodeLookup (orEmpty (cm_addressTableLookups m))) (fun l =>
          Some (x80 :: b ++ l)))
    end.

Definition decodeBody (v : Version) (lookups : bool) : Decoder CompiledMessage := fun bs =>
    obind (decodeHeader bs) (fun '(h, r1) =>
    obind (decodeArray (decodeFixed 32) r1) (fun '(a, r2) =>
    obind (decodeFixed 32 r2) (fun '(t, r3) =>
    obind (decodeArray decodeIx r3) (fun '(i, r4) =>
    obind (if lookups
           then option_map (fun '(l, r) => (Some l, r)) (decodeArray decodeLookup r4)
           else Some (None, r4)) (fun '(l, r5) =>
      Some ({| cm_addressTableLookups := l; cm_header := h; cm_instructions := i;
               cm_lifetimeToken := t; cm_staticAccounts := a; cm_version := v |},
            r5)))))).

  (** Byte 0 decides the layout: bit 7 clear, the message is legacy and the
      byte is its first header field; bit 7 set, bits 0-6 are the version, of
      which 0 is the only one defined. *)
Definition decodeCompiledMessage (bs : bytes) : option CompiledMessage :=
    match bs with
    | [] => None
    | b0 :: rest =>
        if Byte.to_nat b0 <? 128 then option_map fst (decodeBody Legacy false bs)
        else if Byte.to_nat b0 - 128 =? 0 then option_map fst (decodeBody V0 true rest)
        else None
    end.

  (** A transaction on the wire: the compact array of 64-byte signatures (an
      empty slot as 64 zero bytes), then the message bytes. *)
Definition fixSignature (sig : option bytes) : bytes :=
    match sig with
    | Some s => firstn 64 (s ++ repeat x00 64)
    | None => repeat x00 64
    end.

Record KitTransaction := {
    messageBytes : bytes;
    kt_signatures : JSMap.t (option bytes)
  }.

Definition encodeTransaction (t : KitTransaction) : option bytes :=
    obind (encodeArray (fun s => Some (fixSignature s)) (JSMap.values (kt_signatures t)))
      (fun sigs => Some (sigs ++ messageBytes t)).

End Wire.

Definition ofCodec {A} (o : option A) : result A :=
  match o with Some a => Ok a | None => Err CodecError end.

Definition toKitHeader (h : MessageHeader) : Wire.Header :=
  {| Wire.numReadonlyNonSignerAccounts := numReadonlyUnsignedAccounts h;
     Wire.numReadonlySignerAccounts := numReadonlySignedAccounts h;
     Wire.numSignerAccounts := numRequiredSignatures h |}.

Definition fromKitHeader (kitHeader : Wire.Header) : MessageHeader :=
  {| numReadonlySignedAccounts := Wire.numReadonlySignerAccounts kitHeader;
     numReadonlyUnsignedAccounts := Wire.numReadonlyNonSignerAccounts kitHeader;
     numRequiredSignatures := Wire.numSignerAccounts kitHeader |}.

(** The record [serialize] hands to the encoder. *)
Definition Message_compiledMessage (m : Message) : Wire.CompiledMessage :=
  {| Wire.cm_addressTableLookups := None;
     Wire.cm_header := toKitHeader (header m);
     Wire.cm_instructions :=
       map (fun ix => {| Wire.accountIndices := Some (ci_accounts ix);
                         Wire.data := Some (fromBase64 (ci_data ix));
                         Wire.programAddressIndex := ci_programIdIndex ix |})
           (instructions m);
     Wire.cm_lifetimeToken := recentBlockhash m;
     Wire.cm_staticAccounts := map toAddress (accountKeys m);
     Wire.cm_version := Wire.Legacy |}.

Definition Message_serialize (m : Message) : result bytes :=
  ofCodec (Wire.encodeCompiledMessage (Message_compiledMessage m)).

Definition Message_from (buffer : bytes) : result Message :=
  decoded <- ofCodec (Wire.decodeCompiledMessage buffer) ;;
  Ok {| header := fromKitHeader (Wire.cm_header decoded);
        accountKeys := map fromAddress (Wire.cm_staticAccounts decoded);
        recentBlockhash := Wire.cm_lifetimeToken decoded;
        instructions :=
          map (fun ix => {| ci_accounts := Wire.orEmpty (Wire.accountIndices ix);
                            ci_data := toBase64 (Wire.orEmpty (Wire.data ix));
                            ci_programIdIndex := Wire.programAddressIndex ix |})
              (Wire.cm_instructions decoded) |}.

Definition MessageV0_compiledMessage (m : MessageV0) : Wire.CompiledMessage :=
  {| Wire.cm_addressTableLookups :=
       Some (map (fun lookup =>
                    {| Wire.lookupTableAddress := toAddress (atl_accountKey lookup);
                       Wire.lk_readonlyIndexes := readonlyIndexes lookup;
                       Wire.lk_writableIndexes := writableIndexes lookup |})
                 (addressTableLookups m));
     Wire.cm_header := toKitHeader (v0_header m);
     Wire.cm_instructions :=
       map (fun ix => {| Wire.accountIndices := Some (accountKeyIndexes ix);
                         Wire.data := Some (mci_data ix);
                         Wire.programAddressIndex := mci_programIdIndex ix |})
           (compiledInstructions m);
     Wire.cm_lifetimeToken := v0_recentBlockhash m;
     Wire.cm_staticAccounts := map toAddress (staticAccountKeys m);
     Wire.cm_version := Wire.V0 |}.

Definition MessageV0_serialize (m : MessageV0) : result bytes :=
  ofCodec (Wire.encodeCompiledMessage (MessageV0_compiledMessage m)).

Definition MessageV0_deserialize (serializedMessage : bytes) : result MessageV0 :=
  decoded <- ofCodec (Wire.decodeCompiledMessage serializedMessage) ;;
  match Wire.cm_version decoded with
  | Wire.Legacy => Err ExpectedVersionedGotLegacy
  | Wire.V0 =>
      Ok {| v0_header := fromKitHeader (Wire.cm_header decoded);
            staticAccountKeys := map fromAddress (Wire.cm_staticAccounts decoded);
            v0_recentBlockhash := Wire.cm_lifetimeToken decoded;
            compiledInstructions :=
              map (fun ix =>
                     {| accountKeyIndexes := Wire.orEmpty (Wire.accountIndices ix);
                        mci_data := Wire.orEmpty (Wire.data ix);
                        mci_programIdIndex := Wire.programAddressIndex ix |})
                  (Wire.cm_instructions decoded);
            addressTableLookups :=
              map (fun lookup =>
                     {| atl_accountKey := fromAddress (Wire.lookupTableAddress lookup);
                        readonlyIndexes := Wire.lk_readonlyIndexes lookup;
                        writableIndexes := Wire.lk_writableIndexes lookup |})
                  (Wire.orEmpty (Wire.cm_addressTableLookups decoded)) |}
  end.

(* ================================================================== *)
(** * Transactions (transaction.ts) *)
(* ================================================================== *)

Record SignaturePubkeyPair := {
  sp_publicKey : PublicKey;
  sp_signature : option bytes
}.

Record NonceInformation := {
  nonce : Blockhash;
  nonceInstruction : TransactionInstruction
}.

Record SerializeConfig := {
  cfg_requireAllSignatures : option bool;
  cfg_verifySignatures : option bool
}.

Record Transaction := {
  signatures : list SignaturePubkeyPair;
  feePayer : option PublicKey;
  tx_instructions : list TransactionInstruction;
  tx_recentBlockhash : option Blockhash;
  nonceInfo : option NonceInformation
}.

Definition orDefault {A} (o : option A) (d : A) : A :=
  match o with Some a => a | None => d end.

(** [!this.recentBlockhash] holds for [undefined] and for the empty text. *)
Definition compileMessage (tx : Transaction) : result Message :=
  match tx_recentBlockhash tx with
  | None | Some [] => Err RecentBlockhashRequired
  | Some blockhash =>
      let payer :=
        match feePayer tx with
        | Some p => Some p
        | None => option_map sp_publicKey (nth_error (signatures tx) 0)
        end in
      match payer with
      | None => Err FeePayerRequired
      | Some payerKey =>
          let ixs :=
            match nonceInfo tx with
            | Some info => nonceInstruction info :: tx_instructions tx
            | None => tx_instructions tx
            end in
          Message_compile
            {| cl_instructions := map LegacyInstruction ixs;
               cl_payerKey := payerKey;
               cl_recentBlockhash := blockhash |}
      end
  end.

Definition serializeMessage (tx : Transaction) : result bytes :=
  m <- compileMessage tx ;; Message_serialize m.

(** [findIndex]: the first position whose element satisfies [p]; [None] is -1. *)
Fixpoint findIndex {A} (p : A -> bool) (l : list A) : option nat :=
  match l with
  | [] => None
  | x :: l' => if p x then Some 0 else option_map S (findIndex p l')
  end.

(** [arr[i] = v] for [i] inside the array. *)
Fixpoint setAt {A} (l : list A) (i : nat) (v : A) : list A :=
  match l, i with
  | [], _ => []
  | _ :: l', 0 => v :: l'
  | x :: l', S i' => x :: setAt l' i' v
  end.

Definition Transaction_addSignature (tx : Transaction) (pk : PublicKey)
    (signature : bytes) : result Transaction :=
  let withSignatures sigs :=
    {| signatures := sigs; feePayer := feePayer tx;
       tx_instructions := tx_instructions tx;
       tx_recentBlockhash := tx_recentBlockhash tx;
       nonceInfo := nonceInfo tx |} in
  match findIndex (fun s => equals (sp_publicKey s) pk) (signatures tx) with
  | None =>
      Ok (withSignatures
            (signatures tx ++ [{| sp_publicKey := pk; sp_signature := Some signature |}]))
  | Some sigIdx =>
      Ok (withSignatures
            (match nth_error (signatures tx) sigIdx with
             | Some slot =>
                 setAt (signatures tx) sigIdx
                   {| sp_publicKey := sp_publicKey slot; sp_signature := Some signature |}
             | None => signatures tx
             end))
  end.

(** [config?.requireAllSignatures ?? true] and [config?.verifySignatures ?? true] *)
Definition requireAllOf (config : option SerializeConfig) : bool :=
  orDefault (match config with Some c => cfg_requireAllSignatures c | None => None end) true.

Definition shouldVerifyOf (config : option SerializeConfig) : bool :=
  orDefault (match config with Some c => cfg_verifySignatures c | None => None end) true.

Section Verification.
Variable verifySignature : bytes -> bytes -> bytes -> bool.

  (** The loop of [verifySignatures] over the slots, in order. *)
Fixpoint verifySlots (message : bytes) (requireAllSignatures : bool)
      (slots : list SignaturePubkeyPair) : bool :=
    match slots with
    | [] => true
    | slot :: rest =>
        match sp_signature slot with
        | None =>
            if requireAllSignatures then false
            else verifySlots message requireAllSignatures rest
        | Some signature =>
            let valid := verifySignature (toBytes (sp_publicKey slot)) signature message in
            if negb valid then false
            else verifySlots message requireAllSignatures rest
        end
    end.

Definition verifySignatures (tx : Transaction) (requireAllSignatures : bool)
    : result bool :=
    message <- serializeMessage tx ;;
    Ok (verifySlots message requireAllSignatures (signatures tx)).

Definition hasEmptySlot (slots : list SignaturePubkeyPair) : bool :=
    existsb (fun s => negb (isSome (sp_signature s))) slots.

Definition Transaction_serialize (tx : Transaction) (config : option SerializeConfig)
    : result bytes :=
    let requireAllSignatures := requireAllOf config in
    let shouldVerify := shouldVerifyOf config in
    messageBytes <- serializeMessage tx ;;
    verified <- (if shouldVerify then verifySignatures tx requireAllSignatures
                 else Ok true) ;;
    if shouldVerify && negb verified then Err SignatureVerificationFailed
    else if requireAllSignatures && hasEmptySlot (signatures tx) then Err MissingSignature
    else
      let signaturesMap :=
        fold_left
          (fun m slot => JSMap.set m (toBase58 (sp_publicKey slot)) (sp_signature slot))
          (signatures tx) (JSMap.empty _) in
      ofCodec (Wire.encodeTransaction
                 {| Wire.messageBytes := messageBytes;
                    Wire.kt_signatures := signaturesMap |}).
End Verification.

Inductive VersionedMessage :=
| LegacyMessage (m : Message)
| V0Message (m : MessageV0).

Definition vm_header (m : VersionedMessage) : MessageHeader :=
  match m with
  | LegacyMessage m => header m
  | V0Message m => v0_header m
  end.

Definition vm_staticAccountKeys (m : VersionedMessage) : list PublicKey :=
  match m with
  | LegacyMessage m => accountKeys m
  | V0Message m => staticAccountKeys m
  end.

Record VersionedTransaction := {
  vt_signatures : list bytes;
  vt_message : VersionedMessage
}.

Definition newVersionedTransaction (message : VersionedMessage)
    (sigs : option (list bytes)) : VersionedTransaction :=
  {| vt_message := message;
     vt_signatures :=
       match sigs with
       | Some s => s
       | None =>
           repeat (repeat x00 SIGNATURE_LENGTH) (numRequiredSignatures (vm_header message))
       end |}.

Definition VersionedTransaction_addSignature (vt : VersionedTransaction)
    (publicKey : PublicKey) (signature : bytes) : result VersionedTransaction :=
  let staticKeys := vm_staticAccountKeys (vt_message vt) in
  match findIndex (fun k => equals k publicKey) staticKeys with
  | None => Err (UnknownSigner publicKey)
  | Some sigIdx =>
      if length (vt_signatures vt) <=? sigIdx then Err (UnknownSigner publicKey)
      else Ok {| vt_signatures := setAt (vt_signatures vt) sigIdx signature;
                 vt_message := vt_message vt |}
  end.

(** The static signer accounts of a message: the first [numRequiredSignatures]
    static account keys. *)
Definition staticSigners (m : VersionedMessage) : list PublicKey :=
  firstn (numRequiredSignatures (vm_header m)) (vm_staticAccountKeys m).

(* ================================================================== *)
(** * Vocabulary of the statements *)
(* ================================================================== *)

(** The capability set of an address. *)
Record Role := {
  signer : bool;
  writable : bool
}.

Definition WS : Role := {| signer := true; writable := true |}.
Definition RS : Role := {| signer := true; writable := false |}.
Definition WN : Role := {| signer := false; writable := true |}.
Definition RN : Role := {| signer := false; writable := false |}.

Definition bucket (r : Role) : nat :=
  match signer r, writable r with
  | true, true => 0
  | true, false => 1
  | false, true => 2
  | false, false => 3
  end.

Definition isWS (r : Role) : bool := signer r && writable r.
Definition isRS (r : Role) : bool := signer r && negb (writable r).
Definition isWN (r : Role) : bool := negb (signer r) && writable r.
Definition isRN (r : Role) : bool := negb (signer r) && negb (writable r).

(** The instructions a compiler works on; the empty list when normalising
    throws (the compiler then returns no message). *)
Definition normalizedInstructions (inputs : list InstructionInput)
  : list TransactionInstruction :=
  match mapM normalizeInstruction inputs with
  | Ok ixs => ixs
  | Err _ => []
  end.

Definition tablesOf (args : CompileV0Args) : list AddressLookupTableAccount :=
  match cv_addressLookupTableAccounts args with Some l => l | None => [] end.

Definition legacyFinalMap (args : CompileLegacyArgs) : JSMap.t LegacyEntry :=
  legacyAccountMap (cl_payerKey args) (normalizedInstructions (cl_instructions args)).

Definition v0FinalMap (args : CompileV0Args) : JSMap.t AccountEntry :=
  v0AccountMap (buildLookupMap (tablesOf args)) (cv_payerKey args)
    (normalizedInstructions (cv_instructions args)).

(** The final merged role of an address: the flags of its entry once every
    instruction has been merged into the account map. *)
Definition legacyFinalRole (args : CompileLegacyArgs) (a : Address) : option Role :=
  option_map (fun e => {| signer := le_isSigner e; writable := le_isWritable e |})
    (JSMap.get (legacyFinalMap args) a).

Definition v0FinalRole (args : CompileV0Args) (a : Address) : option Role :=
  option_map (fun e => {| signer := isSigner e; writable := isWritable e |})
    (JSMap.get (v0FinalMap args) a).

(** Four contiguous buckets, in the order WS, RS, WN, RN. *)
Definition fourBuckets (roleOf : Address -> option Role) (keys : list Address) : Prop :=
  exists ws rs wn rn,
    keys = ws ++ rs ++ wn ++ rn
    /\ Forall (fun a => roleOf a = Some WS) ws
    /\ Forall (fun a => roleOf a = Some RS) rs
    /\ Forall (fun a => roleOf a = Some WN) wn
    /\ Forall (fun a => roleOf a = Some RN) rn.

(** No index of a later bucket precedes an index of an earlier bucket. *)
Definition bucketsAscend (roleOf : Address -> option Role) (keys : list Address) : Prop :=
  forall i j a b,
    i < j -> nth_error keys i = Some a -> nth_error keys j = Some b ->
    exists ra rb, roleOf a = Some ra /\ roleOf b = Some rb /\ bucket ra <= bucket rb.

Definition countRole (roleOf : Address -> option Role) (p : Role -> bool)
    (keys : list Address) : nat :=
  length (filter (fun k => match roleOf k with Some r => p r | None => false end) keys).

(** The observations of an address in the input, in the order the compilers
    meet them. *)
Definition usedAsProgram (ixs : list TransactionInstruction) (a : Address) : bool :=
  existsb (fun ix => bytes_eqb (ix_programId ix) a) ixs.

Inductive Encounter :=
| AsProgram (a : Address)
| AsMeta (meta : AccountMeta).

Definition encounterKey (e : Encounter) : Address :=
  match e with
  | AsProgram a => a
  | AsMeta meta => meta_pubkey meta
  end.

Definition encounters (ixs : list TransactionInstruction) : list Encounter :=
  flat_map (fun ix => AsProgram (ix_programId ix) :: map AsMeta (ix_keys ix)) ixs.

(** An address whose first encounter is as the program of an instruction. *)
Definition firstSeenAsProgram (ixs : list TransactionInstruction) (a : Address) : bool :=
  match find (fun e => bytes_eqb (encounterKey e) a) (encounters ixs) with
  | Some (AsProgram _) => true
  | _ => false
  end.

(** The first table, in the caller's order, that lists an address, and the
    first position of the address in it. *)
Fixpoint firstTable (tables : list AddressLookupTableAccount) (a : Address)
  : option LookupInfo :=
  match tables with
  | [] => None
  | table :: rest =>
      match findIndex (fun x => bytes_eqb x a) (alt_addresses table) with
      | Some i => Some {| tableIndex := i; tableKey := alt_key table |}
      | None => firstTable rest a
      end
  end.

(** The addresses a lookup entry stands for, resolved in the caller's tables
    (the table is found by its key). *)
Definition resolveLookup (tables : list AddressLookupTableAccount)
    (lookup : MessageAddressTableLookup) : list (option Address) :=
  match find (fun t => bytes_eqb (alt_key t) (atl_accountKey lookup)) tables with
  | Some table =>
      map (nth_error (alt_addresses table)) (writableIndexes lookup ++ readonlyIndexes lookup)
  | None => map (fun _ => None) (writableIndexes lookup ++ readonlyIndexes lookup)
  end.

Definition lookupAddresses (tables : list AddressLookupTableAccount) (m : MessageV0)
  : list (option Address) :=
  flat_map (resolveLookup tables) (addressTableLookups m).

(** The values a message must hold to fit the fields of the wire layout. *)
Definition fitsU8 (n : nat) : bool := n <=? 255.
Definition fitsLength (n : nat) : bool := (N.of_nat n <? 65536)%N.
Definition is32 (b : bytes) : bool := length b =? 32.

Definition headerFits (h : MessageHeader) : bool :=
  fitsU8 (numRequiredSignatures h) && fitsU8 (numReadonlySignedAccounts h)
  && fitsU8 (numReadonlyUnsignedAccounts h).

Definition legacyFitsWire (m : Message) : bool :=
  (numRequiredSignatures (header m) <=? 127)
  && headerFits (header m)
  && fitsLength (length (accountKeys m)) && forallb is32 (accountKeys m)
  && is32 (recentBlockhash m)
  && fitsLength (length (instructions m))
  && forallb (fun ix => fitsU8 (ci_programIdIndex ix)
                        && fitsLength (length (ci_accounts ix))
                        && forallb fitsU8 (ci_accounts ix)
                        && fitsLength (length (fromBase64 (ci_data ix))))
       (instructions m).

Definition v0FitsWire (m : MessageV0) : bool :=
  headerFits (v0_header m)
  && fitsLength (length (staticAccountKeys m)) && forallb is32 (staticAccountKeys m)
  && is32 (v0_recentBlockhash m)
  && fitsLength (length (compiledInstructions m))
  && forallb (fun ix => fitsU8 (mci_programIdIndex ix)
                        && fitsLength (length (accountKeyIndexes ix))
                        && forallb fitsU8 (accountKeyIndexes ix)
                        && fitsLength (length (mci_data ix)))
       (compiledInstructions m)
  && fitsLength (length (addressTableLookups m))
  && forallb (fun l => is32 (atl_accountKey l)
                       && fitsLength (length (writableIndexes l))
                       && forallb fitsU8 (writableIndexes l)
                       && fitsLength (length (readonlyIndexes l))
                       && forallb fitsU8 (readonlyIndexes l))
       (addressTableLookups m).

(** The shape both compilers keep on their account map: one entry per key,
    every entry stored under the text of its own public key, and the fee
    payer first, as a writable signer (and, in the versioned compiler, never
    taken from a lookup table). *)
Definition legacyMapInv (payerKey : PublicKey) (m : JSMap.t LegacyEntry) : Prop :=
  NoDup (JSMap.keys m)
  /\ Forall (fun kv => toBase58 (le_pubkey (snd kv)) = fst kv) m
  /\ exists e, hd_error m = Some (toBase58 payerKey, e)
               /\ le_isSigner e = true /\ le_isWritable e = true.

Definition v0MapInv (payerKey : PublicKey) (m : JSMap.t AccountEntry) : Prop :=
  NoDup (JSMap.keys m)
  /\ Forall (fun kv => toBase58 (pubkey (snd kv)) = fst kv) m
  /\ exists e, hd_error m = Some (toBase58 payerKey, e)
               /\ isSigner e = true /\ isWritable e = true /\ fromLookup e = None.

(** The versioned compiler's loop, one encounter at a time. *)
Definition v0Step (lookupMap : JSMap.t LookupInfo) (m : JSMap.t AccountEntry)
    (e : Encounter) : JSMap.t AccountEntry :=
  match e with
  | AsProgram a => v0AddProgram m a
  | AsMeta meta => v0AddMeta lookupMap m meta
  end.

Definition v0Initial (payerKey : PublicKey) : JSMap.t AccountEntry :=
  JSMap.set (JSMap.empty _) (toBase58 payerKey)
    {| fromLookup := None; isSigner := true; isWritable := true; pubkey := payerKey |}.

(** The merge of the observations of one address: the flags are the logical
    OR of the flags of its account metas. *)
Definition anySigner (es : list Encounter) (a : Address) : bool :=
  existsb (fun e => match e with
                    | AsMeta meta => bytes_eqb (meta_pubkey meta) a && meta_isSigner meta
                    | AsProgram _ => false
                    end) es.

Definition anyWritable (es : list Encounter) (a : Address) : bool :=
  existsb (fun e => match e with
                    | AsMeta meta => bytes_eqb (meta_pubkey meta) a && meta_isWritable meta
                    | AsProgram _ => false
                    end) es.

Definition firstEncounter (es : list Encounter) (a : Address) : option Encounter :=
  find (fun e => bytes_eqb (encounterKey e) a) es.

(** The entry of an address once the encounters [es] went in: the fee payer
    is a static writable signer; an address first met as a program is static;
    an address first met as an account meta is taken from the lookup map
    unless one of its metas is a signer. *)
Definition mergedEntry (lookupMap : JSMap.t LookupInfo) (payerKey : PublicKey)
    (es : list Encounter) (a : Address) : option AccountEntry :=
  if bytes_eqb (toBase58 payerKey) a then
    Some {| fromLookup := None; isSigner := true; isWritable := true;
            pubkey := payerKey |}
  else
    match firstEncounter es a with
    | None => None
    | Some (AsProgram p) =>
        Some {| fromLookup := None; isSigner := anySigner es a;
                isWritable := anyWritable es a; pubkey := p |}
    | Some (AsMeta meta) =>
        Some {| fromLookup := if anySigner es a then None else JSMap.get lookupMap a;
                isSigner := anySigner es a; isWritable := anyWritable es a;
                pubkey := meta_pubkey meta |}
    end.

(** The table key an account was assigned to, and the accounts of one table
    among the lookup accounts. *)
Definition tableKeyOf (acc : AccountEntry) : option Address :=
  option_map (fun info => toBase58 (tableKey info)) (fromLookup acc).

Definition inTable (k : Address) (acc : AccountEntry) : bool :=
  match tableKeyOf acc with
  | Some k' => bytes_eqb k' k
  | None => false
  end.

Definition groupOf (accs : list AccountEntry) (k : Address) : option (list AccountEntry) :=
  match filter (inTable k) accs with
  | [] => None
  | data => Some data
  end.

(** The lookup entry one group of [tableToLookup] gives. *)
Definition lookupOfGroup (entry : Address * list AccountEntry)
  : list MessageAddressTableLookup :=
  let w := map entryTableIndex (filter isWritable (snd entry)) in
  let r := map entryTableIndex (filter (fun a => negb (isWritable a)) (snd entry)) in
  if (0 <? length w) || (0 <? length r)
  then [{| atl_accountKey := fromAddress (fst entry);
           readonlyIndexes := r; writableIndexes := w |}]
  else [].

(** A value the codec can carry: its encoder accepts it and its decoder reads
    it back from the front of any input that starts with the encoding. *)
Definition codecOk {A} (enc : A -> option bytes) (dec : Wire.Decoder A) (x : A) : Prop :=
  exists e, enc x = Some e /\ forall rest, dec (e ++ rest) = Some (x, rest).

(** Decoding the encoding of a message. *)
Definition Message_roundTrip (m : Message) : result Message :=
  buffer <- Message_serialize m ;; Message_from buffer.

Definition MessageV0_roundTrip (m : MessageV0) : result MessageV0 :=
  buffer <- MessageV0_serialize m ;; MessageV0_deserialize buffer.

(** The legacy compiler keeps, of an entry of the versioned compiler, all but
    the lookup assignment. *)
Definition forgetLookup (e : AccountEntry) : LegacyEntry :=
  {| le_isSigner := isSigner e; le_isWritable := isWritable e; le_pubkey := pubkey e |}.

Definition forgetLookups (m : JSMap.t AccountEntry) : JSMap.t LegacyEntry :=
  map (fun kv => (fst kv, forgetLookup (snd kv))) m.

(** The keys the compiled instructions look up in the index map. *)
Definition instructionKeys (ix : TransactionInstruction) : list Address :=
  toBase58 (ix_programId ix) :: map (fun meta => toBase58 (meta_pubkey meta)) (ix_keys ix).

(** The index map of the versioned compiler once the lookup accounts have
    their indexes. *)
Definition v0KeyIndexMap (tables : list AddressLookupTableAccount)
    (payerKey : PublicKey) (ixs : list TransactionInstruction) : JSMap.t nat :=
  let accounts := JSMap.values (v0AccountMap (buildLookupMap tables) payerKey ixs) in
  let orderedStaticAccounts :=
    orderAccounts isSigner isWritable (staticAccountsOf accounts) in
  ls_keyIndexMap
    (fold_left buildLookup
       (fold_left groupAccount (lookupAccountsOf accounts) (JSMap.empty _))
       {| ls_keyIndexMap :=
            setIndexes (JSMap.empty _)
              (map (fun a => toBase58 (pubkey a)) orderedStaticAccounts) 0;
          ls_nextIndex := length orderedStaticAccounts;
          ls_lookups := [] |}).

(** The role an account entry's flags give, and the rank of an address in the
    bucket order (4 for an address without a role). *)
Definition roleOfFlags {A} (sg wr : A -> bool) (a : A) : Role :=
  {| signer := sg a; writable := wr a |}.

Definition bucketRank (roleOf : Address -> option Role) (a : Address) : nat :=
  match roleOf a with Some r => bucket r | None => 4 end.

Definition ranksAscend (roleOf : Address -> option Role) (l : list Address) : Prop :=
  forall i j a b,
    i < j -> nth_error l i = Some a -> nth_error l j = Some b ->
    bucketRank roleOf a <= bucketRank roleOf b.

(* ================================================================== *)
(** * The query interface and the getters of messages (message.ts) *)
(* ================================================================== *)

(** The subtractions are on JavaScript numbers and can go below zero, where
    no index is smaller; on naturals they stop at zero, where no index is
    smaller either. *)
Definition Message_isAccountWritable (m : Message) (index : nat) : bool :=
  let numSigners := numRequiredSignatures (header m) in
  let numReadonlySigners := numReadonlySignedAccounts (header m) in
  let numReadonlyUnsigned := numReadonlyUnsignedAccounts (header m) in
  if index <? numSigners then
    let readonlySignerStart := numSigners - numReadonlySigners in
    index <? readonlySignerStart
  else
    let readonlyUnsignedStart := length (accountKeys m) - numReadonlyUnsigned in
    index <? readonlyUnsignedStart.

(** The loop of [MessageV0.isAccountWritable] over the lookups, from the
    running [currentIndex]. *)
Fixpoint lookupWritable (lookups : list MessageAddressTableLookup)
    (lookupIndex currentIndex : nat) : bool :=
  match lookups with
  | [] => false
  | lookup :: rest =>
      if lookupIndex <? currentIndex + length (writableIndexes lookup) then true
      else
        let currentIndex := currentIndex + length (writableIndexes lookup) in
        if lookupIndex <? currentIndex + length (readonlyIndexes lookup) then false
        else lookupWritable rest lookupIndex
               (currentIndex + length (readonlyIndexes lookup))
  end.

Definition MessageV0_isAccountWritable (m : MessageV0) (index : nat) : bool :=
  let numSigners := numRequiredSignatures (v0_header m) in
  let numReadonlySigners := numReadonlySignedAccounts (v0_header m) in
  let numReadonlyUnsigned := numReadonlyUnsignedAccounts (v0_header m) in
  let numStaticKeys := length (staticAccountKeys m) in
  if index <? numSigners then
    let readonlySignerStart := numSigners - numReadonlySigners in
    index <? readonlySignerStart
  else if index <? numStaticKeys then
    let readonlyUnsignedStart := numStaticKeys - numReadonlyUnsigned in
    index <? readonlyUnsignedStart
  else
    let lookupIndex := index - numStaticKeys in
    lookupWritable (addressTableLookups m) lookupIndex 0.

Definition numAccountKeysFromLookups (m : MessageV0) : nat :=
  fold_left
    (fun count lookup =>
       count + length (writableIndexes lookup) + length (readonlyIndexes lookup))
    (addressTableLookups m) 0.

(** The getters of a legacy message that give it the shape of a versioned
    one. *)
Definition Message_staticAccountKeys (m : Message) : list PublicKey := accountKeys m.

Definition Message_compiledInstructions (m : Message) : list MessageCompiledInstruction :=
  map (fun ix => {| accountKeyIndexes := ci_accounts ix;
                    mci_data := fromBase64 (ci_data ix);
                    mci_programIdIndex := ci_programIdIndex ix |})
      (instructions m).

Definition Message_addressTableLookups (m : Message) : list MessageAddressTableLookup := [].

Definition VersionedMessage_deserialize (serializedMessage : bytes)
  : result VersionedMessage :=
  match deserializeMessageVersion serializedMessage with
  | VersionLegacy => m <- Message_from serializedMessage ;; Ok (LegacyMessage m)
  | VersionNumber _ => m <- MessageV0_deserialize serializedMessage ;; Ok (V0Message m)
  end.

(* ================================================================== *)
(** * Building, signing and populating transactions (transaction.ts) *)
(* ================================================================== *)

(** What [add] accepts: another transaction, a Kit instruction, or a legacy
    instruction whose data may be missing.  An added transaction is read
    when its turn comes: the item holds the instructions it has then. *)
Inductive TransactionItem :=
| ItemTransaction (t : Transaction)
| ItemKit (i : Instruction)
| ItemLegacy (data : option bytes) (keys : list AccountMeta) (programId : PublicKey).

Fixpoint allSome {A} (l : list (option A)) : option (list A) :=
  match l with
  | [] => Some []
  | Some x :: l' => option_map (cons x) (allSome l')
  | None :: _ => None
  end.

(** The callback of [add] over the accounts of a Kit instruction.  It throws
    on a lookup meta, with a message of its own (AccountLookupMeta is not
    supported in legacy Transaction); [add] throws nothing else, and the
    model gives [None] for it. *)
Definition addAccount (account : KitAccount) : option AccountMeta :=
  match account with
  | KitAccountLookupMeta _ _ _ _ => None
  | KitAccountMeta address role =>
      Some {| meta_isSigner := isSignerRole role;
              meta_isWritable := isWritableRole role;
              meta_pubkey := fromAddress address |}
  end.

(** The instructions one item pushes. *)
Definition itemInstructions (item : TransactionItem)
  : option (list TransactionInstruction) :=
  match item with
  | ItemTransaction t => Some (tx_instructions t)
  | ItemKit i =>
      match allSome (map addAccount
                       (match kit_accounts i with Some l => l | None => [] end)) with
      | Some keys =>
          Some [{| ix_data := match kit_data i with Some d => d | None => [] end;
                   ix_keys := keys;
                   ix_programId := fromAddress (kit_programAddress i) |}]
      | None => None
      end
  | ItemLegacy data keys programId =>
      Some [{| ix_data := match data with Some d => d | None => [] end;
               ix_keys := keys;
               ix_programId := programId |}]
  end.

(** [this.instructions] after the items went in, in order.  The source pushes
    as it goes and throws at the first bad item; the model returns the error
    alone. *)
Fixpoint addItems (pushed : list TransactionInstruction) (items : list TransactionItem)
  : option (list TransactionInstruction) :=
  match items with
  | [] => Some pushed
  | item :: rest =>
      match itemInstructions item with
      | Some ixs => addItems (pushed ++ ixs) rest
      | None => None
      end
  end.

Definition withInstructions (tx : Transaction) (ixs : list TransactionInstruction)
  : Transaction :=
  {| signatures := signatures tx; feePayer := feePayer tx;
     tx_instructions := ixs;
     tx_recentBlockhash := tx_recentBlockhash tx;
     nonceInfo := nonceInfo tx |}.

Definition withSignatures (tx : Transaction) (slots : list SignaturePubkeyPair)
  : Transaction :=
  {| signatures := slots; feePayer := feePayer tx;
     tx_instructions := tx_instructions tx;
     tx_recentBlockhash := tx_recentBlockhash tx;
     nonceInfo := nonceInfo tx |}.

Definition Transaction_add (tx : Transaction) (items : list TransactionItem)
  : option Transaction :=
  option_map (withInstructions tx) (addItems (tx_instructions tx) items).

(** [get signature()] *)
Definition Transaction_signature (tx : Transaction) : option bytes :=
  match signatures tx with
  | slot :: _ => sp_signature slot
  | [] => None
  end.

Section Signing.
(** A signer is a [Keypair] or an object with a public key and a secret key.
    Its key material lives with the crypto provider: [signatureBy] stands for
    getting its private key (the key pair of the [Keypair], or the one
    [Keypair.fromSecretKey] builds, which can throw) and signing the bytes
    with it. *)
Variable Signer : Type.
Variable publicKeyOf : Signer -> PublicKey.
Variable signatureBy : Signer -> bytes -> result bytes.

(** The loop of [partialSign] over the signers. *)
Fixpoint signSlots (messageBytes : bytes) (slots : list SignaturePubkeyPair)
    (signers : list Signer) : result (list SignaturePubkeyPair) :=
  match signers with
  | [] => Ok slots
  | signer :: rest =>
      let pubkey := publicKeyOf signer in
      let signerKey := toBase58 pubkey in
      match findIndex (fun s => bytes_eqb (toBase58 (sp_publicKey s)) signerKey) slots with
      | None => Err (UnknownSigner pubkey)
      | Some sigIdx =>
          signature <- signatureBy signer messageBytes ;;
          signSlots messageBytes
            (match nth_error slots sigIdx with
             | Some slot =>
                 setAt slots sigIdx
                   {| sp_publicKey := sp_publicKey slot; sp_signature := Some signature |}
             | None => slots
             end)
            rest
      end
  end.

(** The slots [partialSign] starts from: the ones there are, or, when there
    are none, one empty slot for each of the first [numRequiredSignatures]
    account keys (a compiled message has them). *)
Definition initialSlots (message : Message) (slots : list SignaturePubkeyPair)
  : list SignaturePubkeyPair :=
  if length slots =? 0 then
    map (fun k => {| sp_publicKey := k; sp_signature := None |})
      (firstn (numRequiredSignatures (header message)) (accountKeys message))
  else slots.

(** The source writes the slots in place and throws at the first unknown
    signer; the model returns the error alone. *)
Definition Transaction_partialSign (tx : Transaction) (signers : list Signer)
  : result Transaction :=
  message <- compileMessage tx ;;
  messageBytes <- Message_serialize message ;;
  slots <- signSlots messageBytes (initialSlots message (signatures tx)) signers ;;
  Ok (withSignatures tx slots).

Definition Transaction_sign (tx : Transaction) (signers : list Signer)
  : result Transaction :=
  Transaction_partialSign tx signers.

Definition vm_serialize (m : VersionedMessage) : result bytes :=
  match m with
  | LegacyMessage m => Message_serialize m
  | V0Message m => MessageV0_serialize m
  end.

(** The loop of [VersionedTransaction.sign]. *)
Fixpoint signVersionedSlots (messageBytes : bytes) (staticKeys : list PublicKey)
    (sigs : list bytes) (signers : list Signer) : result (list bytes) :=
  match signers with
  | [] => Ok sigs
  | signer :: rest =>
      let pubkey := publicKeyOf signer in
      let signerKey := toBase58 pubkey in
      match findIndex (fun k => bytes_eqb (toBase58 k) signerKey) staticKeys with
      | None => Err (UnknownSigner pubkey)
      | Some sigIdx =>
          if length sigs <=? sigIdx then Err (UnknownSigner pubkey)
          else
            signature <- signatureBy signer messageBytes ;;
            signVersionedSlots messageBytes staticKeys (setAt sigs sigIdx signature) rest
      end
  end.

Definition VersionedTransaction_sign (vt : VersionedTransaction) (signers : list Signer)
  : result VersionedTransaction :=
  messageBytes <- vm_serialize (vt_message vt) ;;
  sigs <- signVersionedSlots messageBytes (vm_staticAccountKeys (vt_message vt))
            (vt_signatures vt) signers ;;
  Ok {| vt_signatures := sigs; vt_message := vt_message vt |}.
End Signing.

(** [Transaction.populate].  A signature is given as text; the model holds
    its bytes, and the empty text, like a missing entry, gives an empty slot.
    [message.accountKeys[idx]] is [undefined] for an index past the account
    keys, which a compiled message never holds; the model gives no transaction
    there. *)
Definition populateSlot (message : Message) (sigs : list bytes) (i : nat)
  : option SignaturePubkeyPair :=
  match nth_error (accountKeys message) i with
  | Some k =>
      Some {| sp_publicKey := k;
              sp_signature :=
                match nth_error sigs i with
                | Some (b :: s) => Some (b :: s)
                | _ => None
                end |}
  | None => None
  end.

Definition populateMeta (message : Message) (idx : nat) : option AccountMeta :=
  option_map
    (fun k => {| meta_isSigner := Message_isAccountSigner message idx;
                 meta_isWritable := Message_isAccountWritable message idx;
                 meta_pubkey := k |})
    (nth_error (accountKeys message) idx).

Definition populateInstruction (message : Message) (compiledIx : CompiledInstruction)
  : option TransactionInstruction :=
  match allSome (map (populateMeta message) (ci_accounts compiledIx)),
        nth_error (accountKeys message) (ci_programIdIndex compiledIx) with
  | Some keys, Some programId =>
      Some {| ix_data := fromBase64 (ci_data compiledIx);
              ix_keys := keys;
              ix_programId := programId |}
  | _, _ => None
  end.

Definition Transaction_populate (message : Message) (sigs : list bytes)
  : option Transaction :=
  match allSome (map (populateSlot message sigs)
                   (seq 0 (numRequiredSignatures (header message)))),
        allSome (map (populateInstruction message) (instructions message)) with
  | Some slots, Some ixs =>
      Some {| signatures := slots;
              feePayer := nth_error (accountKeys message) 0;
              tx_instructions := ixs;
              tx_recentBlockhash := Some (recentBlockhash message);
              nonceInfo := None |}
  | _, _ => None
  end.

(* ================================================================== *)
(** * Vocabulary of the further statements *)
(* ================================================================== *)

(** The addresses an input mentions: the fee payer, the programs and the
    accounts of the instructions. *)
Definition mentioned (payerKey : PublicKey) (ixs : list TransactionInstruction)
    (a : Address) : Prop :=
  a = toBase58 payerKey \/ exists ix, In ix ixs /\ In a (instructionKeys ix).

(** A Kit instruction one of whose accounts is a lookup meta. *)
Definition hasLookupMeta (input : InstructionInput) : bool :=
  match input with
  | KitInstruction i =>
      existsb (fun account => match account with
                              | KitAccountLookupMeta _ _ _ _ => true
                              | KitAccountMeta _ _ => false
                              end)
        (match kit_accounts i with Some l => l | None => [] end)
  | LegacyInstruction _ => false
  end.

(** The number of accounts the lookups before a position stand for. *)
Definition lookupSize (lookup : MessageAddressTableLookup) : nat :=
  length (writableIndexes lookup) + length (readonlyIndexes lookup).

Definition lookupsSize (lookups : list MessageAddressTableLookup) : nat :=
  list_sum (map lookupSize lookups).

(** A slot that holds a signature the provider accepts for the bytes. *)
Definition slotVerifies (verifySignature : bytes -> bytes -> bytes -> bool)
    (message : bytes) (slot : SignaturePubkeyPair) : bool :=
  match sp_signature slot with
  | Some signature => verifySignature (toBytes (sp_publicKey slot)) signature message
  | None => false
  end.

(** The accounts of all the groups of [tableToLookup], group after group. *)
Definition groupedAccounts (groups : JSMap.t (list AccountEntry)) : list AccountEntry :=
  flat_map snd groups.

(** An instruction handed to [add] as it would be handed to a compiler. *)
Definition itemOfInput (input : InstructionInput) : TransactionItem :=
  match input with
  | KitInstruction i => ItemKit i
  | LegacyInstruction i => ItemLegacy (Some (ix_data i)) (ix_keys i) (ix_programId i)
  end.

(** The arguments of a versioned compilation without the lookup tables, and
    a legacy message read through the getters that give it the shape of a
    versioned one. *)
Definition withoutTables (args : CompileV0Args) : CompileLegacyArgs :=
  {| cl_instructions := cv_instructions args;
     cl_payerKey := cv_payerKey args;
     cl_recentBlockhash := cv_recentBlockhash args |}.

Definition Message_asVersioned (m : Message) : MessageV0 :=
  {| v0_header := header m;
     staticAccountKeys := Message_staticAccountKeys m;
     v0_recentBlockhash := recentBlockhash m;
     compiledInstructions := Message_compiledInstructions m;
     addressTableLookups := Message_addressTableLookups m |}.

(** The account metas [populate] builds for the accounts of an instruction:
    the flags are the ones the message gives the index of the address. *)
Definition populatedMeta (m : Message) (keyIndexMap : JSMap.t nat) (meta : AccountMeta)
  : AccountMeta :=
  let idx := indexOfKey keyIndexMap (toBase58 (meta_pubkey meta)) in
  {| meta_isSigner := Message_isAccountSigner m idx;
     meta_isWritable := Message_isAccountWritable m idx;
     meta_pubkey := meta_pubkey meta |}.

Definition populatedInstruction (m : Message) (keyIndexMap : JSMap.t nat)
    (ix : TransactionInstruction) : TransactionInstruction :=
  {| ix_data := ix_data ix;
     ix_keys := map (populatedMeta m keyIndexMap) (ix_keys ix);
     ix_programId := ix_programId ix |}.

(** The slot the key of a signer finds: the first one with that key. *)
Definition slotOf {Signer : Type} (publicKeyOf : Signer -> PublicKey)
    (slots : list SignaturePubkeyPair) (s : Signer) : option nat :=
  findIndex (fun x => bytes_eqb (toBase58 (sp_publicKey x)) (toBase58 (publicKeyOf s)))
    slots.

(** The index map of the legacy compiler, and an encounter as [populate]
    gives it back. *)
Definition legacyKeyIndexMap (payerKey : PublicKey) (ixs : list TransactionInstruction)
  : JSMap.t nat :=
  setIndexes (JSMap.empty _)
    (map (fun a => toBase58 (le_pubkey a))
       (orderAccounts le_isSigner le_isWritable
          (JSMap.values (legacyAccountMap payerKey ixs)))) 0.

Definition populatedEncounter (m : Message) (keyIndexMap : JSMap.t nat) (e : Encounter)
  : Encounter :=
  match e with
  | AsProgram p => AsProgram p
  | AsMeta meta => AsMeta (populatedMeta m keyIndexMap meta)
  end.

(* ================================================================== *)
(** * Sample inputs *)
(* ================================================================== *)

Module Sample.

  (** The address whose last byte is [n], the others zero. *)
Definition addr (n : nat) : Address := repeat x00 31 ++ [byte_of_nat n].

Definition P : PublicKey := addr 1.
Definition Q : PublicKey := addr 2.
Definition X : PublicKey := addr 3.
Definition T : PublicKey := addr 9.
Definition blockhash : Blockhash := repeat x07 32.

Definition meta (k : PublicKey) (s w : bool) : AccountMeta :=
    {| meta_isSigner := s; meta_isWritable := w; meta_pubkey := k |}.

Definition instr (program : PublicKey) (keys : list AccountMeta) (d : bytes)
    : TransactionInstruction :=
    {| ix_data := d; ix_keys := keys; ix_programId := program |}.

  (** A toy provider: the digest is the first 32 bytes of the padded input,
      an address is off the curve when its first byte is not zero, and every
      signature verifies. *)
Definition digest (m : bytes) : bytes := firstn 32 (m ++ repeat x00 32).
Definition offCurve (a : Address) : bool :=
    match a with x00 :: _ => false | _ => true end.
Definition verifyAll (_ _ _ : bytes) : bool := true.

  (** A transaction with one slot, empty or filled. *)
Definition tx (sig : option bytes) : Transaction :=
    {| signatures := [{| sp_publicKey := P; sp_signature := sig |}];
       feePayer := Some P;
       tx_instructions := [instr Q [] [x01; x02; x03; x04]];
       tx_recentBlockhash := Some blockhash;
       nonceInfo := None |}.

  (** A versioned transaction built with two signatures over a message that
      requires one. *)
Definition twoSlots : VersionedTransaction :=
    newVersionedTransaction
      (LegacyMessage
         {| header := {| numReadonlySignedAccounts := 0;
                         numReadonlyUnsignedAccounts := 1;
                         numRequiredSignatures := 1 |};
            accountKeys := [P; Q];
            recentBlockhash := blockhash;
            instructions := [] |})
      (Some [repeat x00 64; repeat x00 64]).

End Sample.

Module SampleCompile.
Import Sample.

Definition Y : PublicKey := addr 4.
Definition Z : PublicKey := addr 5.

  (** Scenario A of the specification. *)
Definition scenarioA : CompileLegacyArgs :=
    {| cl_instructions := [LegacyInstruction (instr Q [meta P true true] [])];
       cl_payerKey := P;
       cl_recentBlockhash := repeat x00 32 |}.

  (** Two instructions touching every bucket; [Y] is upgraded from a
      read-only non-signer to a writable signer by the second one. *)
Definition mixedInstructions : list InstructionInput :=
    [LegacyInstruction
       (instr Q [meta Y false false; meta X false true; meta Z true false] [x01]);
     KitInstruction
       {| kit_programAddress := Q;
          kit_accounts := Some [KitAccountMeta Y WRITABLE_SIGNER;
                                KitAccountMeta P READONLY];
          kit_data := None |}].

Definition mixedLegacy : CompileLegacyArgs :=
    {| cl_instructions := mixedInstructions;
       cl_payerKey := P;
       cl_recentBlockhash := blockhash |}.

Definition table (key : PublicKey) (l : list PublicKey) : AddressLookupTableAccount :=
    {| alt_key := key; alt_addresses := l |}.

Definition v0Args (tables : list AddressLookupTableAccount)
      (ixs : list TransactionInstruction) : CompileV0Args :=
    {| cv_addressLookupTableAccounts := Some tables;
       cv_instructions := map LegacyInstruction ixs;
       cv_payerKey := P;
       cv_recentBlockhash := blockhash |}.

  (** Scenario B: [X] is a writable non-signer listed in the table [T]. *)
Definition scenarioB : CompileV0Args :=
    v0Args [table T [X]] [instr Q [meta P true true; meta X false true] []].

  (** Scenario C: as B, but [X] is a signer of a later instruction. *)
Definition scenarioC : CompileV0Args :=
    v0Args [table T [X]]
      [instr Q [meta P true true; meta X false true] [];
       instr Q [meta X true false] []].

  (** The program [Q] of the only instruction is listed in the table [T]. *)
Definition programInTable : CompileV0Args :=
    v0Args [table T [Q]] [instr Q [] []].

  (** Two tables; [X] and [Z] are in both, [Y] only in the second. *)
Definition twoTables : CompileV0Args :=
    v0Args [table T [Z; X]; table (addr 10) [X; Y; Z]]
      [instr Q [meta Y false true; meta X false false; meta Z false true] [x05]].

End SampleCompile.

Module SampleWire.
Import Sample.

  (** A legacy compilation with 128 signers: the fee payer and 127 signer
      accounts of one instruction. *)
Definition manySigners : CompileLegacyArgs :=
    {| cl_instructions :=
         [LegacyInstruction
            (instr (addr 200) (map (fun n => meta (addr n) true false) (seq 2 127)) [])];
       cl_payerKey := P;
       cl_recentBlockhash := blockhash |}.

End SampleWire.

Module SampleQuery.
Import Sample SampleCompile.

  (** The message [twoTables] compiles to: two static keys, then the
      accounts of two lookups. *)
Definition twoTablesMessage : MessageV0 :=
    {| v0_header := {| numReadonlySignedAccounts := 0;
                       numReadonlyUnsignedAccounts := 1;
                       numRequiredSignatures := 1 |};
       staticAccountKeys := [P; Q];
       v0_recentBlockhash := blockhash;
       compiledInstructions :=
         [{| accountKeyIndexes := [2; 4; 3]; mci_data := [x05];
             mci_programIdIndex := 1 |}];
       addressTableLookups :=
         [{| atl_accountKey := addr 10; readonlyIndexes := []; writableIndexes := [1] |};
          {| atl_accountKey := T; readonlyIndexes := [1]; writableIndexes := [0] |}] |}.

End SampleQuery.

Module SampleSign.
Import Sample SampleCompile.

  (** A toy signature scheme for the provider: a signer is its public key,
      its signature of a message is the first 64 bytes of the key followed by
      the message, and a signature verifies when it is that one. *)
Definition toySigner := PublicKey.
Definition toyKey (s : toySigner) : PublicKey := s.
Definition toySignature (k : PublicKey) (message : bytes) : bytes :=
    firstn 64 (k ++ message ++ repeat x00 64).
Definition toySign (s : toySigner) (message : bytes) : result bytes :=
    Ok (toySignature s message).
Definition toyVerify (k signature message : bytes) : bool :=
    bytes_eqb signature (toySignature k message).

  (** A transaction without slots whose message requires the signatures of
      the fee payer [P] and of [X]. *)
Definition unsigned : Transaction :=
    {| signatures := [];
       feePayer := Some P;
       tx_instructions := [instr Q [meta X true false; meta Y false true] [x01]];
       tx_recentBlockhash := Some blockhash;
       nonceInfo := None |}.

  (** A versioned transaction over the message of [twoTables], with its one
      empty signature. *)
Definition versioned : VersionedTransaction :=
    newVersionedTransaction (V0Message SampleQuery.twoTablesMessage) None.

  (** Lookup tables that list none of the addresses of [mixedInstructions]. *)
Definition unusedTables : CompileV0Args :=
    {| cv_addressLookupTableAccounts := Some [table T [addr 77; addr 78]];
       cv_instructions := mixedInstructions;
       cv_payerKey := P;
       cv_recentBlockhash := blockhash |}.

End SampleSign.

(* ================================================================== *)
(** * Basic facts: byte strings and maps *)
(* ================================================================== *)

Unset Implicit Arguments.

Lemma bytes_eqb_eq (a b : bytes) : bytes_eqb a b = true <-> a = b.
Proof.
  revert b; induction a as [|x a IH]; intros [|y b]; simpl; split;
    try congruence; try reflexivity.
  - intros H. apply andb_true_iff in H as [Hx Hab].
    apply Byte.byte_dec_bl in Hx. apply IH in Hab. congruence.
  - intros H. injection H as -> ->. apply andb_true_iff. split.
    + now apply Byte.byte_dec_lb.
    + now apply IH.
Qed.

Lemma bytes_eqb_refl (a : bytes) : bytes_eqb a a = true.
Proof. now apply bytes_eqb_eq. Qed.

Lemma bytes_eqb_neq (a b : bytes) : bytes_eqb a b = false <-> a <> b.
Proof.
  split.
  - intros H E. apply bytes_eqb_eq in E. congruence.
  - intros H. destruct (bytes_eqb a b) eqn:E; [|reflexivity].
    apply bytes_eqb_eq in E. contradiction.
Qed.

Lemma bytes_eqb_sym (a b : bytes) : bytes_eqb a b = bytes_eqb b a.
Proof.
  destruct (bytes_eqb a b) eqn:E.
  - apply bytes_eqb_eq in E. subst. symmetry. apply bytes_eqb_refl.
  - apply bytes_eqb_neq in E. symmetry. apply bytes_eqb_neq. congruence.
Qed.

Ltac eqb_cases a b :=
  let E := fresh "E" in
  destruct (bytes_eqb a b) eqn:E;
  [apply bytes_eqb_eq in E | apply bytes_eqb_neq in E].

Module JSMapFacts.
Import JSMap.
Section Facts.
Variable V : Type.
Implicit Types (m : t V) (k : Address) (v : V).

Lemma get_set_same m k v : get (set m k v) k = Some v.
Proof.
    induction m as [|[k' v'] m IH]; simpl.
    - now rewrite bytes_eqb_refl.
    - eqb_cases k' k; simpl.
      + subst. now rewrite bytes_eqb_refl.
      + apply bytes_eqb_neq in E. now rewrite E.
Qed.

Lemma get_set_other m k k' v : k <> k' -> get (set m k v) k' = get m k'.
Proof.
    intros Hne. induction m as [|[k0 v0] m IH]; simpl.
    - apply bytes_eqb_neq in Hne. now rewrite Hne.
    - eqb_cases k0 k; simpl.
      + subst k0. apply bytes_eqb_neq in Hne. now rewrite Hne.
      + now rewrite IH.
Qed.

Lemma get_none_not_in m k : get m k = None <-> ~ In k (keys m).
Proof.
    induction m as [|[k0 v0] m IH]; simpl.
    - tauto.
    - eqb_cases k0 k.
      + split; [discriminate | intros H; exfalso; apply H; now left].
      + rewrite IH. tauto.
Qed.

Lemma get_some_in m k v : get m k = Some v -> In (k, v) m.
Proof.
    induction m as [|[k0 v0] m IH]; simpl; [discriminate|].
    eqb_cases k0 k.
    - intros H. injection H as ->. subst. now left.
    - intros H. right. now apply IH.
Qed.

Lemma in_get m k v : NoDup (keys m) -> In (k, v) m -> get m k = Some v.
Proof.
    induction m as [|[k0 v0] m IH]; simpl; [tauto|].
    intros Hnd [H|H].
    - injection H as -> ->. now rewrite bytes_eqb_refl.
    - inversion Hnd as [|? ? Hnotin Hnd']; subst.
      eqb_cases k0 k.
      + subst. exfalso. apply Hnotin. change k with (fst (k, v)). now apply in_map.
      + now apply IH.
Qed.

Lemma set_absent m k v : get m k = None -> set m k v = m ++ [(k, v)].
Proof.
    induction m as [|[k0 v0] m IH]; simpl; [reflexivity|].
    eqb_cases k0 k; [discriminate|].
    intros H. now rewrite IH.
Qed.

Lemma set_present m k v v0 :
    get m k = Some v0 ->
    exists m1 m2, m = m1 ++ (k, v0) :: m2 /\ set m k v = m1 ++ (k, v) :: m2
                  /\ ~ In k (keys m1).
Proof.
    induction m as [|[k1 v1] m IH]; simpl; [discriminate|].
    eqb_cases k1 k.
    - intros H. injection H as ->. subst. exists [], m. simpl. tauto.
    - intros H. destruct (IH H) as (m1 & m2 & E1 & E2 & Hn).
      exists ((k1, v1) :: m1), m2. simpl. rewrite E1 at 1. rewrite E2.
      repeat split; try reflexivity. intros [F|F]; [congruence | tauto].
Qed.

Lemma keys_set_present m k v v0 : get m k = Some v0 -> keys (set m k v) = keys m.
Proof.
    intros H. destruct (@set_present m k v v0 H) as (m1 & m2 & E1 & E2 & _).
    rewrite E2, E1. unfold keys. now rewrite !map_app.
Qed.

Lemma keys_set_absent m k v : get m k = None -> keys (set m k v) = keys m ++ [k].
Proof. intros H. rewrite (@set_absent m k v H). unfold keys. now rewrite map_app. Qed.

Lemma nodup_set m k v : NoDup (keys m) -> NoDup (keys (set m k v)).
Proof.
    intros Hnd. destruct (get m k) as [v0|] eqn:G.
    - now rewrite (@keys_set_present m k v v0 G).
    - rewrite (@keys_set_absent m k v G).
      apply NoDup_app; [assumption | repeat constructor; intros [] | ].
      intros x Hin [<-|[]]. now apply get_none_not_in in G.
Qed.

Lemma has_true m k : has m k = true <-> exists v, get m k = Some v.
Proof.
    unfold has. destruct (get m k); simpl; split; intros H;
      eauto; try discriminate. now destruct H.
Qed.

Lemma has_false m k : has m k = false <-> get m k = None.
Proof. unfold has. destruct (get m k); simpl; split; congruence. Qed.
End Facts.
End JSMapFacts.

(* ================================================================== *)
(** * The empty compilation, version detection, derived addresses *)
(* ================================================================== *)

(** C9. [Message.compile] on an empty instruction list and a fee payer [P]
    returns a message: its account keys are exactly [[P]], its header is
    {numRequiredSignatures 1, numReadonlySignedAccounts 0,
    numReadonlyUnsignedAccounts 0} and it has no compiled instruction. *)
Theorem Message_compile_no_instructions (P : PublicKey) (blockhash : Blockhash) :
  Message_compile
    {| cl_instructions := []; cl_payerKey := P; cl_recentBlockhash := blockhash |}
  = Ok {| header := {| numReadonlySignedAccounts := 0;
                       numReadonlyUnsignedAccounts := 0;
                       numRequiredSignatures := 1 |};
          accountKeys := [P];
          recentBlockhash := blockhash;
          instructions := [] |}.
Proof. reflexivity. Qed.

(** C5, at the byte 0x81: bit 7 is set and bits 0-6 hold 1, yet the message
    is classified as legacy, not as version 1. *)
Lemma deserializeMessageVersion_0x81 :
  Byte.to_nat x81 = 128 + 1
  /\ deserializeMessageVersion [x81] <> VersionNumber 1
  /\ deserializeMessageVersion [x81] = VersionLegacy.
Proof. repeat split. discriminate. Qed.

(** C5, amended.  The first byte 0x80 is classified as versioned, with the
    version 0 of its bits 0-6; every first byte with bit 7 clear (0x00-0x7F)
    is classified as legacy; every first byte from 0x81 to 0xFF is classified
    as legacy too. *)
Theorem deserializeMessageVersion_spec (b : byte) (rest : bytes) :
  (Byte.to_nat b = 128 -> deserializeMessageVersion (b :: rest) = VersionNumber 0)
  /\ (Byte.to_nat b < 128 -> deserializeMessageVersion (b :: rest) = VersionLegacy)
  /\ (128 < Byte.to_nat b -> deserializeMessageVersion (b :: rest) = VersionLegacy).
Proof.
  repeat split; intros H; destruct b; try reflexivity;
    vm_compute in H; try discriminate; exfalso; lia.
Qed.

(** The three cases at the first bytes 0x80, 0x01 and 0xFF. *)
Lemma deserializeMessageVersion_spec_witness :
  deserializeMessageVersion [x80; x01; x00; x00] = VersionNumber 0
  /\ deserializeMessageVersion [x01; x00; x01] = VersionLegacy
  /\ deserializeMessageVersion [xff] = VersionLegacy.
Proof.
  split; [|split].
  - apply (proj1 (deserializeMessageVersion_spec x80 [x01; x00; x00])). reflexivity.
  - apply (proj1 (proj2 (deserializeMessageVersion_spec x01 [x00; x01]))).
    apply Nat.ltb_lt. reflexivity.
  - apply (proj2 (proj2 (deserializeMessageVersion_spec xff []))).
    apply Nat.ltb_lt. reflexivity.
Defined.

Lemma collectSeedBytes_ok (seeds : list Seed) (acc : bytes) :
  Forall (fun s => length (seedToBytes s) <= MAX_SEED_LENGTH) seeds ->
  collectSeedBytes seeds acc = Ok (acc ++ concat (map seedToBytes seeds)).
Proof.
  revert acc. induction seeds as [|s seeds IH]; intros acc H; simpl.
  - now rewrite app_nil_r.
  - inversion H as [|? ? Hs Hrest]; subst.
    apply Nat.ltb_ge in Hs. rewrite Hs, IH by assumption. now rewrite <- app_assoc.
Qed.

Lemma collectSeedBytes_too_long (seeds : list Seed) (acc : bytes) :
  Exists (fun s => MAX_SEED_LENGTH < length (seedToBytes s)) seeds ->
  exists len, MAX_SEED_LENGTH < len
              /\ collectSeedBytes seeds acc = Err (MaxSeedLengthExceeded len).
Proof.
  revert acc. induction seeds as [|s seeds IH]; intros acc H; simpl.
  - inversion H.
  - destruct (MAX_SEED_LENGTH <? length (seedToBytes s)) eqn:E.
    + apply Nat.ltb_lt in E. eauto.
    + apply Nat.ltb_ge in E. inversion H as [? ? Hs|? ? Hrest]; subst.
      * lia.
      * now apply IH.
Qed.

(** C7. [createProgramAddress] fails on more than 16 seeds and on any seed
    longer than 32 bytes; otherwise it digests the seed bytes, then the
    program address bytes, then the 21 bytes of the text
    "ProgramDerivedAddress", fails with InvalidSeeds when the digest is not
    off the curve and returns the digest as the address when it is. *)
Theorem createProgramAddress_spec
    (sha256 : bytes -> bytes) (isOffCurveAddress : Address -> bool)
    (seeds : list Seed) (programId : PublicKey) :
  (16 < length seeds ->
     createProgramAddress sha256 isOffCurveAddress seeds programId
     = Err (MaxSeedCountExceeded (length seeds)))
  /\ (Exists (fun s => 32 < length (seedToBytes s)) seeds ->
      exists e, createProgramAddress sha256 isOffCurveAddress seeds programId = Err e)
  /\ (length seeds <= 16 ->
      Forall (fun s => length (seedToBytes s) <= 32) seeds ->
      let digest :=
        sha256 (concat (map seedToBytes seeds) ++ toBytes programId
                  ++ list_byte_of_string "ProgramDerivedAddress") in
      createProgramAddress sha256 isOffCurveAddress seeds programId
      = if isOffCurveAddress digest then Ok digest else Err InvalidSeeds)
  /\ length PDA_MARKER_BYTES = 21.
Proof.
  unfold createProgramAddress. repeat split.
  - intros H. apply Nat.ltb_lt in H. unfold MAX_SEEDS. now rewrite H.
  - intros H. destruct (MAX_SEEDS <? length seeds); [eauto|].
    destruct (collectSeedBytes_too_long seeds [] H) as (len & _ & ->). simpl. eauto.
  - intros Hn Hall. apply Nat.ltb_ge in Hn. unfold MAX_SEEDS. rewrite Hn.
    rewrite collectSeedBytes_ok by assumption. simpl.
    change (list_byte_of_string "ProgramDerivedAddress") with PDA_MARKER_BYTES.
    now destruct (isOffCurveAddress _).
Qed.

(** Seventeen seeds, a seed of 33 bytes, and an accepted derivation, over the toy provider. *)
Lemma createProgramAddress_spec_witness :
  createProgramAddress Sample.digest Sample.offCurve
    (repeat (SeedBytes [x01]) 17) Sample.Q
  = Err (MaxSeedCountExceeded 17)
  /\ (exists e,
        createProgramAddress Sample.digest Sample.offCurve
          [SeedText "a"; SeedBytes (repeat x01 33)] Sample.Q = Err e)
  /\ createProgramAddress Sample.digest Sample.offCurve
       [SeedText "seed"; SeedBytes [xff]] Sample.Q
     = Ok (Sample.digest
             (list_byte_of_string "seed" ++ [xff] ++ Sample.Q
                ++ list_byte_of_string "ProgramDerivedAddress")).
Proof.
  split; [|split].
  - apply (createProgramAddress_spec Sample.digest Sample.offCurve
             (repeat (SeedBytes [x01]) 17) Sample.Q). simpl. lia.
  - apply (createProgramAddress_spec Sample.digest Sample.offCurve
             [SeedText "a"; SeedBytes (repeat x01 33)] Sample.Q).
    apply Exists_cons_tl, Exists_cons_hd. simpl. lia.
  - apply (createProgramAddress_spec Sample.digest Sample.offCurve
             [SeedText "seed"; SeedBytes [xff]] Sample.Q).
    + simpl. lia.
    + repeat constructor; simpl; lia.
Defined.

(* ================================================================== *)
(** * Signature slots *)
(* ================================================================== *)

Lemma findIndex_some {A} (p : A -> bool) (l : list A) (i : nat) :
  findIndex p l = Some i -> exists x, nth_error l i = Some x /\ p x = true.
Proof.
  revert i. induction l as [|x l IH]; intros i; simpl; [discriminate|].
  destruct (p x) eqn:Hp.
  - intros H. injection H as <-. simpl. eauto.
  - destruct (findIndex p l) as [j|]; simpl; [|discriminate].
    intros H. injection H as <-. simpl. now apply IH.
Qed.

Lemma findIndex_none {A} (p : A -> bool) (l : list A) :
  findIndex p l = None <-> Forall (fun x => p x = false) l.
Proof.
  induction l as [|x l IH]; simpl.
  - split; [constructor | reflexivity].
  - destruct (p x) eqn:Hp.
    + split; [discriminate|]. intros H. inversion H; congruence.
    + destruct (findIndex p l); simpl.
      * split; [discriminate|]. intros H. inversion H; subst.
        now apply IH in H3.
      * split; [|reflexivity]. intros _. constructor; [assumption | now apply IH].
Qed.

Lemma nth_error_in_firstn {A} (l : list A) (i n : nat) (x : A) :
  nth_error l i = Some x -> i < n -> In x (firstn n l).
Proof.
  intros H Hlt. apply nth_error_In with (n := i).
  now rewrite nth_error_firstn, (proj2 (Nat.ltb_lt i n) Hlt).
Qed.

Lemma hasEmptySlot_fails_verification
    (verify : bytes -> bytes -> bytes -> bool) (message : bytes)
    (slots : list SignaturePubkeyPair) :
  hasEmptySlot slots = true -> verifySlots verify message true slots = false.
Proof.
  induction slots as [|slot slots IH]; simpl; [discriminate|].
  destruct (sp_signature slot); simpl; [|reflexivity].
  intros H. destruct (verify _ _ _); simpl; [now apply IH | reflexivity].
Qed.

Lemma verifySlots_all_no_empty
    (verify : bytes -> bytes -> bytes -> bool) (message : bytes)
    (slots : list SignaturePubkeyPair) :
  verifySlots verify message true slots = true -> hasEmptySlot slots = false.
Proof.
  intros H. destruct (hasEmptySlot slots) eqn:E; [|reflexivity].
  rewrite (hasEmptySlot_fails_verification verify message _ E) in H. discriminate.
Qed.

(** C10, on a versioned transaction built with two signatures over a message
    that requires one: the second static account is no signer account of the
    message, and [addSignature] accepts it. *)
Lemma VersionedTransaction_addSignature_beyond_signers :
  ~ In Sample.Q (staticSigners (vt_message Sample.twoSlots))
  /\ VersionedTransaction_addSignature Sample.twoSlots Sample.Q (repeat x01 64)
     = Ok {| vt_signatures := [repeat x00 64; repeat x01 64];
             vt_message := vt_message Sample.twoSlots |}.
Proof.
  split; [|reflexivity].
  simpl. intros [H|[]]. discriminate H.
Qed.

(** C10, amended.  The legacy [addSignature] never fails, and for a public
    key that matches no slot it appends a slot holding that key and the
    signature.  The versioned [addSignature] raises Unknown signer for every
    public key that is not among the static account keys at a position below
    the number of signature slots; where the transaction has one slot per
    required signature, that is every public key not among the static signer
    accounts of the message. *)
Theorem addSignature_legacy_appends_versioned_rejects :
  (forall tx pk sig,
      exists tx', Transaction_addSignature tx pk sig = Ok tx'
                  /\ (~ In pk (map sp_publicKey (signatures tx)) ->
                      signatures tx'
                      = signatures tx
                          ++ [{| sp_publicKey := pk; sp_signature := Some sig |}]))
  /\ (forall vt pk sig,
         ~ In pk (firstn (length (vt_signatures vt))
                    (vm_staticAccountKeys (vt_message vt))) ->
         VersionedTransaction_addSignature vt pk sig = Err (UnknownSigner pk))
  /\ (forall vt pk sig,
         length (vt_signatures vt) = numRequiredSignatures (vm_header (vt_message vt)) ->
         ~ In pk (staticSigners (vt_message vt)) ->
         VersionedTransaction_addSignature vt pk sig = Err (UnknownSigner pk)).
Proof.
  assert (Hv : forall vt pk sig,
             ~ In pk (firstn (length (vt_signatures vt))
                        (vm_staticAccountKeys (vt_message vt))) ->
             VersionedTransaction_addSignature vt pk sig = Err (UnknownSigner pk)).
  { intros vt pk sig Hnot. unfold VersionedTransaction_addSignature.
    destruct (findIndex _ _) as [i|] eqn:F; [|reflexivity].
    destruct (length (vt_signatures vt) <=? i) eqn:L; [reflexivity|].
    apply Nat.leb_gt in L. apply findIndex_some in F as (x & Hx & Heq).
    apply bytes_eqb_eq in Heq. unfold toAddress in Heq. subst x.
    exfalso. apply Hnot. eapply nth_error_in_firstn; eassumption. }
  split; [|split].
  - intros tx pk sig. unfold Transaction_addSignature.
    destruct (findIndex _ _) as [i|] eqn:F.
    + eexists. split; [reflexivity|]. intros Hnot. exfalso.
      apply findIndex_some in F as (x & Hx & Heq). apply bytes_eqb_eq in Heq.
      apply Hnot. unfold toAddress in Heq. rewrite <- Heq.
      apply in_map. eapply nth_error_In; eassumption.
    + eexists. split; reflexivity.
  - exact Hv.
  - intros vt pk sig Hlen Hnot. apply Hv. now rewrite Hlen.
Qed.

(** A legacy transaction growing by one slot, and two versioned transactions rejecting a key. *)
Lemma addSignature_legacy_appends_versioned_rejects_witness :
  (exists tx',
      Transaction_addSignature (Sample.tx None) Sample.Q (repeat x01 64) = Ok tx'
      /\ signatures tx'
         = [{| sp_publicKey := Sample.P; sp_signature := None |};
            {| sp_publicKey := Sample.Q; sp_signature := Some (repeat x01 64) |}])
  /\ VersionedTransaction_addSignature Sample.twoSlots Sample.X (repeat x01 64)
     = Err (UnknownSigner Sample.X)
  /\ VersionedTransaction_addSignature
       (newVersionedTransaction (vt_message Sample.twoSlots) None)
       Sample.Q (repeat x01 64)
     = Err (UnknownSigner Sample.Q).
Proof.
  destruct addSignature_legacy_appends_versioned_rejects as (HL & HV & HS).
  split; [|split].
  - destruct (HL (Sample.tx None) Sample.Q (repeat x01 64)) as (tx' & E & Happ).
    exists tx'. split; [exact E|]. apply Happ.
    simpl. intros [H|[]]. discriminate H.
  - apply HV. simpl. intros [H|[H|[]]]; discriminate H.
  - apply HS; [reflexivity|]. simpl. intros [H|[]]. discriminate H.
Defined.

(** C8, on a transaction whose only slot is empty, serialised with the
    default configuration: the failure is the verification failure, not the
    missing-signature error. *)
Lemma Transaction_serialize_empty_slot_default :
  hasEmptySlot (signatures (Sample.tx None)) = true
  /\ Transaction_serialize Sample.verifyAll (Sample.tx None) None
     = Err SignatureVerificationFailed
  /\ Transaction_serialize Sample.verifyAll (Sample.tx None) None
     <> Err MissingSignature.
Proof.
  assert (E : Transaction_serialize Sample.verifyAll (Sample.tx None) None
              = Err SignatureVerificationFailed) by (vm_compute; reflexivity).
  split; [reflexivity|]. split; [exact E|]. rewrite E. discriminate.
Qed.

(** C8, amended.  With the default configuration [serialize] produces wire
    bytes only if [verifySignatures(true)] holds (so no slot is empty).  When
    a slot is empty and completeness was not waived it fails: the message
    being serialisable, with the verification failure while verification is
    on (the default), and with MissingSignature once verification was
    waived. *)
Theorem Transaction_serialize_requirements
    (verify : bytes -> bytes -> bytes -> bool) (tx : Transaction) :
  (forall out,
      Transaction_serialize verify tx None = Ok out ->
      verifySignatures verify tx true = Ok true
      /\ hasEmptySlot (signatures tx) = false)
  /\ (forall config,
         hasEmptySlot (signatures tx) = true ->
         requireAllOf config = true ->
         exists e,
           Transaction_serialize verify tx config = Err e
           /\ (forall message,
                  serializeMessage tx = Ok message ->
                  e = if shouldVerifyOf config then SignatureVerificationFailed
                      else MissingSignature)).
Proof.
  split.
  - intros out. unfold Transaction_serialize, verifySignatures.
    change (requireAllOf None) with true. change (shouldVerifyOf None) with true.
    destruct (serializeMessage tx) as [message|e]; simpl; [|discriminate].
    destruct (verifySlots verify message true (signatures tx)) eqn:V; simpl;
      [|discriminate].
    intros _. split; [reflexivity|]. eapply verifySlots_all_no_empty; eassumption.
  - intros config Hempty Hreq. unfold Transaction_serialize, verifySignatures.
    rewrite Hreq.
    destruct (serializeMessage tx) as [message|e]; simpl.
    + destruct (shouldVerifyOf config); simpl.
      * rewrite hasEmptySlot_fails_verification by assumption. simpl.
        eexists. split; [reflexivity|]. reflexivity.
      * rewrite Hempty. eexists. split; reflexivity.
    + exists e. split; [reflexivity|]. discriminate.
Qed.

(** A filled slot that serialises, and an empty slot with verification waived. *)
Lemma Transaction_serialize_requirements_witness :
  (verifySignatures Sample.verifyAll (Sample.tx (Some (repeat x01 64))) true = Ok true
   /\ hasEmptySlot (signatures (Sample.tx (Some (repeat x01 64)))) = false)
  /\ (exists e,
        Transaction_serialize Sample.verifyAll (Sample.tx None)
          (Some {| cfg_requireAllSignatures := None;
                   cfg_verifySignatures := Some false |}) = Err e
        /\ e = MissingSignature).
Proof.
  split.
  - destruct (Transaction_serialize Sample.verifyAll
                (Sample.tx (Some (repeat x01 64))) None) as [out|e] eqn:E.
    + exact (proj1 (Transaction_serialize_requirements Sample.verifyAll
                      (Sample.tx (Some (repeat x01 64)))) out E).
    + vm_compute in E. discriminate E.
  - destruct (proj2 (Transaction_serialize_requirements Sample.verifyAll
                       (Sample.tx None))
                (Some {| cfg_requireAllSignatures := None;
                         cfg_verifySignatures := Some false |})
                eq_refl eq_refl) as (e & He & Hkind).
    exists e. split; [exact He|].
    destruct (serializeMessage (Sample.tx None)) as [message|e'] eqn:S.
    + exact (Hkind message eq_refl).
    + vm_compute in S. discriminate S.
Defined.

(* ================================================================== *)
(** * The four buckets *)
(* ================================================================== *)

Lemma filter_length_perm {A} (p : A -> bool) (l l' : list A) :
  Permutation l l' -> length (filter p l) = length (filter p l').
Proof.
  induction 1 as [|x l l' _ IH|x y l|l l' l'' _ IH1 _ IH2]; simpl.
  - reflexivity.
  - destruct (p x); simpl; congruence.
  - destruct (p x), (p y); reflexivity.
  - congruence.
Qed.

Section OrderingFacts.
Variable A : Type.
Variables (sg wr : A -> bool) (key : A -> Address).
Variable roleOf : Address -> option Role.

Lemma orderAccounts_perm (l : list A) : Permutation (orderAccounts sg wr l) l.
Proof.
    unfold orderAccounts, writableSignersOf, readonlySignersOf,
      writableNonSignersOf, readonlyNonSignersOf.
    induction l as [|a l IH]; simpl; [constructor|].
    destruct (sg a), (wr a); simpl.
    - now constructor.
    - symmetry. apply Permutation_cons_app. now symmetry.
    - symmetry. rewrite app_assoc. apply Permutation_cons_app.
      rewrite <- app_assoc. now symmetry.
    - symmetry. rewrite 2 app_assoc. apply Permutation_cons_app.
      rewrite <- 2 app_assoc. now symmetry.
Qed.

Lemma orderAccounts_in (l : list A) (a : A) : In a (orderAccounts sg wr l) <-> In a l.
Proof.
    split; apply Permutation_in; [|symmetry]; apply orderAccounts_perm.
Qed.

Lemma orderAccounts_head (a : A) (l : list A) :
    sg a = true -> wr a = true ->
    exists rest, orderAccounts sg wr (a :: l) = a :: rest.
Proof.
    intros Hs Hw. unfold orderAccounts, writableSignersOf. simpl.
    rewrite Hs, Hw. simpl. eauto.
Qed.

Variable accounts : list A.
Hypothesis role_ok : forall a, In a accounts -> roleOf (key a) = Some (roleOfFlags sg wr a).

Lemma countRole_accounts (p : Role -> bool) (l : list A) :
    (forall a, In a l -> In a accounts) ->
    countRole roleOf p (map key l) = length (filter (fun a => p (roleOfFlags sg wr a)) l).
Proof.
    unfold countRole. induction l as [|a l IH]; intros Hsub; simpl; [reflexivity|].
    rewrite (role_ok a) by (apply Hsub; now left).
    destruct (p (roleOfFlags sg wr a)); simpl; rewrite IH; auto; intros; apply Hsub; now right.
Qed.

Lemma countRole_ordered (p : Role -> bool) :
    countRole roleOf p (map key (orderAccounts sg wr accounts))
    = length (filter (fun a => p (roleOfFlags sg wr a)) accounts).
Proof.
    rewrite countRole_accounts by (intros a; apply orderAccounts_in).
    apply filter_length_perm, orderAccounts_perm.
Qed.

Lemma buildHeader_counts :
    let keys := map key (orderAccounts sg wr accounts) in
    let h := buildHeader sg wr accounts in
    numRequiredSignatures h = countRole roleOf isWS keys + countRole roleOf isRS keys
    /\ numReadonlySignedAccounts h = countRole roleOf isRS keys
    /\ numReadonlyUnsignedAccounts h = countRole roleOf isRN keys.
Proof.
    cbv zeta. rewrite !countRole_ordered. repeat split.
Qed.

Lemma filter_role_forall (p : A -> bool) (r : Role) :
    (forall a, p a = true -> roleOfFlags sg wr a = r) ->
    Forall (fun k => roleOf k = Some r) (map key (filter p accounts)).
Proof.
    intros Hp. apply Forall_forall. intros k Hk.
    apply in_map_iff in Hk as (a & <- & Ha). apply filter_In in Ha as [Ha Hpa].
    rewrite (role_ok a Ha). f_equal. now apply Hp.
Qed.

Lemma orderAccounts_fourBuckets :
    fourBuckets roleOf (map key (orderAccounts sg wr accounts)).
Proof.
    exists (map key (writableSignersOf sg wr accounts)),
           (map key (readonlySignersOf sg wr accounts)),
           (map key (writableNonSignersOf sg wr accounts)),
           (map key (readonlyNonSignersOf sg wr accounts)).
    split; [unfold orderAccounts; now rewrite !map_app|].
    repeat split; apply filter_role_forall; intros a H; unfold roleOfFlags;
      destruct (sg a), (wr a); simpl in H; try discriminate; reflexivity.
Qed.
End OrderingFacts.

Section Ascending.
Variable roleOf : Address -> option Role.

Lemma ascends_const (c : nat) (l : list Address) :
    Forall (fun a => bucketRank roleOf a = c) l -> ranksAscend roleOf l.
Proof.
    intros H i j a b _ Ha Hb. rewrite Forall_forall in H.
    rewrite (H a), (H b); eauto using nth_error_In.
Qed.

Lemma ascends_app (l1 l2 : list Address) :
    ranksAscend roleOf l1 -> ranksAscend roleOf l2 ->
    (forall a b, In a l1 -> In b l2 -> bucketRank roleOf a <= bucketRank roleOf b) ->
    ranksAscend roleOf (l1 ++ l2).
Proof.
    intros H1 H2 H12 i j a b Hij Ha Hb.
    destruct (Nat.lt_ge_cases j (length l1)) as [Hj|Hj].
    - rewrite nth_error_app1 in Ha, Hb by lia. eauto.
    - rewrite nth_error_app2 in Hb by lia.
      destruct (Nat.lt_ge_cases i (length l1)) as [Hi|Hi].
      + rewrite nth_error_app1 in Ha by lia. eauto using nth_error_In.
      + rewrite nth_error_app2 in Ha by lia.
        apply (H2 (i - length l1) (j - length l1)); auto. lia.
Qed.

Lemma fourBuckets_ascend (keys : list Address) :
    fourBuckets roleOf keys -> bucketsAscend roleOf keys.
Proof.
    intros (ws & rs & wn & rn & -> & Hws & Hrs & Hwn & Hrn).
    assert (Rws : Forall (fun a => bucketRank roleOf a = 0) ws)
      by (eapply Forall_impl; [|exact Hws]; intros a H; unfold bucketRank; now rewrite H).
    assert (Rrs : Forall (fun a => bucketRank roleOf a = 1) rs)
      by (eapply Forall_impl; [|exact Hrs]; intros a H; unfold bucketRank; now rewrite H).
    assert (Rwn : Forall (fun a => bucketRank roleOf a = 2) wn)
      by (eapply Forall_impl; [|exact Hwn]; intros a H; unfold bucketRank; now rewrite H).
    assert (Rrn : Forall (fun a => bucketRank roleOf a = 3) rn)
      by (eapply Forall_impl; [|exact Hrn]; intros a H; unfold bucketRank; now rewrite H).
    assert (Hasc : ranksAscend roleOf (ws ++ rs ++ wn ++ rn)).
    { rewrite Forall_forall in Rws, Rrs, Rwn, Rrn.
      repeat apply ascends_app;
        try (eapply ascends_const; apply Forall_forall; eassumption);
        intros a b Ha Hb; repeat (apply in_app_or in Hb as [Hb|Hb]);
        repeat match goal with
               | H : forall x, In x ?l -> _, H' : In ?y ?l |- _ =>
                   rewrite (H y H'); clear H'
               end; lia. }
    assert (Hall : Forall (fun a => exists r, roleOf a = Some r) (ws ++ rs ++ wn ++ rn)).
    { assert (Hex : forall r l, Forall (fun a => roleOf a = Some r) l ->
                                Forall (fun a => exists r, roleOf a = Some r) l)
        by (intros r l H; eapply Forall_impl; [|exact H]; intros a Ha; exists r; exact Ha).
      repeat (apply Forall_app; split); eapply Hex; eassumption. }
    rewrite Forall_forall in Hall.
    intros i j a b Hij Ha Hb.
    destruct (Hall a (nth_error_In _ _ Ha)) as [ra Hra].
    destruct (Hall b (nth_error_In _ _ Hb)) as [rb Hrb].
    exists ra, rb. repeat split; auto.
    specialize (Hasc i j a b Hij Ha Hb). unfold bucketRank in Hasc.
    now rewrite Hra, Hrb in Hasc.
Qed.
End Ascending.

(* ================================================================== *)
(** * Invariants of the account maps *)
(* ================================================================== *)

Lemma JSMap_forall_set (V : Type) (P : Address * V -> Prop) (m : JSMap.t V) (k : Address) (v : V) :
  Forall P m -> P (k, v) -> Forall P (JSMap.set m k v).
Proof.
  intros Hm Hkv. induction m as [|[k0 v0] m IH]; simpl.
  - now constructor.
  - inversion Hm; subst. eqb_cases k0 k.
    + subst. now constructor.
    + constructor; auto.
Qed.

Lemma JSMap_hd_set (V : Type) (m : JSMap.t V) (k : Address) (v : V) :
  hd_error (JSMap.set m k v)
  = match hd_error m with
    | None => Some (k, v)
    | Some (k0, v0) => if bytes_eqb k0 k then Some (k0, v) else Some (k0, v0)
    end.
Proof.
  destruct m as [|[k0 v0] m]; simpl; [reflexivity|].
  now destruct (bytes_eqb k0 k).
Qed.

Lemma JSMap_hd_get (V : Type) (m : JSMap.t V) (k : Address) (v : V) :
  hd_error m = Some (k, v) -> JSMap.get m k = Some v.
Proof.
  destruct m as [|[k0 v0] m]; simpl; [discriminate|].
  intros H. injection H as -> ->. now rewrite bytes_eqb_refl.
Qed.

Lemma JSMap_in_values_get (V : Type) (key : V -> Address) (m : JSMap.t V) (v : V) :
  NoDup (JSMap.keys m) ->
  Forall (fun kv => key (snd kv) = fst kv) m ->
  In v (JSMap.values m) ->
  JSMap.get m (key v) = Some v.
Proof.
  intros Hnd Hkey Hin. apply in_map_iff in Hin as ([k v'] & Hv & Hin).
  simpl in Hv. subst v'. rewrite Forall_forall in Hkey.
  specialize (Hkey _ Hin). simpl in Hkey. rewrite Hkey.
  now apply JSMapFacts.in_get.
Qed.

Lemma JSMap_get_key (V : Type) (key : V -> Address) (m : JSMap.t V) (k : Address) (v : V) :
  Forall (fun kv => key (snd kv) = fst kv) m ->
  JSMap.get m k = Some v -> key v = k.
Proof.
  intros Hkey Hget. apply JSMapFacts.get_some_in in Hget.
  rewrite Forall_forall in Hkey. exact (Hkey _ Hget).
Qed.

Section LegacyInvariant.
Variable payerKey : PublicKey.

Lemma legacyMapInv_init :
  legacyMapInv payerKey
    (JSMap.set (JSMap.empty _) (toBase58 payerKey)
       {| le_isSigner := true; le_isWritable := true; le_pubkey := payerKey |}).
Proof.
  repeat split; simpl.
  - repeat constructor. intros [].
  - repeat constructor.
  - eauto.
Qed.

Lemma legacyMapInv_set (m : JSMap.t LegacyEntry) (e : LegacyEntry) :
  legacyMapInv payerKey m ->
  (forall old, JSMap.get m (toBase58 (le_pubkey e)) = Some old ->
     le_isSigner old = true -> le_isWritable old = true ->
     le_isSigner e = true /\ le_isWritable e = true) ->
  legacyMapInv payerKey (JSMap.set m (toBase58 (le_pubkey e)) e).
Proof.
  intros (Hnd & Hkey & e0 & Hhd & Hs & Hw) Hflags. repeat split.
  - now apply JSMapFacts.nodup_set.
  - now apply JSMap_forall_set.
  - rewrite JSMap_hd_set, Hhd.
    eqb_cases (toBase58 payerKey) (toBase58 (le_pubkey e)).
    + exists e. split; [reflexivity|]. apply (Hflags e0); auto.
      rewrite <- E. now apply JSMap_hd_get.
    + exists e0. auto.
Qed.

Lemma legacyAddProgram_inv (m : JSMap.t LegacyEntry) (programId : PublicKey) :
  legacyMapInv payerKey m -> legacyMapInv payerKey (legacyAddProgram m programId).
Proof.
  intros Hinv. unfold legacyAddProgram.
  destruct (JSMap.has m (toBase58 programId)) eqn:Hhas; [assumption|].
  apply JSMapFacts.has_false in Hhas.
  apply (legacyMapInv_set m
           {| le_isSigner := false; le_isWritable := false; le_pubkey := programId |} Hinv).
  simpl. intros old Hold. congruence.
Qed.

Lemma legacyAddMeta_inv (m : JSMap.t LegacyEntry) (meta : AccountMeta) :
  legacyMapInv payerKey m -> legacyMapInv payerKey (legacyAddMeta m meta).
Proof.
  intros Hinv. unfold legacyAddMeta.
  destruct (JSMap.get m (toBase58 (meta_pubkey meta))) as [existing|] eqn:G.
  - assert (Hk : toBase58 (le_pubkey existing) = toBase58 (meta_pubkey meta))
      by (eapply (JSMap_get_key _ (fun e => toBase58 (le_pubkey e)));
          [apply Hinv | exact G]).
    rewrite <- Hk.
    apply (legacyMapInv_set m
             {| le_isSigner := le_isSigner existing || meta_isSigner meta;
                le_isWritable := le_isWritable existing || meta_isWritable meta;
                le_pubkey := le_pubkey existing |} Hinv).
    simpl. intros old Hold Hs Hw. rewrite Hk, G in Hold. injection Hold as ->.
    now rewrite Hs, Hw.
  - apply (legacyMapInv_set m
             {| le_isSigner := meta_isSigner meta;
                le_isWritable := meta_isWritable meta;
                le_pubkey := meta_pubkey meta |} Hinv).
    simpl. intros old Hold. congruence.
Qed.

Lemma legacyAccountMap_inv (ixs : list TransactionInstruction) :
  legacyMapInv payerKey (legacyAccountMap payerKey ixs).
Proof.
  unfold legacyAccountMap. generalize legacyMapInv_init.
  generalize (JSMap.set (JSMap.empty LegacyEntry) (toBase58 payerKey)
                {| le_isSigner := true; le_isWritable := true; le_pubkey := payerKey |}).
  induction ixs as [|ix ixs IH]; intros m Hinv; simpl; [assumption|].
  apply IH. unfold legacyAddInstruction.
  generalize (legacyAddProgram_inv m (ix_programId ix) Hinv).
  generalize (legacyAddProgram m (ix_programId ix)).
  induction (ix_keys ix) as [|meta metas IHm]; intros m' Hinv'; simpl; [assumption|].
  apply IHm. now apply legacyAddMeta_inv.
Qed.
End LegacyInvariant.

Section V0Invariant.
Variable lookupMap : JSMap.t LookupInfo.
Variable payerKey : PublicKey.

Lemma v0MapInv_init :
  v0MapInv payerKey
    (JSMap.set (JSMap.empty _) (toBase58 payerKey)
       {| fromLookup := None; isSigner := true; isWritable := true;
          pubkey := payerKey |}).
Proof.
  repeat split; simpl.
  - repeat constructor. intros [].
  - repeat constructor.
  - eexists. repeat split.
Qed.

Lemma v0MapInv_set (m : JSMap.t AccountEntry) (e : AccountEntry) :
  v0MapInv payerKey m ->
  (forall old, JSMap.get m (toBase58 (pubkey e)) = Some old ->
     isSigner old = true -> isWritable old = true -> fromLookup old = None ->
     isSigner e = true /\ isWritable e = true /\ fromLookup e = None) ->
  v0MapInv payerKey (JSMap.set m (toBase58 (pubkey e)) e).
Proof.
  intros (Hnd & Hkey & e0 & Hhd & Hs & Hw & Hf) Hflags. repeat split.
  - now apply JSMapFacts.nodup_set.
  - now apply JSMap_forall_set.
  - rewrite JSMap_hd_set, Hhd.
    eqb_cases (toBase58 payerKey) (toBase58 (pubkey e)).
    + exists e. split; [reflexivity|]. apply (Hflags e0); auto.
      rewrite <- E. now apply JSMap_hd_get.
    + exists e0. auto.
Qed.

Lemma v0AddProgram_inv (m : JSMap.t AccountEntry) (programId : PublicKey) :
  v0MapInv payerKey m -> v0MapInv payerKey (v0AddProgram m programId).
Proof.
  intros Hinv. unfold v0AddProgram.
  destruct (JSMap.has m (toBase58 programId)) eqn:Hhas; [assumption|].
  apply JSMapFacts.has_false in Hhas.
  apply (v0MapInv_set m
           {| fromLookup := None; isSigner := false; isWritable := false;
              pubkey := programId |} Hinv).
  simpl. intros old Hold. congruence.
Qed.

Lemma v0AddMeta_inv (m : JSMap.t AccountEntry) (meta : AccountMeta) :
  v0MapInv payerKey m -> v0MapInv payerKey (v0AddMeta lookupMap m meta).
Proof.
  intros Hinv. unfold v0AddMeta.
  destruct (JSMap.get m (toBase58 (meta_pubkey meta))) as [existing|] eqn:G.
  - assert (Hk : toBase58 (pubkey existing) = toBase58 (meta_pubkey meta))
      by (eapply (JSMap_get_key _ (fun e => toBase58 (pubkey e)));
          [apply Hinv | exact G]).
    rewrite <- Hk.
    apply (v0MapInv_set m
             {| fromLookup :=
                  if meta_isSigner meta && isSome (fromLookup existing) then None
                  else fromLookup existing;
                isSigner := isSigner existing || meta_isSigner meta;
                isWritable := isWritable existing || meta_isWritable meta;
                pubkey := pubkey existing |} Hinv).
    simpl. intros old Hold Hs Hw Hf. rewrite Hk, G in Hold. injection Hold as ->.
    rewrite Hs, Hw, Hf. simpl. now rewrite andb_false_r.
  - apply (v0MapInv_set m
             {| fromLookup :=
                  if negb (meta_isSigner meta)
                     && isSome (JSMap.get lookupMap (toBase58 (meta_pubkey meta)))
                  then JSMap.get lookupMap (toBase58 (meta_pubkey meta)) else None;
                isSigner := meta_isSigner meta;
                isWritable := meta_isWritable meta;
                pubkey := meta_pubkey meta |} Hinv).
    simpl. intros old Hold. congruence.
Qed.

Lemma v0AccountMap_inv (ixs : list TransactionInstruction) :
  v0MapInv payerKey (v0AccountMap lookupMap payerKey ixs).
Proof.
  unfold v0AccountMap. generalize v0MapInv_init.
  generalize (JSMap.set (JSMap.empty AccountEntry) (toBase58 payerKey)
                {| fromLookup := None; isSigner := true; isWritable := true;
                   pubkey := payerKey |}).
  induction ixs as [|ix ixs IH]; intros m Hinv; simpl; [assumption|].
  apply IH. unfold v0AddInstruction.
  generalize (v0AddProgram_inv m (ix_programId ix) Hinv).
  generalize (v0AddProgram m (ix_programId ix)).
  induction (ix_keys ix) as [|meta metas IHm]; intros m' Hinv'; simpl; [assumption|].
  apply IHm. now apply v0AddMeta_inv.
Qed.
End V0Invariant.

(* ================================================================== *)
(** * Static account ordering and the header *)
(* ================================================================== *)

Lemma Message_compile_ok (args : CompileLegacyArgs) (m : Message) :
  Message_compile args = Ok m ->
  m = Message_compile_normalized (cl_payerKey args) (cl_recentBlockhash args)
        (normalizedInstructions (cl_instructions args)).
Proof.
  unfold Message_compile, normalizedInstructions.
  destruct (mapM normalizeInstruction (cl_instructions args)); simpl; congruence.
Qed.

Lemma MessageV0_compile_ok (args : CompileV0Args) (m : MessageV0) :
  MessageV0_compile args = Ok m ->
  m = MessageV0_compile_normalized (tablesOf args) (cv_payerKey args)
        (cv_recentBlockhash args) (normalizedInstructions (cv_instructions args)).
Proof.
  unfold MessageV0_compile, normalizedInstructions, tablesOf.
  destruct (mapM normalizeInstruction (cv_instructions args)); simpl; congruence.
Qed.

Lemma legacyFinalRole_entry (args : CompileLegacyArgs) (e : LegacyEntry) :
  In e (JSMap.values (legacyFinalMap args)) ->
  legacyFinalRole args (toBase58 (le_pubkey e))
  = Some {| signer := le_isSigner e; writable := le_isWritable e |}.
Proof.
  intros Hin. unfold legacyFinalRole, legacyFinalMap in *.
  destruct (legacyAccountMap_inv (cl_payerKey args)
              (normalizedInstructions (cl_instructions args))) as (Hnd & Hkey & _).
  now rewrite (JSMap_in_values_get _ (fun e => toBase58 (le_pubkey e)) _ _ Hnd Hkey Hin).
Qed.

Lemma v0FinalRole_entry (args : CompileV0Args) (e : AccountEntry) :
  In e (JSMap.values (v0FinalMap args)) ->
  v0FinalRole args (toBase58 (pubkey e))
  = Some {| signer := isSigner e; writable := isWritable e |}.
Proof.
  intros Hin. unfold v0FinalRole, v0FinalMap in *.
  destruct (v0AccountMap_inv (buildLookupMap (tablesOf args)) (cv_payerKey args)
              (normalizedInstructions (cv_instructions args))) as (Hnd & Hkey & _).
  now rewrite (JSMap_in_values_get _ (fun e => toBase58 (pubkey e)) _ _ Hnd Hkey Hin).
Qed.

Lemma v0FinalRole_static (args : CompileV0Args) (e : AccountEntry) :
  In e (staticAccountsOf (JSMap.values (v0FinalMap args))) ->
  v0FinalRole args (toBase58 (pubkey e))
  = Some {| signer := isSigner e; writable := isWritable e |}.
Proof.
  intros Hin. apply filter_In in Hin as [Hin _]. now apply v0FinalRole_entry.
Qed.

(** C1. The static account list of a compiled message, legacy or versioned,
    is made of four contiguous buckets in the order writable signers,
    read-only signers, writable non-signers, read-only non-signers, by the
    final merged role of each address; no account of a later bucket stands
    before an account of an earlier one. *)
Theorem static_accounts_four_buckets :
  (forall args m,
      Message_compile args = Ok m ->
      fourBuckets (legacyFinalRole args) (accountKeys m)
      /\ bucketsAscend (legacyFinalRole args) (accountKeys m))
  /\ (forall args m,
         MessageV0_compile args = Ok m ->
         fourBuckets (v0FinalRole args) (staticAccountKeys m)
         /\ bucketsAscend (v0FinalRole args) (staticAccountKeys m)).
Proof.
  split; intros args m Hm.
  - apply Message_compile_ok in Hm. subst m.
    assert (H4 : fourBuckets (legacyFinalRole args)
                   (accountKeys
                      (Message_compile_normalized (cl_payerKey args)
                         (cl_recentBlockhash args)
                         (normalizedInstructions (cl_instructions args))))).
    { simpl.
      apply (orderAccounts_fourBuckets _ le_isSigner le_isWritable
               (fun e => toBase58 (le_pubkey e)) (legacyFinalRole args)).
      intros e He. now apply legacyFinalRole_entry. }
    split; [exact H4 | now apply fourBuckets_ascend].
  - apply MessageV0_compile_ok in Hm. subst m.
    assert (H4 : fourBuckets (v0FinalRole args)
                   (staticAccountKeys
                      (MessageV0_compile_normalized (tablesOf args) (cv_payerKey args)
                         (cv_recentBlockhash args)
                         (normalizedInstructions (cv_instructions args))))).
    { simpl.
      apply (orderAccounts_fourBuckets _ isSigner isWritable
               (fun e => toBase58 (pubkey e)) (v0FinalRole args)).
      intros e He. now apply v0FinalRole_static. }
    split; [exact H4 | now apply fourBuckets_ascend].
Qed.

(** The ordering of the samples [mixedLegacy] and [scenarioC]. *)
Lemma static_accounts_four_buckets_witness :
  (fourBuckets (legacyFinalRole SampleCompile.mixedLegacy)
     [Sample.P; SampleCompile.Y; SampleCompile.Z; Sample.X; Sample.Q]
   /\ bucketsAscend (legacyFinalRole SampleCompile.mixedLegacy)
        [Sample.P; SampleCompile.Y; SampleCompile.Z; Sample.X; Sample.Q])
  /\ (fourBuckets (v0FinalRole SampleCompile.scenarioC)
        [Sample.P; Sample.X; Sample.Q]
      /\ bucketsAscend (v0FinalRole SampleCompile.scenarioC)
           [Sample.P; Sample.X; Sample.Q]).
Proof.
  split.
  - exact (proj1 static_accounts_four_buckets SampleCompile.mixedLegacy _ eq_refl).
  - exact (proj2 static_accounts_four_buckets SampleCompile.scenarioC _ eq_refl).
Defined.

(** C2. In a compiled message, legacy or versioned, numRequiredSignatures is
    the number of static writable signers plus the number of static read-only
    signers, numReadonlySignedAccounts the number of static read-only signers,
    numReadonlyUnsignedAccounts the number of static read-only non-signers,
    and the fee payer stands at static index 0 with the final merged role
    signer and writable. *)
Theorem header_counts_and_fee_payer :
  (forall args m,
      Message_compile args = Ok m ->
      let roleOf := legacyFinalRole args in
      numRequiredSignatures (header m)
      = countRole roleOf isWS (accountKeys m) + countRole roleOf isRS (accountKeys m)
      /\ numReadonlySignedAccounts (header m) = countRole roleOf isRS (accountKeys m)
      /\ numReadonlyUnsignedAccounts (header m) = countRole roleOf isRN (accountKeys m)
      /\ nth_error (accountKeys m) 0 = Some (cl_payerKey args)
      /\ roleOf (cl_payerKey args) = Some WS)
  /\ (forall args m,
         MessageV0_compile args = Ok m ->
         let roleOf := v0FinalRole args in
         numRequiredSignatures (v0_header m)
         = countRole roleOf isWS (staticAccountKeys m)
           + countRole roleOf isRS (staticAccountKeys m)
         /\ numReadonlySignedAccounts (v0_header m)
            = countRole roleOf isRS (staticAccountKeys m)
         /\ numReadonlyUnsignedAccounts (v0_header m)
            = countRole roleOf isRN (staticAccountKeys m)
         /\ nth_error (staticAccountKeys m) 0 = Some (cv_payerKey args)
         /\ roleOf (cv_payerKey args) = Some WS).
Proof.
  split; intros args m Hm roleOf.
  - apply Message_compile_ok in Hm. subst m. simpl.
    destruct (buildHeader_counts _ le_isSigner le_isWritable
                (fun e => toBase58 (le_pubkey e)) roleOf
                (JSMap.values (legacyFinalMap args))
                (fun e He => legacyFinalRole_entry args e He)) as (H1 & H2 & H3).
    fold (legacyFinalMap args).
    split; [exact H1|]. split; [exact H2|]. split; [exact H3|]. split.
    + destruct (legacyAccountMap_inv (cl_payerKey args)
                  (normalizedInstructions (cl_instructions args)))
        as (Hnd & Hkey & e & Hhd & Hs & Hw).
      fold (legacyFinalMap args) in Hhd, Hkey.
      destruct (legacyFinalMap args) as [|[k0 e0] rest]; [discriminate|].
      simpl in Hhd. injection Hhd as -> ->. simpl.
      destruct (orderAccounts_head _ le_isSigner le_isWritable e
                  (JSMap.values rest) Hs Hw) as [tl ->].
      simpl. inversion Hkey as [|? ? Hk _]; subst. exact (f_equal Some Hk).
    + destruct (legacyAccountMap_inv (cl_payerKey args)
                  (normalizedInstructions (cl_instructions args)))
        as (_ & _ & e & Hhd & Hs & Hw).
      unfold roleOf, legacyFinalRole, legacyFinalMap. unfold toBase58 in Hhd.
      rewrite (JSMap_hd_get _ _ _ _ Hhd). simpl. now rewrite Hs, Hw.
  - apply MessageV0_compile_ok in Hm. subst m. simpl.
    fold (v0FinalMap args).
    destruct (buildHeader_counts _ isSigner isWritable
                (fun e => toBase58 (pubkey e)) roleOf
                (staticAccountsOf (JSMap.values (v0FinalMap args)))
                (fun e He => v0FinalRole_static args e He)) as (H1 & H2 & H3).
    split; [exact H1|]. split; [exact H2|]. split; [exact H3|]. split.
    + destruct (v0AccountMap_inv (buildLookupMap (tablesOf args)) (cv_payerKey args)
                  (normalizedInstructions (cv_instructions args)))
        as (Hnd & Hkey & e & Hhd & Hs & Hw & Hf).
      fold (v0FinalMap args) in Hhd, Hkey.
      destruct (v0FinalMap args) as [|[k0 e0] rest]; [discriminate|].
      simpl in Hhd. injection Hhd as -> ->. unfold staticAccountsOf. simpl.
      rewrite Hf. simpl.
      destruct (orderAccounts_head _ isSigner isWritable e
                  (filter (fun a => negb (isSome (fromLookup a))) (JSMap.values rest))
                  Hs Hw) as [tl ->].
      simpl. inversion Hkey as [|? ? Hk _]; subst. exact (f_equal Some Hk).
    + destruct (v0AccountMap_inv (buildLookupMap (tablesOf args)) (cv_payerKey args)
                  (normalizedInstructions (cv_instructions args)))
        as (_ & _ & e & Hhd & Hs & Hw & _).
      unfold roleOf, v0FinalRole, v0FinalMap. unfold toBase58 in Hhd.
      rewrite (JSMap_hd_get _ _ _ _ Hhd). simpl. now rewrite Hs, Hw.
Qed.

(** The header of the samples [mixedLegacy] and [scenarioB]. *)
Lemma header_counts_and_fee_payer_witness :
  (let roleOf := legacyFinalRole SampleCompile.mixedLegacy in
   let keys := [Sample.P; SampleCompile.Y; SampleCompile.Z; Sample.X; Sample.Q] in
   3 = countRole roleOf isWS keys + countRole roleOf isRS keys
   /\ 1 = countRole roleOf isRS keys
   /\ 1 = countRole roleOf isRN keys
   /\ nth_error keys 0 = Some Sample.P
   /\ roleOf Sample.P = Some WS)
  /\ (let roleOf := v0FinalRole SampleCompile.scenarioB in
      let keys := [Sample.P; Sample.Q] in
      1 = countRole roleOf isWS keys + countRole roleOf isRS keys
      /\ 0 = countRole roleOf isRS keys
      /\ 1 = countRole roleOf isRN keys
      /\ nth_error keys 0 = Some Sample.P
      /\ roleOf Sample.P = Some WS).
Proof.
  split.
  - exact (proj1 header_counts_and_fee_payer SampleCompile.mixedLegacy _ eq_refl).
  - exact (proj2 header_counts_and_fee_payer SampleCompile.scenarioB _ eq_refl).
Defined.

(* ================================================================== *)
(** * The account map, address by address *)
(* ================================================================== *)

Lemma fold_left_flat_map {A B C} (f : A -> C -> A) (g : B -> list C) (l : list B) (a : A) :
  fold_left f (flat_map g l) a = fold_left (fun a x => fold_left f (g x) a) l a.
Proof.
  revert a. induction l as [|x l IH]; intros a; simpl; [reflexivity|].
  now rewrite fold_left_app, IH.
Qed.

Lemma fold_left_map {A B C} (f : A -> C -> A) (h : B -> C) (l : list B) (a : A) :
  fold_left f (map h l) a = fold_left (fun a x => f a (h x)) l a.
Proof.
  revert a. induction l as [|x l IH]; intros a; simpl; [reflexivity|]. apply IH.
Qed.

Lemma v0AccountMap_encounters (lookupMap : JSMap.t LookupInfo) (payerKey : PublicKey)
    (ixs : list TransactionInstruction) :
  v0AccountMap lookupMap payerKey ixs
  = fold_left (v0Step lookupMap) (encounters ixs) (v0Initial payerKey).
Proof.
  unfold v0AccountMap, encounters. rewrite fold_left_flat_map.
  fold (v0Initial payerKey). generalize (v0Initial payerKey).
  induction ixs as [|ix ixs IH]; intros m; simpl; [reflexivity|].
  rewrite <- IH. f_equal. unfold v0AddInstruction.
  now rewrite fold_left_map.
Qed.

Section Merge.
Variable lookupMap : JSMap.t LookupInfo.
Variable payerKey : PublicKey.

Lemma firstEncounter_app (es : list Encounter) (x : Encounter) (a : Address) :
  firstEncounter (es ++ [x]) a
  = match firstEncounter es a with
    | Some e => Some e
    | None => if bytes_eqb (encounterKey x) a then Some x else None
    end.
Proof.
  unfold firstEncounter. induction es as [|e es IH]; simpl.
  - reflexivity.
  - destruct (bytes_eqb (encounterKey e) a); [reflexivity | exact IH].
Qed.

Lemma firstEncounter_none_flags (es : list Encounter) (a : Address) :
  firstEncounter es a = None -> anySigner es a = false /\ anyWritable es a = false.
Proof.
  unfold firstEncounter, anySigner, anyWritable.
  induction es as [|e es IH]; simpl; [auto|].
  destruct (bytes_eqb (encounterKey e) a) eqn:E; [discriminate|].
  intros H. destruct (IH H) as [-> ->].
  destruct e as [p|meta]; simpl in *; [auto|]. now rewrite E.
Qed.

Lemma anySigner_app (es : list Encounter) (x : Encounter) (a : Address) :
  anySigner (es ++ [x]) a
  = anySigner es a
    || match x with
       | AsMeta meta => bytes_eqb (meta_pubkey meta) a && meta_isSigner meta
       | AsProgram _ => false
       end.
Proof. unfold anySigner. rewrite existsb_app. simpl. now rewrite orb_false_r. Qed.

Lemma anyWritable_app (es : list Encounter) (x : Encounter) (a : Address) :
  anyWritable (es ++ [x]) a
  = anyWritable es a
    || match x with
       | AsMeta meta => bytes_eqb (meta_pubkey meta) a && meta_isWritable meta
       | AsProgram _ => false
       end.
Proof. unfold anyWritable. rewrite existsb_app. simpl. now rewrite orb_false_r. Qed.

Lemma mergedEntry_other (es : list Encounter) (x : Encounter) (a : Address) :
  encounterKey x <> a ->
  mergedEntry lookupMap payerKey (es ++ [x]) a = mergedEntry lookupMap payerKey es a.
Proof.
  intros Hne. unfold mergedEntry.
  rewrite firstEncounter_app, anySigner_app, anyWritable_app.
  apply bytes_eqb_neq in Hne. rewrite Hne.
  assert (Hs : match x with
               | AsMeta meta => bytes_eqb (meta_pubkey meta) a && meta_isSigner meta
               | AsProgram _ => false
               end = false) by (destruct x; simpl in *; [reflexivity | now rewrite Hne]).
  assert (Hw : match x with
               | AsMeta meta => bytes_eqb (meta_pubkey meta) a && meta_isWritable meta
               | AsProgram _ => false
               end = false) by (destruct x; simpl in *; [reflexivity | now rewrite Hne]).
  rewrite Hs, Hw, !orb_false_r.
  destruct (firstEncounter es a); reflexivity.
Qed.

Lemma v0Step_get_other (m : JSMap.t AccountEntry) (x : Encounter) (a : Address) :
  encounterKey x <> a -> JSMap.get (v0Step lookupMap m x) a = JSMap.get m a.
Proof.
  intros Hne. destruct x as [p|meta]; simpl in *.
  - unfold v0AddProgram. destruct (JSMap.has m (toBase58 p)); [reflexivity|].
    now apply JSMapFacts.get_set_other.
  - unfold v0AddMeta.
    destruct (JSMap.get m (toBase58 (meta_pubkey meta)));
      now apply JSMapFacts.get_set_other.
Qed.

Lemma v0Step_get_same (es : list Encounter) (m : JSMap.t AccountEntry) (x : Encounter) :
  JSMap.get m (encounterKey x) = mergedEntry lookupMap payerKey es (encounterKey x) ->
  JSMap.get (v0Step lookupMap m x) (encounterKey x)
  = mergedEntry lookupMap payerKey (es ++ [x]) (encounterKey x).
Proof.
  intros IH. unfold mergedEntry in *. unfold toBase58 in *.
  rewrite firstEncounter_app, anySigner_app, anyWritable_app, bytes_eqb_refl.
  destruct x as [p|meta]; simpl in *.
  - rewrite !orb_false_r. unfold v0AddProgram, JSMap.has, toBase58.
    destruct (JSMap.get m p) as [ex|] eqn:G; simpl.
    + rewrite G.
      destruct (bytes_eqb payerKey p); [exact IH|].
      destruct (firstEncounter es p) as [[q|mt]|];
        [exact IH | exact IH | discriminate IH].
    + rewrite JSMapFacts.get_set_same.
      destruct (bytes_eqb payerKey p); [discriminate IH|].
      destruct (firstEncounter es p) as [[q|mt]|] eqn:F; try discriminate IH.
      destruct (firstEncounter_none_flags _ _ F) as [-> ->]. reflexivity.
  - rewrite bytes_eqb_refl. simpl. unfold v0AddMeta, toBase58.
    destruct (JSMap.get m (meta_pubkey meta)) as [ex|] eqn:G;
      rewrite JSMapFacts.get_set_same.
    + destruct (bytes_eqb payerKey (meta_pubkey meta)).
      * injection IH as ->. simpl. now rewrite andb_false_r.
      * destruct (firstEncounter es (meta_pubkey meta)) as [[q|mt]|];
          try discriminate IH; injection IH as ->; simpl.
        -- now rewrite andb_false_r.
        -- f_equal. f_equal.
           destruct (anySigner es (meta_pubkey meta)); simpl.
           ++ now rewrite andb_false_r.
           ++ destruct (meta_isSigner meta); simpl; [|reflexivity].
              now destruct (JSMap.get lookupMap (meta_pubkey meta)).
    + destruct (bytes_eqb payerKey (meta_pubkey meta)); [discriminate IH|].
      destruct (firstEncounter es (meta_pubkey meta)) as [[q|mt]|] eqn:F;
        try discriminate IH.
      destruct (firstEncounter_none_flags _ _ F) as [-> ->]. simpl.
      f_equal. f_equal.
      destruct (meta_isSigner meta); simpl; [reflexivity|].
      now destruct (JSMap.get lookupMap (meta_pubkey meta)).
Qed.

(** The account map after the encounters [es] holds, for every address, the
    merge of its observations. *)
Lemma v0_fold_mergedEntry (es : list Encounter) (a : Address) :
  JSMap.get (fold_left (v0Step lookupMap) es (v0Initial payerKey)) a
  = mergedEntry lookupMap payerKey es a.
Proof.
  revert a. induction es as [|x es IH] using rev_ind; intros a.
  - unfold mergedEntry, v0Initial. simpl.
    now destruct (bytes_eqb (toBase58 payerKey) a).
  - rewrite fold_left_app. simpl.
    destruct (list_eq_dec Byte.byte_eq_dec (encounterKey x) a) as [<-|Hne].
    + apply v0Step_get_same, IH.
    + rewrite v0Step_get_other, mergedEntry_other by assumption. apply IH.
Qed.
End Merge.

Lemma v0FinalMap_get (args : CompileV0Args) (a : Address) :
  JSMap.get (v0FinalMap args) a
  = mergedEntry (buildLookupMap (tablesOf args)) (cv_payerKey args)
      (encounters (normalizedInstructions (cv_instructions args))) a.
Proof.
  unfold v0FinalMap. rewrite v0AccountMap_encounters. apply v0_fold_mergedEntry.
Qed.

(* ================================================================== *)
(** * The lookup map and the lookup entries *)
(* ================================================================== *)

Lemma addTableAddresses_get (lookupMap : JSMap.t LookupInfo) (key : PublicKey)
    (addresses : list PublicKey) (idx0 : nat) (a : Address) :
  JSMap.get (addTableAddresses lookupMap key addresses idx0) a
  = match JSMap.get lookupMap a with
    | Some info => Some info
    | None =>
        option_map (fun i => {| tableIndex := idx0 + i; tableKey := key |})
          (findIndex (fun x => bytes_eqb x a) addresses)
    end.
Proof.
  revert lookupMap idx0. induction addresses as [|addr rest IH];
    intros lookupMap idx0; simpl.
  - now destruct (JSMap.get lookupMap a).
  - rewrite IH. unfold JSMap.has, toBase58. eqb_cases addr a.
    + subst addr. destruct (JSMap.get lookupMap a) as [info|] eqn:G; simpl.
      * now rewrite G.
      * rewrite JSMapFacts.get_set_same. simpl. now rewrite Nat.add_0_r.
    + assert (Hget : JSMap.get
                       (if isSome (JSMap.get lookupMap addr) then lookupMap
                        else JSMap.set lookupMap addr
                               {| tableIndex := idx0; tableKey := key |}) a
                     = JSMap.get lookupMap a).
      { destruct (isSome (JSMap.get lookupMap addr)); [reflexivity|].
        now apply JSMapFacts.get_set_other. }
      rewrite Hget. destruct (JSMap.get lookupMap a); [reflexivity|].
      destruct (findIndex (fun x => bytes_eqb x a) rest); simpl; [|reflexivity].
      now rewrite Nat.add_succ_r.
Qed.

Lemma buildLookupMap_get (tables : list AddressLookupTableAccount) (a : Address) :
  JSMap.get (buildLookupMap tables) a = firstTable tables a.
Proof.
  unfold buildLookupMap.
  assert (H : forall lookupMap,
             JSMap.get
               (fold_left
                  (fun lm table =>
                     addTableAddresses lm (alt_key table) (alt_addresses table) 0)
                  tables lookupMap) a
             = match JSMap.get lookupMap a with
               | Some info => Some info
               | None => firstTable tables a
               end).
  { induction tables as [|table rest IH]; intros lookupMap; simpl.
    - now destruct (JSMap.get lookupMap a).
    - rewrite IH, addTableAddresses_get.
      destruct (JSMap.get lookupMap a); [reflexivity|].
      now destruct (findIndex (fun x => bytes_eqb x a) (alt_addresses table)). }
  now rewrite H.
Qed.

Lemma firstTable_some (tables : list AddressLookupTableAccount) (a : Address)
    (info : LookupInfo) :
  firstTable tables a = Some info ->
  exists table, In table tables /\ alt_key table = tableKey info
                /\ nth_error (alt_addresses table) (tableIndex info) = Some a.
Proof.
  induction tables as [|table rest IH]; simpl; [discriminate|].
  destruct (findIndex (fun x => bytes_eqb x a) (alt_addresses table)) as [i|] eqn:F.
  - intros H. injection H as <-. simpl.
    apply findIndex_some in F as (x & Hx & Heq). apply bytes_eqb_eq in Heq. subst x.
    exists table. auto.
  - intros H. destruct (IH H) as (t & Hin & Hrest). exists t. auto.
Qed.

Lemma firstTable_none (tables : list AddressLookupTableAccount) (a : Address) :
  firstTable tables a = None <->
  forall table, In table tables -> ~ In a (alt_addresses table).
Proof.
  induction tables as [|table rest IH]; simpl.
  - split; [intros _ t [] | reflexivity].
  - destruct (findIndex (fun x => bytes_eqb x a) (alt_addresses table)) as [i|] eqn:F.
    + split; [discriminate|]. intros H. exfalso.
      apply findIndex_some in F as (x & Hx & Heq). apply bytes_eqb_eq in Heq. subst x.
      apply (H table); [now left | eapply nth_error_In; eassumption].
    + rewrite IH. apply findIndex_none in F. rewrite Forall_forall in F. split.
      * intros H t [<-|Hin]; [|now apply H].
        intros Hin. specialize (F a Hin). now rewrite bytes_eqb_refl in F.
      * intros H t Hin. apply H. now right.
Qed.

Lemma find_table_by_key (tables : list AddressLookupTableAccount)
    (table : AddressLookupTableAccount) :
  NoDup (map alt_key tables) -> In table tables ->
  find (fun t => bytes_eqb (alt_key t) (alt_key table)) tables = Some table.
Proof.
  induction tables as [|t rest IH]; simpl; [tauto|].
  intros Hnd [->|Hin].
  - now rewrite bytes_eqb_refl.
  - inversion Hnd as [|? ? Hnot Hnd']; subst. eqb_cases (alt_key t) (alt_key table).
    + exfalso. apply Hnot. rewrite E. now apply in_map.
    + now apply IH.
Qed.

Lemma groupAccount_nodup (accs : list AccountEntry) (t : JSMap.t (list AccountEntry)) :
  NoDup (JSMap.keys t) -> NoDup (JSMap.keys (fold_left groupAccount accs t)).
Proof.
  revert t. induction accs as [|acc accs IH]; intros t Hnd; simpl; [assumption|].
  apply IH. unfold groupAccount. destruct (fromLookup acc) as [info|]; [|assumption].
  set (k := toBase58 (tableKey info)).
  assert (Hnd' : NoDup (JSMap.keys (if JSMap.has t k then t else JSMap.set t k [])))
    by (destruct (JSMap.has t k); [assumption | now apply JSMapFacts.nodup_set]).
  destruct (JSMap.get _ k); [now apply JSMapFacts.nodup_set | assumption].
Qed.

Lemma groupAccount_get (accs : list AccountEntry) (k : Address) :
  JSMap.get (fold_left groupAccount accs (JSMap.empty _)) k = groupOf accs k.
Proof.
  induction accs as [|acc accs IH] using rev_ind; [reflexivity|].
  rewrite fold_left_app. simpl. unfold groupOf in *. rewrite filter_app. simpl.
  set (t := fold_left groupAccount accs (JSMap.empty _)) in *.
  unfold groupAccount, inTable, tableKeyOf.
  destruct (fromLookup acc) as [info|]; simpl.
  - set (k' := toBase58 (tableKey info)).
    assert (Hsame : JSMap.get (if JSMap.has t k' then t else JSMap.set t k' []) k'
                    = Some (match JSMap.get t k' with Some d => d | None => [] end)).
    { unfold JSMap.has. destruct (JSMap.get t k') eqn:G; simpl;
        [exact G | apply JSMapFacts.get_set_same]. }
    assert (Hother : k' <> k ->
                     JSMap.get (if JSMap.has t k' then t else JSMap.set t k' []) k
                     = JSMap.get t k).
    { intros Hne. destruct (JSMap.has t k'); [reflexivity|].
      now apply JSMapFacts.get_set_other. }
    rewrite Hsame. eqb_cases k' k.
    + subst k. rewrite JSMapFacts.get_set_same. rewrite IH.
      destruct (filter _ accs); reflexivity.
    + rewrite JSMapFacts.get_set_other, Hother, IH, app_nil_r by assumption.
      reflexivity.
  - now rewrite app_nil_r.
Qed.

Lemma assignIndexes_indexes (keyIndexMap : JSMap.t nat) (nextIndex : nat)
    (accs : list AccountEntry) :
  snd (assignIndexes keyIndexMap nextIndex accs) = map entryTableIndex accs.
Proof.
  revert keyIndexMap nextIndex. induction accs as [|acc accs IH];
    intros keyIndexMap nextIndex; simpl; [reflexivity|].
  specialize (IH (JSMap.set keyIndexMap (toBase58 (pubkey acc)) nextIndex)
                (S nextIndex)).
  destruct (assignIndexes _ _ accs) as [[m n] idx]. simpl in *. now rewrite IH.
Qed.

Lemma buildLookup_lookups (st : LookupState) (entry : Address * list AccountEntry) :
  ls_lookups (buildLookup st entry) = ls_lookups st ++ lookupOfGroup entry.
Proof.
  destruct entry as [k data]. unfold buildLookup, lookupOfGroup. simpl.
  pose proof (assignIndexes_indexes (ls_keyIndexMap st) (ls_nextIndex st)
                (filter isWritable data)) as Hw.
  destruct (assignIndexes (ls_keyIndexMap st) (ls_nextIndex st) (filter isWritable data))
    as [[m1 n1] w].
  pose proof (assignIndexes_indexes m1 n1
                (filter (fun a => negb (isWritable a)) data)) as Hr.
  destruct (assignIndexes m1 n1 (filter (fun a => negb (isWritable a)) data))
    as [[m2 n2] r].
  simpl in *. subst w r.
  destruct ((0 <? length _) || (0 <? length _)); simpl;
    [reflexivity | now rewrite app_nil_r].
Qed.

Lemma buildLookup_fold_lookups (groups : JSMap.t (list AccountEntry)) (st : LookupState) :
  ls_lookups (fold_left buildLookup groups st)
  = ls_lookups st ++ flat_map lookupOfGroup groups.
Proof.
  revert st. induction groups as [|g groups IH]; intros st; simpl.
  - now rewrite app_nil_r.
  - now rewrite IH, buildLookup_lookups, <- app_assoc.
Qed.

Lemma lookupOfGroup_nonempty (k : Address) (data : list AccountEntry) (acc : AccountEntry) :
  In acc data ->
  lookupOfGroup (k, data)
  = [{| atl_accountKey := fromAddress k;
        readonlyIndexes :=
          map entryTableIndex (filter (fun a => negb (isWritable a)) data);
        writableIndexes := map entryTableIndex (filter isWritable data) |}].
Proof.
  intros Hin. unfold lookupOfGroup. simpl.
  destruct (isWritable acc) eqn:W.
  - assert (Hw : In acc (filter isWritable data)) by (apply filter_In; auto).
    destruct (filter isWritable data); [destruct Hw | reflexivity].
  - assert (Hr : In acc (filter (fun a => negb (isWritable a)) data))
      by (apply filter_In; rewrite W; auto).
    destruct (filter (fun a => negb (isWritable a)) data); [destruct Hr|].
    simpl. now rewrite orb_true_r.
Qed.

(* ================================================================== *)
(** * Static accounts and lookup entries of a versioned message *)
(* ================================================================== *)

Lemma v0FinalMap_values_get (args : CompileV0Args) (e : AccountEntry) :
  In e (JSMap.values (v0FinalMap args)) <->
  JSMap.get (v0FinalMap args) (pubkey e) = Some e.
Proof.
  destruct (v0AccountMap_inv (buildLookupMap (tablesOf args)) (cv_payerKey args)
              (normalizedInstructions (cv_instructions args))) as (Hnd & Hkey & _).
  fold (v0FinalMap args) in Hnd, Hkey. split.
  - intros Hin.
    exact (JSMap_in_values_get _ (fun e => toBase58 (pubkey e)) _ _ Hnd Hkey Hin).
  - intros Hget. apply JSMapFacts.get_some_in in Hget.
    apply in_map_iff. exists (pubkey e, e). auto.
Qed.

Lemma v0FinalMap_get_key (args : CompileV0Args) (a : Address) (e : AccountEntry) :
  JSMap.get (v0FinalMap args) a = Some e -> pubkey e = a.
Proof.
  destruct (v0AccountMap_inv (buildLookupMap (tablesOf args)) (cv_payerKey args)
              (normalizedInstructions (cv_instructions args))) as (_ & Hkey & _).
  fold (v0FinalMap args) in Hkey.
  exact (JSMap_get_key _ (fun e => toBase58 (pubkey e)) _ _ _ Hkey).
Qed.

Lemma v0_static_in (args : CompileV0Args) (m : MessageV0) (a : Address) :
  MessageV0_compile args = Ok m ->
  (In a (staticAccountKeys m) <->
   exists e, JSMap.get (v0FinalMap args) a = Some e /\ fromLookup e = None).
Proof.
  intros Hm. apply MessageV0_compile_ok in Hm. subst m. simpl.
  fold (v0FinalMap args). rewrite in_map_iff. split.
  - intros (e & <- & Hin). apply orderAccounts_in in Hin.
    apply filter_In in Hin as [Hin Hf]. exists e. split.
    + now apply v0FinalMap_values_get.
    + now destruct (fromLookup e).
  - intros (e & Hget & Hf). exists e.
    pose proof (v0FinalMap_get_key _ _ _ Hget) as Hk. split; [exact Hk|].
    apply orderAccounts_in. apply filter_In. split.
    + apply v0FinalMap_values_get. now rewrite Hk.
    + now rewrite Hf.
Qed.

Lemma v0_lookups (args : CompileV0Args) (m : MessageV0) :
  MessageV0_compile args = Ok m ->
  addressTableLookups m
  = flat_map lookupOfGroup
      (fold_left groupAccount (lookupAccountsOf (JSMap.values (v0FinalMap args)))
         (JSMap.empty _)).
Proof.
  intros Hm. apply MessageV0_compile_ok in Hm. subst m. simpl.
  now rewrite buildLookup_fold_lookups.
Qed.

Lemma v0_lookup_origin (args : CompileV0Args) (m : MessageV0)
    (L : MessageAddressTableLookup) (i : nat) :
  MessageV0_compile args = Ok m ->
  In L (addressTableLookups m) ->
  In i (writableIndexes L ++ readonlyIndexes L) ->
  exists e info,
    JSMap.get (v0FinalMap args) (pubkey e) = Some e
    /\ fromLookup e = Some info
    /\ tableKey info = atl_accountKey L /\ tableIndex info = i.
Proof.
  intros Hm HL Hi. rewrite (v0_lookups _ _ Hm) in HL.
  apply in_flat_map in HL as ([k data] & Hg & HL).
  apply JSMapFacts.in_get in Hg;
    [|apply groupAccount_nodup; simpl; constructor].
  rewrite groupAccount_get in Hg. unfold groupOf in Hg.
  assert (Hdata : data = filter (inTable k)
                           (lookupAccountsOf (JSMap.values (v0FinalMap args))))
    by (destruct (filter _ _); [discriminate | congruence]).
  unfold lookupOfGroup in HL. simpl in HL.
  destruct ((0 <? _) || (0 <? _)); [|destruct HL].
  destruct HL as [<-|[]]. simpl in Hi.
  assert (He : exists e, In e data /\ entryTableIndex e = i).
  { apply in_app_or in Hi as [Hi|Hi]; apply in_map_iff in Hi as (e & <- & He);
      apply filter_In in He as [He _]; eauto. }
  destruct He as (e & He & Hidx). rewrite Hdata in He.
  apply filter_In in He as [He Hk]. apply filter_In in He as [He Hf].
  unfold inTable, tableKeyOf in Hk. unfold entryTableIndex in Hidx.
  destruct (fromLookup e) as [info|] eqn:F; [|discriminate]. simpl in Hk.
  apply bytes_eqb_eq in Hk. exists e, info.
  repeat split; auto. now apply v0FinalMap_values_get.
Qed.

Lemma v0_lookup_exists (args : CompileV0Args) (m : MessageV0)
    (e : AccountEntry) (info : LookupInfo) :
  MessageV0_compile args = Ok m ->
  JSMap.get (v0FinalMap args) (pubkey e) = Some e ->
  fromLookup e = Some info ->
  exists L, In L (addressTableLookups m)
            /\ atl_accountKey L = tableKey info
            /\ In (tableIndex info)
                 (if isWritable e then writableIndexes L else readonlyIndexes L).
Proof.
  intros Hm Hget Hf. rewrite (v0_lookups _ _ Hm).
  set (accs := lookupAccountsOf (JSMap.values (v0FinalMap args))).
  set (k := toBase58 (tableKey info)).
  assert (Hin : In e (filter (inTable k) accs)).
  { apply filter_In. split.
    - apply filter_In. split; [now apply v0FinalMap_values_get | now rewrite Hf].
    - unfold inTable, tableKeyOf. rewrite Hf. simpl. apply bytes_eqb_refl. }
  assert (Hg : JSMap.get (fold_left groupAccount accs (JSMap.empty _)) k
               = Some (filter (inTable k) accs)).
  { rewrite groupAccount_get. unfold groupOf.
    destruct (filter (inTable k) accs); [destruct Hin | reflexivity]. }
  apply JSMapFacts.get_some_in in Hg.
  eexists. split.
  - apply in_flat_map. eexists. split; [exact Hg|].
    rewrite (lookupOfGroup_nonempty k _ _ Hin). now left.
  - simpl. split; [reflexivity|].
    assert (Hidx : entryTableIndex e = tableIndex info)
      by (unfold entryTableIndex; now rewrite Hf).
    rewrite <- Hidx. destruct (isWritable e) eqn:W; apply in_map, filter_In; split;
      auto. now rewrite W.
Qed.

Lemma v0FinalRole_get (args : CompileV0Args) (a : Address) (r : Role) :
  v0FinalRole args a = Some r ->
  exists e, JSMap.get (v0FinalMap args) a = Some e
            /\ isSigner e = signer r /\ isWritable e = writable r.
Proof.
  unfold v0FinalRole. destruct (JSMap.get (v0FinalMap args) a) as [e|]; simpl;
    [|discriminate].
  intros H. injection H as <-. eauto.
Qed.

(** The final merged flags are the logical OR over the observations: an
    address is a signer when it is the fee payer or some account meta lists
    it as a signer, and likewise for writable. *)
Lemma v0FinalRole_merge (args : CompileV0Args) (a : Address) (r : Role) :
  v0FinalRole args a = Some r ->
  let es := encounters (normalizedInstructions (cv_instructions args)) in
  signer r = bytes_eqb (cv_payerKey args) a || anySigner es a
  /\ writable r = bytes_eqb (cv_payerKey args) a || anyWritable es a.
Proof.
  intros Hr es. apply v0FinalRole_get in Hr as (e & Hget & <- & <-).
  rewrite v0FinalMap_get in Hget. unfold mergedEntry, toBase58 in Hget. fold es in Hget.
  destruct (bytes_eqb (cv_payerKey args) a); [injection Hget as <-; auto|].
  destruct (firstEncounter es a) as [[p|meta]|]; try discriminate;
    injection Hget as <-; auto.
Qed.

Lemma signer_entry_static (args : CompileV0Args) (a : Address) (e : AccountEntry) :
  JSMap.get (v0FinalMap args) a = Some e ->
  isSigner e = true -> fromLookup e = None.
Proof.
  rewrite v0FinalMap_get. unfold mergedEntry.
  destruct (bytes_eqb _ a); [intros H; injection H as <-; reflexivity|].
  destruct (firstEncounter _ a) as [[p|meta]|]; try discriminate;
    intros H; injection H as <-; simpl; [reflexivity|].
  now intros ->.
Qed.

Lemma lookup_entry_info (args : CompileV0Args) (a : Address) (e : AccountEntry)
    (info : LookupInfo) :
  JSMap.get (v0FinalMap args) a = Some e ->
  fromLookup e = Some info ->
  isSigner e = false /\ firstTable (tablesOf args) a = Some info.
Proof.
  intros Hget Hf. split.
  - destruct (isSigner e) eqn:S; [|reflexivity].
    rewrite (signer_entry_static _ _ _ Hget S) in Hf. discriminate.
  - rewrite v0FinalMap_get in Hget. unfold mergedEntry in Hget.
    destruct (bytes_eqb _ a); [injection Hget as <-; discriminate|].
    destruct (firstEncounter _ a) as [[p|meta]|]; try discriminate;
      injection Hget as <-; simpl in Hf; [discriminate|].
    destruct (anySigner _ a); [discriminate|].
    now rewrite buildLookupMap_get in Hf.
Qed.

(** C3. In a versioned compilation every address whose final merged role is
    a signer is among the static accounts; every index of every lookup entry
    produced stands for an address whose final role is not a signer, at that
    position of that table; and, the caller's tables having distinct keys, no
    signer address is among the addresses the lookup entries resolve to. *)
Theorem signers_never_in_lookups (args : CompileV0Args) (m : MessageV0) :
  MessageV0_compile args = Ok m ->
  (forall a r, v0FinalRole args a = Some r -> signer r = true ->
               In a (staticAccountKeys m))
  /\ (forall L i,
         In L (addressTableLookups m) ->
         In i (writableIndexes L ++ readonlyIndexes L) ->
         exists a r,
           v0FinalRole args a = Some r /\ signer r = false
           /\ firstTable (tablesOf args) a
              = Some {| tableIndex := i; tableKey := atl_accountKey L |})
  /\ (NoDup (map alt_key (tablesOf args)) ->
      forall a r, v0FinalRole args a = Some r -> signer r = true ->
                  ~ In (Some a) (lookupAddresses (tablesOf args) m)).
Proof.
  intros Hm.
  assert (H2 : forall L i,
             In L (addressTableLookups m) ->
             In i (writableIndexes L ++ readonlyIndexes L) ->
             exists a r,
               v0FinalRole args a = Some r /\ signer r = false
               /\ firstTable (tablesOf args) a
                  = Some {| tableIndex := i; tableKey := atl_accountKey L |}).
  { intros L i HL Hi.
    destruct (v0_lookup_origin _ _ _ _ Hm HL Hi) as (e & info & Hget & Hf & Hk & Hi').
    destruct (lookup_entry_info _ _ _ _ Hget Hf) as [Hs Hft].
    exists (pubkey e), {| signer := isSigner e; writable := isWritable e |}.
    split; [unfold v0FinalRole; now rewrite Hget|]. split; [exact Hs|].
    rewrite Hft. destruct info; simpl in *. now subst. }
  split; [|split; [exact H2|]].
  - intros a r Hr Hs. apply (v0_static_in _ _ a Hm).
    apply v0FinalRole_get in Hr as (e & Hget & He & _). exists e. split; [exact Hget|].
    eapply signer_entry_static; [exact Hget | congruence].
  - intros Hnd a r Hr Hs Hin. unfold lookupAddresses in Hin.
    apply in_flat_map in Hin as (L & HL & Hin). unfold resolveLookup in Hin.
    destruct (find _ (tablesOf args)) as [table|] eqn:Ft.
    + apply in_map_iff in Hin as (i & Hnth & Hi).
      destruct (H2 L i HL Hi) as (a' & r' & Hr' & Hs' & Hft).
      apply firstTable_some in Hft as (t' & Ht' & Hk' & Hnth'). simpl in *.
      pose proof (find_table_by_key _ _ Hnd Ht') as Ffind. rewrite Hk' in Ffind.
      rewrite Ffind in Ft. injection Ft as ->. rewrite Hnth' in Hnth.
      injection Hnth as ->. congruence.
    + apply in_map_iff in Hin as (i & Hnone & _). discriminate.
Qed.

(** Scenario C: the signer [X] of the table [T] is static and no lookup entry resolves to it. *)
Lemma signers_never_in_lookups_witness :
  In Sample.X [Sample.P; Sample.X; Sample.Q]
  /\ ~ In (Some Sample.X)
       (lookupAddresses (tablesOf SampleCompile.scenarioC)
          {| v0_header := {| numReadonlySignedAccounts := 0;
                             numReadonlyUnsignedAccounts := 1;
                             numRequiredSignatures := 2 |};
             staticAccountKeys := [Sample.P; Sample.X; Sample.Q];
             v0_recentBlockhash := Sample.blockhash;
             compiledInstructions :=
               [{| accountKeyIndexes := [0; 1]; mci_data := [];
                   mci_programIdIndex := 2 |};
                {| accountKeyIndexes := [1]; mci_data := [];
                   mci_programIdIndex := 2 |}];
             addressTableLookups := [] |}).
Proof.
  pose proof (signers_never_in_lookups SampleCompile.scenarioC _ eq_refl)
    as (Hstatic & _ & Hres).
  split.
  - exact (Hstatic Sample.X {| signer := true; writable := true |} eq_refl eq_refl).
  - apply (Hres ltac:(repeat constructor; intros [])
             Sample.X {| signer := true; writable := true |} eq_refl eq_refl).
Defined.

Lemma program_encounter_used (ixs : list TransactionInstruction) (p : Address) :
  In (AsProgram p) (encounters ixs) -> usedAsProgram ixs p = true.
Proof.
  unfold encounters, usedAsProgram. intros Hin.
  apply in_flat_map in Hin as (ix & Hix & [H|H]).
  - injection H as <-. apply existsb_exists. exists ix. split; [assumption|].
    apply bytes_eqb_refl.
  - apply in_map_iff in H as (meta & Hm & _). discriminate.
Qed.

(** C4, on a program listed in a table: the program [Q] of the only
    instruction has the final role of a non-signer and is listed in the
    caller's table, yet it is a static account and no lookup entry is
    produced. *)
Lemma program_in_table_stays_static :
  v0FinalRole SampleCompile.programInTable Sample.Q = Some RN
  /\ firstTable (tablesOf SampleCompile.programInTable) Sample.Q
     = Some {| tableIndex := 0; tableKey := Sample.T |}
  /\ exists m,
       MessageV0_compile SampleCompile.programInTable = Ok m
       /\ staticAccountKeys m = [Sample.P; Sample.Q]
       /\ addressTableLookups m = [].
Proof.
  split; [reflexivity|]. split; [reflexivity|].
  eexists. split; [reflexivity|]. split; reflexivity.
Qed.

(** C4, amended.  In a versioned compilation, every address whose final
    merged role is a signer, every address listed in no table, and every
    address first met as the program of an instruction is a static account;
    every address that is never the program of an instruction, whose final
    role is not a signer and that some table lists is no static account: the
    lookup entry of the first table, in the caller's order, that lists it
    holds its position in that table, among the writable indexes when its
    final role is writable and among the read-only indexes when not. *)
Theorem static_lookup_partition (args : CompileV0Args) (m : MessageV0)
    (a : Address) (r : Role) :
  MessageV0_compile args = Ok m ->
  v0FinalRole args a = Some r ->
  let ixs := normalizedInstructions (cv_instructions args) in
  let tables := tablesOf args in
  (signer r = true -> In a (staticAccountKeys m))
  /\ (firstTable tables a = None -> In a (staticAccountKeys m))
  /\ (firstSeenAsProgram ixs a = true -> In a (staticAccountKeys m))
  /\ (forall info,
         signer r = false -> usedAsProgram ixs a = false ->
         firstTable tables a = Some info ->
         ~ In a (staticAccountKeys m)
         /\ exists L,
              In L (addressTableLookups m)
              /\ atl_accountKey L = tableKey info
              /\ In (tableIndex info)
                   (if writable r then writableIndexes L else readonlyIndexes L)).
Proof.
  intros Hm Hr ixs tables.
  destruct (v0FinalRole_get _ _ _ Hr) as (e & Hget & Hs & Hw).
  pose proof Hget as Hmerged. rewrite v0FinalMap_get in Hmerged.
  fold ixs tables in Hmerged. unfold mergedEntry in Hmerged.
  split; [|split; [|split]].
  - intros Hsig. apply (v0_static_in _ _ a Hm). exists e. split; [exact Hget|].
    eapply signer_entry_static; [exact Hget | congruence].
  - intros Hnone. apply (v0_static_in _ _ a Hm). exists e. split; [exact Hget|].
    destruct (fromLookup e) as [info|] eqn:F; [|reflexivity].
    destruct (lookup_entry_info _ _ _ _ Hget F) as [_ Hft].
    fold tables in Hft. congruence.
  - intros Hfirst. apply (v0_static_in _ _ a Hm). exists e. split; [exact Hget|].
    unfold firstSeenAsProgram in Hfirst. unfold firstEncounter in Hmerged.
    destruct (bytes_eqb _ a); [injection Hmerged as <-; reflexivity|].
    destruct (find _ (encounters ixs)) as [[p|meta]|]; try discriminate.
    now injection Hmerged as <-.
  - intros info Hsig Hprog Hft.
    assert (Hf : fromLookup e = Some info).
    { destruct (bytes_eqb _ a).
      - injection Hmerged as <-. simpl in Hs. congruence.
      - destruct (firstEncounter (encounters ixs) a) as [[p|meta]|] eqn:F;
          try discriminate.
        + exfalso. unfold firstEncounter in F. apply find_some in F as [Hin Hk].
          simpl in Hk. apply bytes_eqb_eq in Hk. subst p.
          apply program_encounter_used in Hin. congruence.
        + injection Hmerged as <-. simpl in *. rewrite Hs, Hsig.
          rewrite buildLookupMap_get. exact Hft. }
    pose proof (v0FinalMap_get_key _ _ _ Hget) as Hk. split.
    + intros Hin. apply (v0_static_in _ _ a Hm) in Hin as (e' & Hget' & Hf').
      congruence.
    + rewrite <- Hw. apply (v0_lookup_exists args m e info Hm); [|exact Hf].
      now rewrite Hk.
Qed.

(** The partition on the samples [scenarioC], [twoTables] and [programInTable]. *)
Lemma static_lookup_partition_witness :
  (* the signer [X] of scenario C is static *)
  In Sample.X [Sample.P; Sample.X; Sample.Q]
  (* [Y], of the second table only, is looked up there as writable *)
  /\ (~ In SampleCompile.Y [Sample.P; Sample.Q]
      /\ exists L,
           In L [{| atl_accountKey := Sample.addr 10;
                    readonlyIndexes := []; writableIndexes := [1] |};
                 {| atl_accountKey := Sample.T;
                    readonlyIndexes := [1]; writableIndexes := [0] |}]
           /\ atl_accountKey L = Sample.addr 10
           /\ In 1 (writableIndexes L))
  (* [X], of both tables, is looked up in the first one as read-only *)
  /\ (~ In Sample.X [Sample.P; Sample.Q]
      /\ exists L,
           In L [{| atl_accountKey := Sample.addr 10;
                    readonlyIndexes := []; writableIndexes := [1] |};
                 {| atl_accountKey := Sample.T;
                    readonlyIndexes := [1]; writableIndexes := [0] |}]
           /\ atl_accountKey L = Sample.T
           /\ In 1 (readonlyIndexes L))
  (* the program [Q] is static although a table lists it *)
  /\ In Sample.Q [Sample.P; Sample.Q].
Proof.
  split; [|split; [|split]].
  - exact (proj1 (static_lookup_partition SampleCompile.scenarioC _
                    Sample.X WS eq_refl eq_refl) eq_refl).
  - exact (proj2 (proj2 (proj2
             (static_lookup_partition SampleCompile.twoTables _
                SampleCompile.Y WN eq_refl eq_refl)))
             {| tableIndex := 1; tableKey := Sample.addr 10 |}
             eq_refl eq_refl eq_refl).
  - exact (proj2 (proj2 (proj2
             (static_lookup_partition SampleCompile.twoTables _
                Sample.X RN eq_refl eq_refl)))
             {| tableIndex := 1; tableKey := Sample.T |}
             eq_refl eq_refl eq_refl).
  - exact (proj1 (proj2 (proj2
             (static_lookup_partition SampleCompile.programInTable _
                Sample.Q RN eq_refl eq_refl))) eq_refl).
Defined.

(* ================================================================== *)
(** * The legacy account map as a view of the versioned one *)
(* ================================================================== *)

Lemma forgetLookups_get (m : JSMap.t AccountEntry) (k : Address) :
  JSMap.get (forgetLookups m) k = option_map forgetLookup (JSMap.get m k).
Proof.
  induction m as [|[k0 e0] m IH]; simpl; [reflexivity|].
  destruct (bytes_eqb k0 k); [reflexivity | exact IH].
Qed.

Lemma forgetLookups_set (m : JSMap.t AccountEntry) (k : Address) (e : AccountEntry) :
  JSMap.set (forgetLookups m) k (forgetLookup e) = forgetLookups (JSMap.set m k e).
Proof.
  induction m as [|[k0 e0] m IH]; simpl; [reflexivity|].
  destruct (bytes_eqb k0 k); simpl; [reflexivity | now rewrite IH].
Qed.

Lemma forgetLookups_addProgram (m : JSMap.t AccountEntry) (p : PublicKey) :
  legacyAddProgram (forgetLookups m) p = forgetLookups (v0AddProgram m p).
Proof.
  unfold legacyAddProgram, v0AddProgram, JSMap.has. rewrite forgetLookups_get.
  destruct (JSMap.get m (toBase58 p)); simpl; [reflexivity|].
  now rewrite <- forgetLookups_set.
Qed.

Lemma forgetLookups_addMeta (lookupMap : JSMap.t LookupInfo)
    (m : JSMap.t AccountEntry) (meta : AccountMeta) :
  legacyAddMeta (forgetLookups m) meta = forgetLookups (v0AddMeta lookupMap m meta).
Proof.
  unfold legacyAddMeta, v0AddMeta. rewrite forgetLookups_get.
  destruct (JSMap.get m (toBase58 (meta_pubkey meta))); simpl;
    now rewrite <- forgetLookups_set.
Qed.

Lemma forgetLookups_accountMap (lookupMap : JSMap.t LookupInfo) (payerKey : PublicKey)
    (ixs : list TransactionInstruction) :
  legacyAccountMap payerKey ixs = forgetLookups (v0AccountMap lookupMap payerKey ixs).
Proof.
  unfold legacyAccountMap, v0AccountMap.
  change (JSMap.set (JSMap.empty LegacyEntry) (toBase58 payerKey)
            {| le_isSigner := true; le_isWritable := true; le_pubkey := payerKey |})
    with (forgetLookups (v0Initial payerKey)).
  fold (v0Initial payerKey). generalize (v0Initial payerKey).
  induction ixs as [|ix ixs IH]; intros m; simpl; [reflexivity|].
  rewrite <- IH. f_equal. unfold legacyAddInstruction, v0AddInstruction.
  rewrite forgetLookups_addProgram. generalize (v0AddProgram m (ix_programId ix)).
  induction (ix_keys ix) as [|meta metas IHm]; intros m'; simpl; [reflexivity|].
  now rewrite (forgetLookups_addMeta lookupMap), IHm.
Qed.

(** The final merged flags of the legacy compiler are the logical OR over
    the observations, too. *)
Lemma legacyFinalRole_merge (args : CompileLegacyArgs) (a : Address) (r : Role) :
  legacyFinalRole args a = Some r ->
  let es := encounters (normalizedInstructions (cl_instructions args)) in
  signer r = bytes_eqb (cl_payerKey args) a || anySigner es a
  /\ writable r = bytes_eqb (cl_payerKey args) a || anyWritable es a.
Proof.
  intros H es. unfold legacyFinalRole, legacyFinalMap in H.
  rewrite (forgetLookups_accountMap (JSMap.empty _)), forgetLookups_get in H.
  rewrite v0AccountMap_encounters, v0_fold_mergedEntry in H.
  unfold mergedEntry, toBase58 in H. fold es in H.
  destruct (bytes_eqb (cl_payerKey args) a); [injection H as <-; auto|].
  destruct (firstEncounter es a) as [[p|meta]|]; try discriminate;
    injection H as <-; auto.
Qed.

(* ================================================================== *)
(** * Every key a compiled instruction looks up has its index *)
(* ================================================================== *)

Lemma instruction_key_encountered (ixs : list TransactionInstruction)
    (ix : TransactionInstruction) (k : Address) :
  In ix ixs -> In k (instructionKeys ix) ->
  exists e, firstEncounter (encounters ixs) k = Some e.
Proof.
  intros Hix Hk.
  assert (Hin : exists e, In e (encounters ixs) /\ encounterKey e = k).
  { unfold instructionKeys, toBase58 in Hk. simpl in Hk. destruct Hk as [<-|Hk].
    - exists (AsProgram (ix_programId ix)). split; [|reflexivity].
      apply in_flat_map. exists ix. split; [assumption | now left].
    - apply in_map_iff in Hk as (meta & <- & Hmeta).
      exists (AsMeta meta). split; [|reflexivity].
      apply in_flat_map. exists ix. split; [assumption|]. right. now apply in_map. }
  destruct Hin as (e & Hin & Hkey). unfold firstEncounter.
  destruct (find (fun e0 => bytes_eqb (encounterKey e0) k) (encounters ixs)) eqn:F;
    [eauto|].
  exfalso. apply (find_none _ _ F) in Hin. rewrite Hkey, bytes_eqb_refl in Hin.
  discriminate.
Qed.

Lemma v0AccountMap_has_key (lookupMap : JSMap.t LookupInfo) (payerKey : PublicKey)
    (ixs : list TransactionInstruction) (ix : TransactionInstruction) (k : Address) :
  In ix ixs -> In k (instructionKeys ix) ->
  exists e, JSMap.get (v0AccountMap lookupMap payerKey ixs) k = Some e.
Proof.
  intros Hix Hk. rewrite v0AccountMap_encounters, v0_fold_mergedEntry.
  unfold mergedEntry. destruct (bytes_eqb (toBase58 payerKey) k); [eauto|].
  destruct (instruction_key_encountered ixs ix k Hix Hk) as ([p|meta] & ->); eauto.
Qed.

Lemma setIndexes_other (ks : list Address) (m : JSMap.t nat) (start : nat) (k : Address) :
  ~ In k ks -> JSMap.get (setIndexes m ks start) k = JSMap.get m k.
Proof.
  revert m start. induction ks as [|k0 ks IH]; intros m start Hnot; simpl;
    [reflexivity|].
  rewrite IH by (intros H; apply Hnot; now right).
  apply JSMapFacts.get_set_other. intros ->. apply Hnot. now left.
Qed.

Lemma setIndexes_nth (ks : list Address) (m : JSMap.t nat) (start i : nat) (k : Address) :
  NoDup ks -> nth_error ks i = Some k ->
  JSMap.get (setIndexes m ks start) k = Some (start + i).
Proof.
  revert m start i. induction ks as [|k0 ks IH]; intros m start i Hnd Hnth.
  - destruct i; discriminate.
  - inversion Hnd as [|? ? Hnot Hnd']; subst. destruct i as [|i]; simpl in *.
    + injection Hnth as ->. rewrite setIndexes_other by assumption.
      rewrite JSMapFacts.get_set_same. f_equal. lia.
    + rewrite (IH _ _ i Hnd' Hnth). f_equal. lia.
Qed.

Lemma ordered_keys_nodup (A : Type) (sg wr : A -> bool) (key : A -> Address)
    (l : list A) :
  NoDup (map key l) -> NoDup (map key (orderAccounts sg wr l)).
Proof.
  intros Hnd. eapply Permutation_NoDup; [|exact Hnd].
  apply Permutation_map. symmetry. apply orderAccounts_perm.
Qed.

Lemma legacy_values_keys (payerKey : PublicKey) (ixs : list TransactionInstruction) :
  map (fun e => toBase58 (le_pubkey e)) (JSMap.values (legacyAccountMap payerKey ixs))
  = JSMap.keys (legacyAccountMap payerKey ixs).
Proof.
  destruct (legacyAccountMap_inv payerKey ixs) as (_ & Hkey & _).
  unfold JSMap.values, JSMap.keys. rewrite map_map. apply map_ext_in.
  intros kv Hin. rewrite Forall_forall in Hkey. now apply Hkey.
Qed.

Lemma Forall2_map_right (A B : Type) (R : A -> B -> Prop) (f : A -> B) (l : list A) :
  (forall x, In x l -> R x (f x)) -> Forall2 R l (map f l).
Proof.
  induction l as [|x l IH]; intros H; simpl; constructor.
  - apply H. now left.
  - apply IH. intros y Hy. apply H. now right.
Qed.

Lemma legacy_key_index (payerKey : PublicKey) (ixs : list TransactionInstruction)
    (ix : TransactionInstruction) (k : Address) :
  In ix ixs -> In k (instructionKeys ix) ->
  let ordered :=
    orderAccounts le_isSigner le_isWritable
      (JSMap.values (legacyAccountMap payerKey ixs)) in
  let keyIndexMap :=
    setIndexes (JSMap.empty _) (map (fun a => toBase58 (le_pubkey a)) ordered) 0 in
  nth_error (map le_pubkey ordered) (indexOfKey keyIndexMap k) = Some k.
Proof.
  intros Hix Hk ordered keyIndexMap.
  assert (Hnd : NoDup (map (fun a => toBase58 (le_pubkey a)) ordered)).
  { apply ordered_keys_nodup. rewrite legacy_values_keys.
    apply (legacyAccountMap_inv payerKey ixs). }
  assert (Hin : In k (map (fun a => toBase58 (le_pubkey a)) ordered)).
  { destruct (v0AccountMap_has_key (JSMap.empty _) payerKey ixs ix k Hix Hk)
      as (e & Hget).
    assert (Hl : JSMap.get (legacyAccountMap payerKey ixs) k = Some (forgetLookup e))
      by (rewrite (forgetLookups_accountMap (JSMap.empty _)), forgetLookups_get;
          now rewrite Hget).
    pose proof (JSMap_get_key _ (fun e => toBase58 (le_pubkey e)) _ _ _
                  (proj1 (proj2 (legacyAccountMap_inv payerKey ixs))) Hl) as Hkey.
    apply in_map_iff. exists (forgetLookup e). split; [exact Hkey|].
    apply orderAccounts_in. apply in_map_iff.
    exists (k, forgetLookup e). split; [reflexivity|].
    now apply JSMapFacts.get_some_in. }
  apply In_nth_error in Hin as (i & Hi).
  pose proof (setIndexes_nth _ (JSMap.empty nat) 0 i k Hnd Hi) as Hget.
  unfold indexOfKey. fold keyIndexMap in Hget. rewrite Hget. exact Hi.
Qed.

(** The index a legacy compiled instruction holds for its program and for
    each of its accounts is the position of that address among the account
    keys of the message. *)
Lemma Message_compile_indices_defined (payerKey : PublicKey) (blockhash : Blockhash)
    (ixs : list TransactionInstruction) :
  let m := Message_compile_normalized payerKey blockhash ixs in
  Forall2
    (fun ix cix =>
       nth_error (accountKeys m) (ci_programIdIndex cix) = Some (ix_programId ix)
       /\ Forall2 (fun meta i => nth_error (accountKeys m) i = Some (meta_pubkey meta))
            (ix_keys ix) (ci_accounts cix))
    ixs (instructions m).
Proof.
  simpl. apply Forall2_map_right. intros ix Hix. simpl. split.
  - apply (legacy_key_index payerKey ixs ix); [assumption | now left].
  - apply Forall2_map_right. intros meta Hmeta.
    apply (legacy_key_index payerKey ixs ix); [assumption|].
    right. now apply (in_map (fun meta => toBase58 (meta_pubkey meta))).
Qed.

Lemma assignIndexes_next (accs : list AccountEntry) (m : JSMap.t nat) (n : nat) :
  snd (fst (assignIndexes m n accs)) = n + length accs.
Proof.
  revert m n. induction accs as [|acc accs IH]; intros m n; simpl; [lia|].
  specialize (IH (JSMap.set m (toBase58 (pubkey acc)) n) (S n)).
  destruct (assignIndexes _ _ accs) as [[m' n'] idx]. simpl in *. lia.
Qed.

Lemma assignIndexes_get (accs : list AccountEntry) (m : JSMap.t nat) (n : nat)
    (k : Address) :
  (~ In k (map pubkey accs) ->
   JSMap.get (fst (fst (assignIndexes m n accs))) k = JSMap.get m k)
  /\ (In k (map pubkey accs) ->
      exists i, n <= i /\ JSMap.get (fst (fst (assignIndexes m n accs))) k = Some i).
Proof.
  revert m n. induction accs as [|acc accs IH]; intros m n; simpl.
  - split; [reflexivity | intros []].
  - specialize (IH (JSMap.set m (toBase58 (pubkey acc)) n) (S n)).
    destruct (assignIndexes _ _ accs) as [[m' n'] idx]. simpl in *.
    destruct IH as [IHout IHin]. split.
    + intros Hnot. rewrite IHout by tauto.
      apply JSMapFacts.get_set_other. unfold toBase58. tauto.
    + intros Hin.
      destruct (in_dec (list_eq_dec Byte.byte_eq_dec) k (map pubkey accs)) as [Hk|Hk].
      * destruct (IHin Hk) as (i & Hi & Hget). exists i. split; [lia | exact Hget].
      * destruct Hin as [<-|Hin]; [|contradiction].
        rewrite (IHout Hk). unfold toBase58. rewrite JSMapFacts.get_set_same.
        exists n. auto.
Qed.

Lemma buildLookup_get (st : LookupState) (entry : Address * list AccountEntry)
    (k : Address) :
  ls_nextIndex st <= ls_nextIndex (buildLookup st entry)
  /\ (~ In k (map pubkey (snd entry)) ->
      JSMap.get (ls_keyIndexMap (buildLookup st entry)) k
      = JSMap.get (ls_keyIndexMap st) k)
  /\ (In k (map pubkey (snd entry)) ->
      exists i, ls_nextIndex st <= i
                /\ JSMap.get (ls_keyIndexMap (buildLookup st entry)) k = Some i).
Proof.
  destruct entry as [tk data]. unfold buildLookup. simpl.
  pose proof (assignIndexes_next (filter isWritable data)
                (ls_keyIndexMap st) (ls_nextIndex st)) as Hn1.
  pose proof (assignIndexes_get (filter isWritable data)
                (ls_keyIndexMap st) (ls_nextIndex st) k) as [Hout1 Hin1].
  destruct (assignIndexes (ls_keyIndexMap st) (ls_nextIndex st) (filter isWritable data))
    as [[m1 n1] w]. simpl in *.
  pose proof (assignIndexes_next (filter (fun a => negb (isWritable a)) data) m1 n1)
    as Hn2.
  pose proof (assignIndexes_get (filter (fun a => negb (isWritable a)) data) m1 n1 k)
    as [Hout2 Hin2].
  destruct (assignIndexes m1 n1 (filter (fun a => negb (isWritable a)) data))
    as [[m2 n2] r]. simpl in *.
  assert (Hsplit : forall e, In e data ->
                             In e (filter isWritable data)
                             \/ In e (filter (fun a => negb (isWritable a)) data)).
  { intros e He. destruct (isWritable e) eqn:W; [left|right]; apply filter_In;
      rewrite ?W; auto. }
  split; [lia|]. split.
  - intros Hnot.
    rewrite Hout2, Hout1; [reflexivity| |];
      intros H; apply in_map_iff in H as (e & <- & He);
      apply filter_In in He as [He _]; apply Hnot; now apply in_map.
  - intros Hin. apply in_map_iff in Hin as (e & <- & He).
    destruct (in_dec (list_eq_dec Byte.byte_eq_dec) (pubkey e)
                (map pubkey (filter (fun a => negb (isWritable a)) data))) as [Hr|Hr].
    + destruct (Hin2 Hr) as (i & Hi & Hget). exists i. split; [lia | exact Hget].
    + destruct (Hsplit e He) as [Hw|Hw'].
      * destruct (Hin1 (in_map pubkey _ _ Hw)) as (i & Hi & Hget).
        exists i. split; [exact Hi|]. now rewrite (Hout2 Hr).
      * exfalso. apply Hr. now apply in_map.
Qed.

Lemma classic_in_groups (groups : JSMap.t (list AccountEntry)) (k : Address) :
  (exists g, In g groups /\ In k (map pubkey (snd g)))
  \/ (forall g, In g groups -> ~ In k (map pubkey (snd g))).
Proof.
  induction groups as [|g groups [(g' & Hg' & Hk)|Hnone]].
  - right. intros g [].
  - left. exists g'. split; [now right | exact Hk].
  - destruct (in_dec (list_eq_dec Byte.byte_eq_dec) k (map pubkey (snd g))) as [Hk|Hk].
    + left. exists g. split; [now left | exact Hk].
    + right. intros g' [<-|Hg']; [exact Hk | now apply Hnone].
Qed.

Lemma buildLookup_fold_get (groups : JSMap.t (list AccountEntry)) (st : LookupState)
    (k : Address) :
  ((forall g, In g groups -> ~ In k (map pubkey (snd g))) ->
   JSMap.get (ls_keyIndexMap (fold_left buildLookup groups st)) k
   = JSMap.get (ls_keyIndexMap st) k)
  /\ ((exists g, In g groups /\ In k (map pubkey (snd g))) ->
      exists i, ls_nextIndex st <= i
                /\ JSMap.get (ls_keyIndexMap (fold_left buildLookup groups st)) k
                   = Some i).
Proof.
  revert st. induction groups as [|g groups IH]; intros st; simpl.
  - split; [reflexivity | intros (g & [] & _)].
  - destruct (IH (buildLookup st g)) as [IHout IHin].
    destruct (buildLookup_get st g k) as (Hn & Hout & Hin). split.
    + intros Hnot. rewrite IHout by (intros g' Hg'; apply Hnot; now right).
      apply Hout. apply Hnot. now left.
    + intros (g' & Hg' & Hk).
      destruct (classic_in_groups groups k) as [Hlater|Hnone].
      * destruct (IHin Hlater) as (i & Hi & Hget). exists i. split; [lia | exact Hget].
      * destruct Hg' as [<-|Hg']; [|exfalso; apply (Hnone g' Hg' Hk)].
        destruct (Hin Hk) as (i & Hi & Hget). exists i. split; [exact Hi|].
        now rewrite (proj1 (IH (buildLookup st g)) Hnone).
Qed.

Lemma v0_group_accounts (args : CompileV0Args) (g : Address * list AccountEntry)
    (e : AccountEntry) :
  In g (fold_left groupAccount (lookupAccountsOf (JSMap.values (v0FinalMap args)))
          (JSMap.empty _)) ->
  In e (snd g) ->
  JSMap.get (v0FinalMap args) (pubkey e) = Some e /\ fromLookup e <> None.
Proof.
  destruct g as [k data]. simpl. intros Hg He.
  apply JSMapFacts.in_get in Hg;
    [|apply groupAccount_nodup; simpl; constructor].
  rewrite groupAccount_get in Hg. unfold groupOf in Hg.
  assert (Hdata : data = filter (inTable k)
                           (lookupAccountsOf (JSMap.values (v0FinalMap args))))
    by (destruct (filter _ _); [discriminate | congruence]).
  rewrite Hdata in He. apply filter_In in He as [He _].
  apply filter_In in He as [He Hf]. split.
  - now apply v0FinalMap_values_get.
  - intros Hnone. now rewrite Hnone in Hf.
Qed.

Lemma v0_static_keys_nodup (args : CompileV0Args) :
  NoDup (map (fun a => toBase58 (pubkey a))
           (orderAccounts isSigner isWritable
              (staticAccountsOf (JSMap.values (v0FinalMap args))))).
Proof.
  apply ordered_keys_nodup.
  destruct (v0AccountMap_inv (buildLookupMap (tablesOf args)) (cv_payerKey args)
              (normalizedInstructions (cv_instructions args))) as (Hnd & Hkey & _).
  fold (v0FinalMap args) in Hnd, Hkey.
  assert (Hkeys : map (fun a => toBase58 (pubkey a)) (JSMap.values (v0FinalMap args))
                  = JSMap.keys (v0FinalMap args)).
  { unfold JSMap.values, JSMap.keys. rewrite map_map. apply map_ext_in.
    intros kv Hin. rewrite Forall_forall in Hkey. now apply Hkey. }
  rewrite <- Hkeys in Hnd. unfold staticAccountsOf.
  generalize dependent (JSMap.values (v0FinalMap args)). clear.
  intros l Hnd _. induction l as [|x l IH]; simpl; [constructor|].
  inversion Hnd as [|? ? Hnot Hnd']; subst.
  destruct (negb (isSome (fromLookup x))); simpl; [|now apply IH].
  constructor; [|now apply IH].
  intros Hin. apply Hnot. apply in_map_iff in Hin as (y & Hy & Hin).
  apply filter_In in Hin as [Hin _]. apply in_map_iff. eauto.
Qed.

(** The index the versioned compiler gives a key of an instruction: the
    position of the address among the static account keys, or, for an account
    taken from a lookup table, an index past the static accounts. *)
Lemma v0_key_index (args : CompileV0Args) (m : MessageV0)
    (ix : TransactionInstruction) (k : Address) :
  MessageV0_compile args = Ok m ->
  let ixs := normalizedInstructions (cv_instructions args) in
  In ix ixs -> In k (instructionKeys ix) ->
  exists i,
    JSMap.get (v0KeyIndexMap (tablesOf args) (cv_payerKey args) ixs) k = Some i
    /\ (nth_error (staticAccountKeys m) i = Some k
        \/ (length (staticAccountKeys m) <= i /\ ~ In k (staticAccountKeys m))).
Proof.
  intros Hm ixs Hix Hk. subst ixs.
  pose proof (v0_static_in args m k Hm) as Hstatic.
  apply MessageV0_compile_ok in Hm. subst m.
  unfold v0KeyIndexMap. cbv zeta.
  change (staticAccountKeys
            (MessageV0_compile_normalized (tablesOf args) (cv_payerKey args)
               (cv_recentBlockhash args)
               (normalizedInstructions (cv_instructions args))))
    with (map pubkey
            (orderAccounts isSigner isWritable
               (staticAccountsOf (JSMap.values (v0FinalMap args))))) in *.
  fold (v0FinalMap args) in *.
  set (accounts := JSMap.values (v0FinalMap args)) in *.
  set (ordered := orderAccounts isSigner isWritable (staticAccountsOf accounts)) in *.
  match goal with
  | |- context [fold_left buildLookup ?g ?s] => set (groups := g); set (st0 := s)
  end.
  destruct (v0AccountMap_has_key (buildLookupMap (tablesOf args)) (cv_payerKey args)
              _ ix k Hix Hk) as (e & Hget).
  fold (v0FinalMap args) in Hget.
  pose proof (v0FinalMap_get_key _ _ _ Hget) as Hkey.
  destruct (buildLookup_fold_get groups st0 k) as [Hout Hin].
  destruct (fromLookup e) as [info|] eqn:F.
  - assert (Hgroup : exists g, In g groups /\ In k (map pubkey (snd g))).
    { set (tk := toBase58 (tableKey info)).
      assert (He : In e (filter (inTable tk) (lookupAccountsOf accounts))).
      { apply filter_In. split.
        - apply filter_In. split; [|now rewrite F].
          apply v0FinalMap_values_get. now rewrite Hkey.
        - unfold inTable, tableKeyOf. rewrite F. simpl. apply bytes_eqb_refl. }
      assert (Hg : JSMap.get groups tk
                   = Some (filter (inTable tk) (lookupAccountsOf accounts))).
      { unfold groups. rewrite groupAccount_get. unfold groupOf.
        destruct (filter (inTable tk) (lookupAccountsOf accounts));
          [destruct He | reflexivity]. }
      apply JSMapFacts.get_some_in in Hg. eexists. split; [exact Hg|].
      simpl. rewrite <- Hkey. now apply in_map. }
    destruct (Hin Hgroup) as (i & Hi & Hgeti). exists i. split; [exact Hgeti|].
    right. simpl in Hi. rewrite length_map. split; [exact Hi|].
    intros Hs. apply Hstatic in Hs as (e' & Hget' & F'). congruence.
  - assert (Hks : In k (map (fun a => toBase58 (pubkey a)) ordered)).
    { apply in_map_iff. exists e. split; [exact Hkey|].
      apply orderAccounts_in. apply filter_In. split; [|now rewrite F].
      apply v0FinalMap_values_get. now rewrite Hkey. }
    apply In_nth_error in Hks as (i & Hi).
    pose proof (setIndexes_nth _ (JSMap.empty nat) 0 i k
                  (v0_static_keys_nodup args) Hi) as Hget0.
    exists i. split; [|left; exact Hi].
    rewrite Hout; [exact Hget0|].
    intros g Hg Hkg. apply in_map_iff in Hkg as (e' & He' & Hin').
    destruct (v0_group_accounts args g e' Hg Hin') as [Hget' Hf'].
    rewrite He' in Hget'. congruence.
Qed.

Lemma MessageV0_compile_indices_defined (args : CompileV0Args) (m : MessageV0) :
  MessageV0_compile args = Ok m ->
  let ixs := normalizedInstructions (cv_instructions args) in
  let points i k :=
    nth_error (staticAccountKeys m) i = Some k
    \/ (length (staticAccountKeys m) <= i /\ ~ In k (staticAccountKeys m)) in
  Forall2
    (fun ix cix =>
       points (mci_programIdIndex cix) (ix_programId ix)
       /\ Forall2 (fun meta i => points i (meta_pubkey meta))
            (ix_keys ix) (accountKeyIndexes cix))
    ixs (compiledInstructions m).
Proof.
  intros Hm ixs points. unfold ixs in *. clear ixs.
  set (ixs := normalizedInstructions (cv_instructions args)).
  assert (Hkey : forall ix k, In ix ixs -> In k (instructionKeys ix) ->
                   points (indexOfKey
                             (v0KeyIndexMap (tablesOf args) (cv_payerKey args) ixs) k) k).
  { intros ix k Hix Hk.
    destruct (v0_key_index args m ix k Hm Hix Hk) as (i & Hget & Hp).
    unfold indexOfKey. fold ixs in Hget. rewrite Hget. exact Hp. }
  apply MessageV0_compile_ok in Hm.
  assert (Hci : compiledInstructions m
                = map (compileV0Instruction
                         (v0KeyIndexMap (tablesOf args) (cv_payerKey args) ixs)) ixs)
    by (subst m; reflexivity).
  rewrite Hci. apply Forall2_map_right. intros ix Hix. simpl. split.
  - apply (Hkey ix); [assumption | now left].
  - apply Forall2_map_right. intros meta Hmeta. apply (Hkey ix); [assumption|].
    right. now apply (in_map (fun meta => toBase58 (meta_pubkey meta))).
Qed.

(* ================================================================== *)
(** * Base-64 text and the wire codec read back what they wrote *)
(* ================================================================== *)

Lemma list_ind3 {A} (P : list A -> Prop) :
  P [] -> (forall a, P [a]) -> (forall a b, P [a; b]) ->
  (forall a b c l, P l -> P (a :: b :: c :: l)) ->
  forall l, P l.
Proof.
  intros H0 H1 H2 H3 l.
  assert (H : P l /\ (forall a, P (a :: l)) /\ (forall a b, P (a :: b :: l))).
  { induction l as [|x l (IH0 & IH1 & IH2)]; auto. }
  apply H.
Qed.

Lemma b64_value_char (v : nat) : v < 64 -> b64_value (b64_char v) = Some v.
Proof.
  intros H. do 64 (destruct v as [|v]; [reflexivity|]). exfalso. lia.
Qed.

Lemma b64_values_chars (sx : list nat) (pad : list ascii) :
  Forall (fun v => v < 64) sx ->
  b64_values pad = [] ->
  b64_values (map b64_char sx ++ pad) = sx.
Proof.
  intros Hsx Hpad. induction Hsx as [|v sx Hv _ IH]; simpl; [exact Hpad|].
  now rewrite b64_value_char, IH.
Qed.

Lemma b64_padding_values (n : nat) : b64_values (b64_padding n) = [].
Proof.
  unfold b64_padding. destruct (n mod 3) as [|[|[|k]]]; reflexivity.
Qed.

Ltac forall_cons :=
  repeat (apply Forall_cons; [try lia|]); try apply Forall_nil.

Lemma to_sextets_bound (l : list nat) :
  Forall (fun v => v < 256) l -> Forall (fun v => v < 64) (to_sextets l).
Proof.
  induction l as [|a|a b|a b c l IH] using list_ind3; intros H; cbn [to_sextets].
  - constructor.
  - inversion H; subst. forall_cons.
  - inversion H as [|? ? Ha H']; subst. inversion H' as [|? ? Hb _]; subst.
    forall_cons.
  - inversion H as [|? ? Ha H']; subst. inversion H' as [|? ? Hb H'']; subst.
    inversion H'' as [|? ? Hc Hl]; subst.
    forall_cons. now apply IH.
Qed.

Lemma from_to_sextets (l : list nat) :
  Forall (fun v => v < 256) l -> from_sextets (to_sextets l) = l.
Proof.
  induction l as [|a|a b|a b c l IH] using list_ind3; intros H.
  - reflexivity.
  - inversion H; subst. cbn [to_sextets from_sextets]. f_equal. lia.
  - inversion H as [|? ? Ha H']; subst. inversion H' as [|? ? Hb _]; subst.
    cbn [to_sextets from_sextets]. f_equal; [lia|]. f_equal. lia.
  - inversion H as [|? ? Ha H']; subst. inversion H' as [|? ? Hb H'']; subst.
    inversion H'' as [|? ? Hc Hl]; subst.
    cbn [to_sextets from_sextets]. rewrite (IH Hl).
    f_equal; [lia|]. f_equal; [lia|]. f_equal. lia.
Qed.

Lemma byte_of_to_nat (b : byte) : byte_of_nat (Byte.to_nat b) = b.
Proof.
  unfold byte_of_nat. pose proof (Byte.to_nat_bounded b).
  rewrite Nat.mod_small by lia. now rewrite Byte.of_to_nat.
Qed.

(** Decoding the base-64 text of a buffer gives the buffer back. *)
Lemma fromBase64_toBase64 (buf : bytes) : fromBase64 (toBase64 buf) = buf.
Proof.
  unfold fromBase64, toBase64.
  assert (Hb : Forall (fun v => v < 256) (map Byte.to_nat buf)).
  { apply Forall_forall. intros v Hv. apply in_map_iff in Hv as (b & <- & _).
    pose proof (Byte.to_nat_bounded b). lia. }
  rewrite list_ascii_of_string_of_list_ascii.
  rewrite b64_values_chars by
    (auto using to_sextets_bound, b64_padding_values).
  rewrite from_to_sextets by assumption.
  rewrite map_map. rewrite <- (map_id buf) at 2.
  apply map_ext. apply byte_of_to_nat.
Qed.

Module WireFacts.
Import Wire.

Lemma codecOk_u8 (n : nat) : fitsU8 n = true -> codecOk encodeU8 decodeU8 n.
Proof.
  unfold fitsU8. intros H. apply Nat.leb_le in H.
  destruct (Byte.of_nat n) as [b|] eqn:E.
  - exists [b]. split; [unfold encodeU8; now rewrite E|]. intros rest. simpl.
    apply Byte.to_of_nat in E. now rewrite E.
  - apply Byte.of_nat_None_iff in E. lia.
Qed.

Lemma encodeU8_head (n : nat) (e : bytes) :
  encodeU8 n = Some e -> exists b, e = [b] /\ Byte.to_nat b = n.
Proof.
  unfold encodeU8. destruct (Byte.of_nat n) as [b|] eqn:E; simpl; [|discriminate].
  intros H. injection H as <-. exists b. split; [reflexivity|].
  now apply Byte.to_of_nat.
Qed.

Lemma codecOk_byte (b : byte) : codecOk encodeByte decodeByte b.
Proof. exists [b]. split; [reflexivity|]. reflexivity. Qed.

Lemma codecOk_fixed (n : nat) (b : bytes) :
  length b = n -> codecOk (encodeFixed n) (decodeFixed n) b.
Proof.
  intros <-. exists b. unfold encodeFixed, decodeFixed.
  rewrite Nat.eqb_refl. split; [reflexivity|]. intros rest.
  rewrite length_app.
  replace (length b <=? length b + length rest) with true
    by (symmetry; apply Nat.leb_le; lia).
  rewrite firstn_app, skipn_app, firstn_all, skipn_all, Nat.sub_diag.
  simpl. now rewrite app_nil_r.
Qed.

Lemma to_N_byte_of_N (v : N) : Byte.to_N (byte_of_N v) = (v mod 256)%N.
Proof.
  unfold byte_of_N. destruct (Byte.of_N (v mod 256)) as [b|] eqn:E.
  - now apply Byte.to_of_N.
  - apply Byte.of_N_None_iff in E. lia.
Qed.

Lemma codecOk_shortU16 (n : nat) :
  fitsLength n = true -> codecOk encodeShortU16 decodeShortU16 n.
Proof.
  unfold fitsLength. intros H. apply N.ltb_lt in H.
  unfold codecOk, encodeShortU16. cbv zeta.
  remember (N.of_nat n) as v eqn:Hv.
  assert (Hn : n = N.to_nat v) by lia.
  destruct (N.ltb_spec v 128) as [H1|H1];
    [|destruct (N.ltb_spec v 16384) as [H2|H2];
      [|destruct (N.ltb_spec v 65536) as [H3|H3]; [|lia]]];
    eexists; (split; [reflexivity|]); intros rest; cbn [app decodeShortU16];
    rewrite ?to_N_byte_of_N.
  - destruct (N.ltb_spec (v mod 256) 128); [|lia].
    rewrite Hn. do 2 f_equal. lia.
  - destruct (N.ltb_spec ((128 + v mod 128) mod 256) 128); [lia|].
    destruct (N.ltb_spec ((v / 128) mod 256) 128); [|lia].
    rewrite Hn. do 2 f_equal. lia.
  - destruct (N.ltb_spec ((128 + v mod 128) mod 256) 128); [lia|].
    destruct (N.ltb_spec ((128 + (v / 128) mod 128) mod 256) 128); [lia|].
    rewrite Hn. do 2 f_equal. lia.
Qed.

Section Arrays.
Variable A : Type.
Variable enc : A -> option bytes.
Variable dec : Decoder A.

Lemma codecOk_all (l : list A) :
  Forall (codecOk enc dec) l ->
  exists e, encodeAll enc l = Some e
            /\ forall rest, decodeN dec (length l) (e ++ rest) = Some (l, rest).
Proof.
  induction 1 as [|x l (ex & Ex & Dx) _ (el & El & Dl)]; simpl.
  - exists []. auto.
  - rewrite Ex, El. simpl. exists (ex ++ el). split; [reflexivity|].
    intros rest. rewrite <- app_assoc, Dx. simpl. now rewrite Dl.
Qed.

Lemma codecOk_array (l : list A) :
  fitsLength (length l) = true ->
  Forall (codecOk enc dec) l ->
  codecOk (encodeArray enc) (decodeArray dec) l.
Proof.
  intros Hlen Hall.
  destruct (codecOk_shortU16 _ Hlen) as (en & En & Dn).
  destruct (codecOk_all _ Hall) as (el & El & Dl).
  unfold codecOk, encodeArray, decodeArray. rewrite En, El. simpl.
  exists (en ++ el). split; [reflexivity|].
  intros rest. rewrite <- app_assoc, Dn. simpl. apply Dl.
Qed.
End Arrays.

Lemma codecOk_u8_array (l : list nat) :
  fitsLength (length l) = true -> forallb fitsU8 l = true ->
  codecOk (encodeArray encodeU8) (decodeArray decodeU8) l.
Proof.
  intros Hlen Hall. apply codecOk_array; [assumption|].
  apply Forall_forall. intros n Hn. apply codecOk_u8.
  rewrite forallb_forall in Hall. now apply Hall.
Qed.

Lemma codecOk_bytes (d : bytes) :
  fitsLength (length d) = true ->
  codecOk (encodeArray encodeByte) (decodeArray decodeByte) d.
Proof.
  intros Hlen. apply codecOk_array; [assumption|].
  apply Forall_forall. intros b _. apply codecOk_byte.
Qed.

Lemma codecOk_addresses (l : list Address) :
  fitsLength (length l) = true -> forallb is32 l = true ->
  codecOk (encodeArray (encodeFixed 32)) (decodeArray (decodeFixed 32)) l.
Proof.
  intros Hlen Hall. apply codecOk_array; [assumption|].
  apply Forall_forall. intros a Ha. apply codecOk_fixed.
  rewrite forallb_forall in Hall. apply Nat.eqb_eq. now apply Hall.
Qed.

(** Three fields in a row. *)
Ltac three_fields E1 E2 E3 :=
  match type of E1 with
  | codecOk _ _ _ =>
      let e1 := fresh "e" in let e2 := fresh "e" in let e3 := fresh "e" in
      let X1 := fresh "X" in let X2 := fresh "X" in let X3 := fresh "X" in
      let D1 := fresh "D" in let D2 := fresh "D" in let D3 := fresh "D" in
      destruct E1 as (e1 & X1 & D1); destruct E2 as (e2 & X2 & D2);
      destruct E3 as (e3 & X3 & D3);
      exists (e1 ++ e2 ++ e3); split;
      [cbv beta delta [obind] iota; simpl; rewrite X1; simpl; rewrite X2; simpl;
       rewrite X3; reflexivity
      |intros rest; rewrite <- !app_assoc; rewrite D1; simpl; rewrite D2; simpl;
       rewrite D3; reflexivity]
  end.

Lemma codecOk_header (h : Header) :
  fitsU8 (numSignerAccounts h) = true ->
  fitsU8 (numReadonlySignerAccounts h) = true ->
  fitsU8 (numReadonlyNonSignerAccounts h) = true ->
  codecOk encodeHeader decodeHeader h.
Proof.
  intros H1 H2 H3. apply codecOk_u8 in H1, H2, H3.
  destruct h as [c b a]. unfold codecOk, encodeHeader, decodeHeader. simpl in *.
  three_fields H1 H2 H3.
Qed.

Lemma codecOk_ix (a : list nat) (d : bytes) (p : nat) :
  fitsU8 p = true ->
  fitsLength (length a) = true -> forallb fitsU8 a = true ->
  fitsLength (length d) = true ->
  codecOk encodeIx decodeIx
    {| accountIndices := Some a; data := Some d; programAddressIndex := p |}.
Proof.
  intros Hp Hla Ha Hd. apply codecOk_u8 in Hp.
  pose proof (codecOk_u8_array _ Hla Ha) as Ha'.
  pose proof (codecOk_bytes _ Hd) as Hd'.
  unfold codecOk, encodeIx, decodeIx. simpl.
  three_fields Hp Ha' Hd'.
Qed.

Lemma codecOk_lookup (t : Address) (w r : list nat) :
  is32 t = true ->
  fitsLength (length w) = true -> forallb fitsU8 w = true ->
  fitsLength (length r) = true -> forallb fitsU8 r = true ->
  codecOk encodeLookup decodeLookup
    {| lookupTableAddress := t; lk_readonlyIndexes := r; lk_writableIndexes := w |}.
Proof.
  intros Ht Hlw Hw Hlr Hr. apply Nat.eqb_eq in Ht.
  pose proof (codecOk_fixed 32 t Ht) as Ht'.
  pose proof (codecOk_u8_array _ Hlw Hw) as Hw'.
  pose proof (codecOk_u8_array _ Hlr Hr) as Hr'.
  unfold codecOk, encodeLookup, decodeLookup. simpl.
  three_fields Ht' Hw' Hr'.
Qed.

End WireFacts.

(* ================================================================== *)
(** * Round trip of compiled messages *)
(* ================================================================== *)

Section BodyRoundTrip.
Import Wire.
Variable cm : CompiledMessage.
Hypothesis header_ok : codecOk encodeHeader decodeHeader (cm_header cm).
Hypothesis accounts_ok :
  codecOk (encodeArray (encodeFixed 32)) (decodeArray (decodeFixed 32))
    (cm_staticAccounts cm).
Hypothesis token_ok : codecOk (encodeFixed 32) (decodeFixed 32) (cm_lifetimeToken cm).
Hypothesis instructions_ok :
  codecOk (encodeArray encodeIx) (decodeArray decodeIx) (cm_instructions cm).

Lemma encodeHeader_head (h : Header) (e : bytes) :
  encodeHeader h = Some e ->
  exists b0 tl, e = b0 :: tl /\ Byte.to_nat b0 = numSignerAccounts h.
Proof.
  unfold encodeHeader.
  destruct (encodeU8 (numSignerAccounts h)) as [a|] eqn:Ea; simpl; [|discriminate].
  destruct (encodeU8 (numReadonlySignerAccounts h)) as [b|]; simpl; [|discriminate].
  destruct (encodeU8 (numReadonlyNonSignerAccounts h)) as [c|]; simpl; [|discriminate].
  intros H. injection H as <-.
  apply WireFacts.encodeU8_head in Ea as (b0 & -> & Hb0). simpl. eauto.
Qed.

Lemma encodeBody_decode :
  exists e,
    encodeBody cm = Some e
    /\ (exists b0 tl, e = b0 :: tl
                      /\ Byte.to_nat b0 = numSignerAccounts (cm_header cm))
    /\ (forall v rest,
           decodeBody v false (e ++ rest)
           = Some ({| cm_addressTableLookups := None;
                      cm_header := cm_header cm;
                      cm_instructions := cm_instructions cm;
                      cm_lifetimeToken := cm_lifetimeToken cm;
                      cm_staticAccounts := cm_staticAccounts cm;
                      cm_version := v |}, rest))
    /\ (forall v l el rest,
           (forall rest', decodeArray decodeLookup (el ++ rest') = Some (l, rest')) ->
           decodeBody v true (e ++ el ++ rest)
           = Some ({| cm_addressTableLookups := Some l;
                      cm_header := cm_header cm;
                      cm_instructions := cm_instructions cm;
                      cm_lifetimeToken := cm_lifetimeToken cm;
                      cm_staticAccounts := cm_staticAccounts cm;
                      cm_version := v |}, rest)).
Proof.
  destruct header_ok as (eh & Xh & Dh). destruct accounts_ok as (ea & Xa & Da).
  destruct token_ok as (et & Xt & Dt). destruct instructions_ok as (ei & Xi & Di).
  exists (eh ++ ea ++ et ++ ei). unfold encodeBody. rewrite Xh, Xa, Xt, Xi. simpl.
  split; [reflexivity|]. split.
  - destruct (encodeHeader_head _ _ Xh) as (b0 & tl & -> & Hb0). simpl. eauto.
  - split.
    + intros v rest. unfold decodeBody. rewrite <- !app_assoc.
      rewrite Dh. simpl. rewrite Da. simpl. rewrite Dt. simpl. rewrite Di. reflexivity.
    + intros v l el rest Dl. unfold decodeBody. rewrite <- !app_assoc.
      rewrite Dh. simpl. rewrite Da. simpl. rewrite Dt. simpl. rewrite Di. simpl.
      rewrite Dl. reflexivity.
Qed.
End BodyRoundTrip.

Lemma andb_split (a b : bool) : a && b = true -> a = true /\ b = true.
Proof. apply andb_true_iff. Qed.

Lemma header_round_trip (h : MessageHeader) : fromKitHeader (toKitHeader h) = h.
Proof. now destruct h. Qed.

(** A legacy message that fits the wire fields, requires fewer than 128
    signatures and carries canonical base-64 data is read back as it is. *)
Lemma Message_roundTrip_fits (m : Message) :
  legacyFitsWire m = true ->
  Forall (fun ix => exists d, ci_data ix = toBase64 d) (instructions m) ->
  Message_roundTrip m = Ok m.
Proof.
  intros Hfits Hcanon. unfold legacyFitsWire in Hfits.
  apply andb_split in Hfits as [Hfits Hixs].
  apply andb_split in Hfits as [Hfits Hnix].
  apply andb_split in Hfits as [Hfits Htoken].
  apply andb_split in Hfits as [Hfits Hkeys].
  apply andb_split in Hfits as [Hfits Hnkeys].
  apply andb_split in Hfits as [Hsig Hheader].
  unfold headerFits in Hheader.
  apply andb_split in Hheader as [Hheader Hh3].
  apply andb_split in Hheader as [Hh1 Hh2].
  set (cm := Message_compiledMessage m).
  assert (Hcm_h : codecOk Wire.encodeHeader Wire.decodeHeader (Wire.cm_header cm))
    by (apply WireFacts.codecOk_header; assumption).
  assert (Hcm_a : codecOk (Wire.encodeArray (Wire.encodeFixed 32))
                    (Wire.decodeArray (Wire.decodeFixed 32)) (Wire.cm_staticAccounts cm)).
  { simpl. unfold toAddress. rewrite map_id.
    now apply WireFacts.codecOk_addresses. }
  assert (Hcm_t : codecOk (Wire.encodeFixed 32) (Wire.decodeFixed 32)
                    (Wire.cm_lifetimeToken cm))
    by (apply WireFacts.codecOk_fixed; now apply Nat.eqb_eq).
  assert (Hcm_i : codecOk (Wire.encodeArray Wire.encodeIx)
                    (Wire.decodeArray Wire.decodeIx) (Wire.cm_instructions cm)).
  { simpl. apply WireFacts.codecOk_array; [now rewrite length_map|].
    apply Forall_forall. intros kix Hk. apply in_map_iff in Hk as (ix & <- & Hix).
    rewrite forallb_forall in Hixs. specialize (Hixs ix Hix).
    apply andb_split in Hixs as [Hixs Hd]. apply andb_split in Hixs as [Hixs Ha].
    apply andb_split in Hixs as [Hp Hla].
    now apply WireFacts.codecOk_ix. }
  destruct (encodeBody_decode cm Hcm_h Hcm_a Hcm_t Hcm_i)
    as (e & He & (b0 & tl & Hhd & Hb0) & Hdec & _).
  unfold Message_roundTrip, Message_serialize. fold cm.
  unfold Wire.encodeCompiledMessage. change (Wire.cm_version cm) with Wire.Legacy.
  rewrite He. simpl. unfold Message_from, Wire.decodeCompiledMessage.
  rewrite Hhd. rewrite Hb0. simpl Wire.numSignerAccounts.
  replace (numRequiredSignatures (header m) <? 128) with true
    by (symmetry; apply Nat.ltb_lt; apply Nat.leb_le in Hsig; lia).
  rewrite <- Hhd, <- (app_nil_r e), Hdec. simpl.
  destruct m as [h keys bh ixs]. simpl in *. f_equal. f_equal.
  - apply header_round_trip.
  - unfold fromAddress, toAddress. now rewrite !map_id.
  - rewrite map_map. rewrite <- (map_id ixs) at 2. apply map_ext_in.
    intros ix Hix. rewrite Forall_forall in Hcanon.
    destruct (Hcanon ix Hix) as (d & Hd). destruct ix as [a s p]. simpl in *.
    subst s. now rewrite fromBase64_toBase64.
Qed.

(** A versioned message that fits the wire fields is read back as it is. *)
Lemma MessageV0_roundTrip_fits (m : MessageV0) :
  v0FitsWire m = true -> MessageV0_roundTrip m = Ok m.
Proof.
  intros Hfits. unfold v0FitsWire in Hfits.
  apply andb_split in Hfits as [Hfits Hlks].
  apply andb_split in Hfits as [Hfits Hnlk].
  apply andb_split in Hfits as [Hfits Hixs].
  apply andb_split in Hfits as [Hfits Hnix].
  apply andb_split in Hfits as [Hfits Htoken].
  apply andb_split in Hfits as [Hfits Hkeys].
  apply andb_split in Hfits as [Hheader Hnkeys].
  unfold headerFits in Hheader.
  apply andb_split in Hheader as [Hheader Hh3].
  apply andb_split in Hheader as [Hh1 Hh2].
  set (cm := MessageV0_compiledMessage m).
  assert (Hcm_h : codecOk Wire.encodeHeader Wire.decodeHeader (Wire.cm_header cm))
    by (apply WireFacts.codecOk_header; assumption).
  assert (Hcm_a : codecOk (Wire.encodeArray (Wire.encodeFixed 32))
                    (Wire.decodeArray (Wire.decodeFixed 32)) (Wire.cm_staticAccounts cm)).
  { simpl. unfold toAddress. rewrite map_id.
    now apply WireFacts.codecOk_addresses. }
  assert (Hcm_t : codecOk (Wire.encodeFixed 32) (Wire.decodeFixed 32)
                    (Wire.cm_lifetimeToken cm))
    by (apply WireFacts.codecOk_fixed; now apply Nat.eqb_eq).
  assert (Hcm_i : codecOk (Wire.encodeArray Wire.encodeIx)
                    (Wire.decodeArray Wire.decodeIx) (Wire.cm_instructions cm)).
  { simpl. apply WireFacts.codecOk_array; [now rewrite length_map|].
    apply Forall_forall. intros kix Hk. apply in_map_iff in Hk as (ix & <- & Hix).
    rewrite forallb_forall in Hixs. specialize (Hixs ix Hix).
    apply andb_split in Hixs as [Hixs Hd]. apply andb_split in Hixs as [Hixs Ha].
    apply andb_split in Hixs as [Hp Hla].
    now apply WireFacts.codecOk_ix. }
  assert (Hcm_l : codecOk (Wire.encodeArray Wire.encodeLookup)
                    (Wire.decodeArray Wire.decodeLookup)
                    (Wire.orEmpty (Wire.cm_addressTableLookups cm))).
  { simpl. apply WireFacts.codecOk_array; [now rewrite length_map|].
    apply Forall_forall. intros kl Hk. apply in_map_iff in Hk as (l & <- & Hl).
    rewrite forallb_forall in Hlks. specialize (Hlks l Hl).
    apply andb_split in Hlks as [Hlks Hr]. apply andb_split in Hlks as [Hlks Hlr].
    apply andb_split in Hlks as [Hlks Hw]. apply andb_split in Hlks as [Ht Hlw].
    now apply WireFacts.codecOk_lookup. }
  destruct (encodeBody_decode cm Hcm_h Hcm_a Hcm_t Hcm_i)
    as (e & He & _ & _ & Hdec).
  destruct Hcm_l as (el & Hel & Dl).
  unfold MessageV0_roundTrip, MessageV0_serialize. fold cm.
  unfold Wire.encodeCompiledMessage. change (Wire.cm_version cm) with Wire.V0.
  rewrite He. cbn [Wire.obind]. rewrite Hel. cbn [Wire.obind ofCodec bind].
  unfold MessageV0_deserialize, Wire.decodeCompiledMessage.
  change (Byte.to_nat x80 <? 128) with false.
  change (Byte.to_nat x80 - 128 =? 0) with true. cbv iota.
  rewrite <- (app_nil_r (e ++ el)), <- app_assoc.
  rewrite (Hdec Wire.V0 _ el [] Dl). simpl.
  destruct m as [h keys bh ixs lks]. simpl in *. f_equal. f_equal.
  - apply header_round_trip.
  - unfold fromAddress, toAddress. now rewrite !map_id.
  - rewrite map_map. rewrite <- (map_id ixs) at 2. apply map_ext.
    now intros [a d p].
  - rewrite map_map. rewrite <- (map_id lks) at 2. apply map_ext.
    now intros [k r w].
Qed.

Lemma Message_compile_canonical_data (args : CompileLegacyArgs) (m : Message) :
  Message_compile args = Ok m ->
  Forall (fun ix => exists d, ci_data ix = toBase64 d) (instructions m).
Proof.
  intros Hm. apply Message_compile_ok in Hm. subst m. simpl.
  apply Forall_forall. intros cix Hin. apply in_map_iff in Hin as (ix & <- & _).
  simpl. eauto.
Qed.

(** C6, on a legacy compilation with 128 signers: every header count fits one
    byte, but byte 0 of the encoding is 0x80, the decoder takes it for the
    marker of version 0, and the message read back is another message. *)
Lemma Message_roundTrip_128_signers :
  exists m,
    Message_compile SampleWire.manySigners = Ok m
    /\ numRequiredSignatures (header m) = 128
    /\ headerFits (header m) = true
    /\ Message_roundTrip m <> Ok m.
Proof.
  eexists. split; [reflexivity|]. split; [reflexivity|]. split; [reflexivity|].
  intros H.
  apply (f_equal (fun r => match r with
                           | Ok m' => numRequiredSignatures (header m')
                           | Err _ => 0
                           end)) in H.
  vm_compute in H. discriminate H.
Qed.

(** C6, amended.  A compiled message whose values fit the fields of the
    wire layout is read back from its own encoding field for field: a legacy
    message that moreover requires at most 127 signatures by [Message.from],
    and a versioned message, with its address table lookups, by
    [MessageV0.deserialize]. *)
Theorem compiled_message_round_trip :
  (forall args m,
      Message_compile args = Ok m -> legacyFitsWire m = true ->
      Message_roundTrip m = Ok m)
  /\ (forall args m,
         MessageV0_compile args = Ok m -> v0FitsWire m = true ->
         MessageV0_roundTrip m = Ok m).
Proof.
  split.
  - intros args m Hm Hfits. apply Message_roundTrip_fits; [assumption|].
    eapply Message_compile_canonical_data; eassumption.
  - intros args m _ Hfits. now apply MessageV0_roundTrip_fits.
Qed.

(** The samples [mixedLegacy] and [twoTables] read back from their encodings. *)
Lemma compiled_message_round_trip_witness :
  (exists m, Message_compile SampleCompile.mixedLegacy = Ok m
             /\ Message_roundTrip m = Ok m)
  /\ (exists m, MessageV0_compile SampleCompile.twoTables = Ok m
                /\ MessageV0_roundTrip m = Ok m).
Proof.
  split.
  - eexists. split; [reflexivity|].
    apply (proj1 compiled_message_round_trip SampleCompile.mixedLegacy);
      [reflexivity | vm_compute; reflexivity].
  - eexists. split; [reflexivity|].
    apply (proj2 compiled_message_round_trip SampleCompile.twoTables);
      [reflexivity | vm_compute; reflexivity].
Defined.

(* ================================================================== *)
(** * The query interface on compiled messages *)
(* ================================================================== *)

Section OrderedIndex.
Variable A : Type.
Variables sg wr : A -> bool.

Lemma filter_nth_holds (p : A -> bool) (l : list A) (i : nat) (a : A) :
    nth_error (filter p l) i = Some a -> p a = true.
Proof.
    intros H. apply nth_error_In in H. apply filter_In in H. tauto.
Qed.

  (** The header counts stay inside the ordered accounts. *)
Lemma buildHeader_bounds (l : list A) :
    numReadonlySignedAccounts (buildHeader sg wr l)
    <= numRequiredSignatures (buildHeader sg wr l)
    /\ numRequiredSignatures (buildHeader sg wr l)
       + numReadonlyUnsignedAccounts (buildHeader sg wr l)
       <= length (orderAccounts sg wr l).
Proof.
    unfold buildHeader, orderAccounts. simpl. rewrite !length_app. lia.
Qed.

  (** The flags of the account at a position of the ordered accounts can be
      read off the position and the header counts. *)
Lemma ordered_index_flags (l : list A) (i : nat) (a : A) :
    nth_error (orderAccounts sg wr l) i = Some a ->
    sg a = (i <? numRequiredSignatures (buildHeader sg wr l))
    /\ wr a =
       (if i <? numRequiredSignatures (buildHeader sg wr l)
        then i <? numRequiredSignatures (buildHeader sg wr l)
                  - numReadonlySignedAccounts (buildHeader sg wr l)
        else i <? length (orderAccounts sg wr l)
                  - numReadonlyUnsignedAccounts (buildHeader sg wr l)).
Proof.
    unfold buildHeader, orderAccounts. simpl. rewrite !length_app.
    set (ws := writableSignersOf sg wr l). set (rs := readonlySignersOf sg wr l).
    set (wn := writableNonSignersOf sg wr l). set (rn := readonlyNonSignersOf sg wr l).
    intros H.
    destruct (Nat.ltb_spec i (length ws)) as [H1|H1].
    { rewrite nth_error_app1 in H by exact H1.
      apply filter_nth_holds in H. apply andb_prop in H as [-> ->].
      destruct (Nat.ltb_spec i (length ws + length rs)); [|lia].
      destruct (Nat.ltb_spec i (length ws + length rs - length rs)); [auto|lia]. }
    rewrite nth_error_app2 in H by exact H1.
    destruct (Nat.ltb_spec (i - length ws) (length rs)) as [H2|H2].
    { rewrite nth_error_app1 in H by exact H2.
      apply filter_nth_holds in H. apply andb_prop in H as [-> Hw].
      apply negb_true_iff in Hw. rewrite Hw.
      destruct (Nat.ltb_spec i (length ws + length rs)); [|lia].
      destruct (Nat.ltb_spec i (length ws + length rs - length rs)); [lia|auto]. }
    rewrite nth_error_app2 in H by exact H2.
    destruct (Nat.ltb_spec (i - length ws - length rs) (length wn)) as [H3|H3].
    { rewrite nth_error_app1 in H by exact H3.
      apply filter_nth_holds in H. apply andb_prop in H as [Hs ->].
      apply negb_true_iff in Hs. rewrite Hs.
      destruct (Nat.ltb_spec i (length ws + length rs)); [lia|].
      destruct (Nat.ltb_spec i (length ws + (length rs + (length wn + length rn))
                                - length rn)); [auto|lia]. }
    rewrite nth_error_app2 in H by exact H3.
    assert (Hlt : i - length ws - length rs - length wn < length rn).
    { apply nth_error_Some. congruence. }
    apply filter_nth_holds in H. apply andb_prop in H as [Hs Hw].
    apply negb_true_iff in Hs. apply negb_true_iff in Hw. rewrite Hs, Hw.
    destruct (Nat.ltb_spec i (length ws + length rs)); [lia|].
    destruct (Nat.ltb_spec i (length ws + (length rs + (length wn + length rn))
                              - length rn)); [lia|auto].
Qed.
End OrderedIndex.

Lemma nth_error_map_some (A B : Type) (f : A -> B) (l : list A) (i : nat) (b : B) :
  nth_error (map f l) i = Some b -> exists a, nth_error l i = Some a /\ f a = b.
Proof.
  rewrite nth_error_map. destruct (nth_error l i) as [a|]; simpl; [|discriminate].
  intros [= <-]. now exists a.
Qed.

(** The required signers of a compiled message are among its account keys,
    and the fee payer is one of them. *)
Lemma Message_compile_header_bounds (payerKey : PublicKey) (blockhash : Blockhash)
    (ixs : list TransactionInstruction) :
  let m := Message_compile_normalized payerKey blockhash ixs in
  1 <= numRequiredSignatures (header m)
  /\ numReadonlySignedAccounts (header m) < numRequiredSignatures (header m)
  /\ numRequiredSignatures (header m) + numReadonlyUnsignedAccounts (header m)
     <= length (accountKeys m).
Proof.
  unfold Message_compile_normalized. cbv zeta. cbn [header accountKeys].
  rewrite length_map.
  pose proof (buildHeader_bounds LegacyEntry le_isSigner le_isWritable
                (JSMap.values (legacyAccountMap payerKey ixs))) as [_ Hb].
  destruct (legacyAccountMap_inv payerKey ixs) as (_ & _ & e & Hhd & Hs & Hw).
  assert (Hws : 1 <= length (writableSignersOf le_isSigner le_isWritable
                               (JSMap.values (legacyAccountMap payerKey ixs)))).
  { destruct (legacyAccountMap payerKey ixs) as [|[k0 e0] rest]; [discriminate|].
    simpl in Hhd. injection Hhd as -> ->. unfold writableSignersOf. simpl.
    rewrite Hs, Hw. simpl. lia. }
  unfold buildHeader in *. simpl in *. lia.
Qed.

(* ================================================================== *)
(** * The account keys of a compiled legacy message *)
(* ================================================================== *)

(** An address has an entry in the account map exactly when the input
    mentions it. *)
Lemma v0AccountMap_mentioned (lookupMap : JSMap.t LookupInfo) (payerKey : PublicKey)
    (ixs : list TransactionInstruction) (a : Address) :
  (exists e, JSMap.get (v0AccountMap lookupMap payerKey ixs) a = Some e)
  <-> mentioned payerKey ixs a.
Proof.
  rewrite v0AccountMap_encounters, v0_fold_mergedEntry.
  unfold mergedEntry, mentioned. split.
  - intros [e He]. eqb_cases (toBase58 payerKey) a; [now left | right].
    destruct (firstEncounter (encounters ixs) a) as [x|] eqn:F; [|discriminate].
    unfold firstEncounter in F. apply find_some in F as [Hin Hk].
    apply bytes_eqb_eq in Hk. unfold encounters in Hin.
    apply in_flat_map in Hin as (ix & Hix & Hx). exists ix. split; [exact Hix|].
    unfold instructionKeys, toBase58. destruct Hx as [<-|Hx].
    + left. exact Hk.
    + right. apply in_map_iff in Hx as (meta & <- & Hmeta).
      apply in_map_iff. exists meta. split; [exact Hk | exact Hmeta].
  - intros [->|(ix & Hix & Hk)].
    + rewrite bytes_eqb_refl. eauto.
    + destruct (bytes_eqb (toBase58 payerKey) a); [eauto|].
      destruct (instruction_key_encountered ixs ix a Hix Hk) as [x ->].
      destruct x; eauto.
Qed.

Lemma legacyAccountMap_mentioned (payerKey : PublicKey)
    (ixs : list TransactionInstruction) (a : Address) :
  (exists e, JSMap.get (legacyAccountMap payerKey ixs) a = Some e)
  <-> mentioned payerKey ixs a.
Proof.
  rewrite (forgetLookups_accountMap (JSMap.empty _) payerKey ixs), forgetLookups_get.
  rewrite <- (v0AccountMap_mentioned (JSMap.empty _)).
  destruct (JSMap.get (v0AccountMap (JSMap.empty _) payerKey ixs) a) as [e|]; simpl.
  - split; eauto.
  - split; intros [e He]; discriminate.
Qed.

Lemma JSMap_in_keys_get (V : Type) (m : JSMap.t V) (k : Address) :
  In k (JSMap.keys m) <-> exists v, JSMap.get m k = Some v.
Proof.
  split.
  - intros Hin. destruct (JSMap.get m k) as [v|] eqn:G; [eauto|].
    apply JSMapFacts.get_none_not_in in G. contradiction.
  - intros [v Hv] . destruct (in_dec (list_eq_dec Byte.byte_eq_dec) k (JSMap.keys m))
      as [H|H]; [exact H|].
    apply JSMapFacts.get_none_not_in in H. congruence.
Qed.

Lemma legacy_ordered_keys (payerKey : PublicKey) (ixs : list TransactionInstruction) :
  Permutation
    (map le_pubkey (orderAccounts le_isSigner le_isWritable
                      (JSMap.values (legacyAccountMap payerKey ixs))))
    (JSMap.keys (legacyAccountMap payerKey ixs)).
Proof.
  rewrite <- legacy_values_keys. apply Permutation_map. apply orderAccounts_perm.
Qed.

Lemma Message_compile_keys_nodup (args : CompileLegacyArgs) (m : Message) :
  Message_compile args = Ok m -> NoDup (accountKeys m).
Proof.
  intros H. apply Message_compile_ok in H. subst m.
  unfold Message_compile_normalized. cbv zeta. cbn [accountKeys].
  apply (Permutation_NoDup (Permutation_sym (legacy_ordered_keys _ _))).
  apply legacyAccountMap_inv.
Qed.

(** X1. The account keys of a compiled legacy message hold no address twice
    and are exactly the addresses the input mentions: the fee payer, the
    programs and the accounts of the instructions. *)
Theorem Message_compile_account_keys (args : CompileLegacyArgs) (m : Message) :
  Message_compile args = Ok m ->
  NoDup (accountKeys m)
  /\ forall a, In a (accountKeys m)
               <-> mentioned (cl_payerKey args)
                     (normalizedInstructions (cl_instructions args)) a.
Proof.
  intros H. split; [exact (Message_compile_keys_nodup args m H)|].
  apply Message_compile_ok in H. subst m.
  unfold Message_compile_normalized. cbv zeta. cbn [accountKeys].
  set (ixs := normalizedInstructions (cl_instructions args)).
  pose proof (legacy_ordered_keys (cl_payerKey args) ixs) as Hperm.
  intros a. rewrite <- legacyAccountMap_mentioned, <- JSMap_in_keys_get.
  split; intros Hin.
  - apply (Permutation_in _ Hperm). exact Hin.
  - apply (Permutation_in _ (Permutation_sym Hperm)). exact Hin.
Qed.

Lemma Message_compile_account_keys_witness :
  exists m, Message_compile SampleCompile.mixedLegacy = Ok m
            /\ NoDup (accountKeys m)
            /\ forall a, In a (accountKeys m)
                         <-> mentioned Sample.P
                               (normalizedInstructions SampleCompile.mixedInstructions) a.
Proof.
  eexists. split; [reflexivity|].
  apply (Message_compile_account_keys SampleCompile.mixedLegacy). reflexivity.
Defined.

Lemma Message_query_role (args : CompileLegacyArgs) (m : Message) (i : nat)
    (k : PublicKey) :
  Message_compile args = Ok m ->
  nth_error (accountKeys m) i = Some k ->
  legacyFinalRole args k
  = Some {| signer := Message_isAccountSigner m i;
            writable := Message_isAccountWritable m i |}.
Proof.
  intros H Hk. apply Message_compile_ok in H. subst m.
  unfold Message_isAccountSigner, Message_isAccountWritable.
  unfold Message_compile_normalized in *. cbv zeta in *.
  cbn [header accountKeys] in *.
  apply nth_error_map_some in Hk as (e & He & <-).
  pose proof (ordered_index_flags LegacyEntry le_isSigner le_isWritable _ i e He)
    as [Hs Hw].
  assert (Hin : In e (JSMap.values (legacyFinalMap args))).
  { apply nth_error_In in He. apply orderAccounts_in in He. exact He. }
  pose proof (legacyFinalRole_entry args e Hin) as Hr. unfold toBase58 in Hr.
  rewrite Hr, Hs, Hw, length_map. reflexivity.
Qed.

(** X2. On a compiled legacy message, [isAccountSigner] and
    [isAccountWritable] at the index of an account key give the final merged
    role of that address; at an index past the account keys both give
    false. *)
Theorem Message_queries_give_final_roles (args : CompileLegacyArgs) (m : Message) :
  Message_compile args = Ok m ->
  (forall i k, nth_error (accountKeys m) i = Some k ->
     legacyFinalRole args k
     = Some {| signer := Message_isAccountSigner m i;
               writable := Message_isAccountWritable m i |})
  /\ (forall i, length (accountKeys m) <= i ->
        Message_isAccountSigner m i = false
        /\ Message_isAccountWritable m i = false).
Proof.
  intros H0. pose proof (Message_compile_ok args m H0) as H.
  pose proof (Message_compile_header_bounds (cl_payerKey args) (cl_recentBlockhash args)
                (normalizedInstructions (cl_instructions args))) as Hb.
  cbv zeta in Hb. rewrite <- H in Hb. destruct Hb as (_ & _ & Hb).
  split.
  - intros i k Hk. exact (Message_query_role args m i k H0 Hk).
  - intros i Hi. unfold Message_isAccountSigner, Message_isAccountWritable.
    destruct (Nat.ltb_spec i (numRequiredSignatures (header m))); [lia|].
    split; [reflexivity|]. apply Nat.ltb_ge. lia.
Qed.

Lemma Message_queries_give_final_roles_witness :
  exists m, Message_compile SampleCompile.mixedLegacy = Ok m
            /\ (forall i k, nth_error (accountKeys m) i = Some k ->
                  legacyFinalRole SampleCompile.mixedLegacy k
                  = Some {| signer := Message_isAccountSigner m i;
                            writable := Message_isAccountWritable m i |})
            /\ (forall i, length (accountKeys m) <= i ->
                  Message_isAccountSigner m i = false
                  /\ Message_isAccountWritable m i = false).
Proof.
  eexists. split; [reflexivity|].
  apply (Message_queries_give_final_roles SampleCompile.mixedLegacy). reflexivity.
Defined.

(* ================================================================== *)
(** * The lookup region of a versioned message *)
(* ================================================================== *)

Lemma numAccountKeysFromLookups_sum (lookups : list MessageAddressTableLookup)
    (count : nat) :
  fold_left
    (fun count lookup =>
       count + length (writableIndexes lookup) + length (readonlyIndexes lookup))
    lookups count
  = count + lookupsSize lookups.
Proof.
  revert count. induction lookups as [|L ls IH]; intros count; simpl.
  - unfold lookupsSize. simpl. lia.
  - rewrite IH. unfold lookupsSize, lookupSize. simpl. lia.
Qed.

Lemma lookupsSize_app (l1 l2 : list MessageAddressTableLookup) :
  lookupsSize (l1 ++ l2) = lookupsSize l1 + lookupsSize l2.
Proof.
  unfold lookupsSize. rewrite map_app, list_sum_app. reflexivity.
Qed.

(** Inside the run of a lookup the walk answers by the position in the run:
    the writable indexes come first. *)
Lemma lookupWritable_app (pre : list MessageAddressTableLookup)
    (L : MessageAddressTableLookup) (post : list MessageAddressTableLookup)
    (j cur : nat) :
  j < lookupSize L ->
  lookupWritable (pre ++ L :: post) (cur + lookupsSize pre + j) cur
  = (j <? length (writableIndexes L)).
Proof.
  intros Hj. revert cur. induction pre as [|L0 pre IH]; intros cur.
  - unfold lookupsSize, lookupSize in *. simpl.
    destruct (Nat.ltb_spec (cur + 0 + j) (cur + length (writableIndexes L))) as [H|H].
    + symmetry. apply Nat.ltb_lt. lia.
    + destruct (Nat.ltb_spec (cur + 0 + j)
                  (cur + length (writableIndexes L) + length (readonlyIndexes L)));
        [|lia].
      symmetry. apply Nat.ltb_ge. lia.
  - change ((L0 :: pre) ++ L :: post) with (L0 :: (pre ++ L :: post)).
    cbn [lookupWritable].
    assert (Hs : lookupsSize (L0 :: pre) = lookupSize L0 + lookupsSize pre)
      by reflexivity.
    rewrite Hs. unfold lookupSize.
    destruct (Nat.ltb_spec
                (cur + (length (writableIndexes L0) + length (readonlyIndexes L0)
                        + lookupsSize pre) + j)
                (cur + length (writableIndexes L0))); [lia|].
    destruct (Nat.ltb_spec
                (cur + (length (writableIndexes L0) + length (readonlyIndexes L0)
                        + lookupsSize pre) + j)
                (cur + length (writableIndexes L0) + length (readonlyIndexes L0)));
      [lia|].
    rewrite <- (IH (cur + length (writableIndexes L0) + length (readonlyIndexes L0))).
    f_equal. lia.
Qed.

Lemma lookupWritable_beyond (lookups : list MessageAddressTableLookup)
    (lookupIndex cur : nat) :
  cur + lookupsSize lookups <= lookupIndex ->
  lookupWritable lookups lookupIndex cur = false.
Proof.
  revert cur. induction lookups as [|L ls IH]; intros cur H; simpl; [reflexivity|].
  assert (Hs : lookupsSize (L :: ls) = lookupSize L + lookupsSize ls) by reflexivity.
  rewrite Hs in H. unfold lookupSize in H.
  destruct (Nat.ltb_spec lookupIndex (cur + length (writableIndexes L))); [lia|].
  destruct (Nat.ltb_spec lookupIndex
              (cur + length (writableIndexes L) + length (readonlyIndexes L))); [lia|].
  apply IH. lia.
Qed.

(** X3. In a versioned message whose required signers are among its static
    keys, the indexes after the static keys run through the lookups in
    order, the writable indexes of a lookup before its read-only ones:
    [isAccountWritable] holds exactly on the writable part of each run, no
    such index is a signer, and past [numAccountKeysFromLookups] further
    indexes nothing is writable. *)
Theorem MessageV0_lookup_region (m : MessageV0) :
  numRequiredSignatures (v0_header m) <= length (staticAccountKeys m) ->
  numAccountKeysFromLookups m = lookupsSize (addressTableLookups m)
  /\ (forall pre L post j,
        addressTableLookups m = pre ++ L :: post ->
        j < lookupSize L ->
        let index := length (staticAccountKeys m) + lookupsSize pre + j in
        MessageV0_isAccountWritable m index = (j <? length (writableIndexes L))
        /\ MessageV0_isAccountSigner m index = false)
  /\ (forall index,
        length (staticAccountKeys m) + numAccountKeysFromLookups m <= index ->
        MessageV0_isAccountWritable m index = false).
Proof.
  intros Hn.
  assert (Hsum : numAccountKeysFromLookups m = lookupsSize (addressTableLookups m)).
  { unfold numAccountKeysFromLookups. now rewrite numAccountKeysFromLookups_sum. }
  split; [exact Hsum|]. split.
  - intros pre L post j Hl Hj index. subst index.
    unfold MessageV0_isAccountWritable, MessageV0_isAccountSigner.
    set (i := length (staticAccountKeys m) + lookupsSize pre + j).
    destruct (Nat.ltb_spec i (numRequiredSignatures (v0_header m))); [lia|].
    destruct (Nat.ltb_spec i (length (staticAccountKeys m))); [lia|].
    split; [|reflexivity].
    rewrite Hl.
    replace (i - length (staticAccountKeys m)) with (0 + lookupsSize pre + j) by lia.
    now apply lookupWritable_app.
  - intros index Hi. rewrite Hsum in Hi. unfold MessageV0_isAccountWritable.
    destruct (Nat.ltb_spec index (numRequiredSignatures (v0_header m))); [lia|].
    destruct (Nat.ltb_spec index (length (staticAccountKeys m))); [lia|].
    apply lookupWritable_beyond. lia.
Qed.

Lemma MessageV0_lookup_region_witness :
  let m := SampleQuery.twoTablesMessage in
  numAccountKeysFromLookups m = lookupsSize (addressTableLookups m)
  /\ (forall pre L post j,
        addressTableLookups m = pre ++ L :: post ->
        j < lookupSize L ->
        let index := length (staticAccountKeys m) + lookupsSize pre + j in
        MessageV0_isAccountWritable m index = (j <? length (writableIndexes L))
        /\ MessageV0_isAccountSigner m index = false)
  /\ (forall index,
        length (staticAccountKeys m) + numAccountKeysFromLookups m <= index ->
        MessageV0_isAccountWritable m index = false).
Proof.
  apply (MessageV0_lookup_region SampleQuery.twoTablesMessage). simpl. lia.
Defined.

(* ================================================================== *)
(** * The indexes the versioned compiler gives the lookup accounts *)
(* ================================================================== *)

(** Keeping some of the accounts keeps their keys distinct. *)
Lemma NoDup_map_filter (A K : Type) (key : A -> K) (keep : A -> bool)
    (accounts : list A) :
  NoDup (map key accounts) -> NoDup (map key (filter keep accounts)).
Proof.
  induction accounts as [|a accounts IH]; simpl; intros H; [constructor|].
  inversion H as [|? ? Hn Hnd]; subst. destruct (keep a); simpl; [|now apply IH].
  constructor; [|now apply IH]. intros Hin. apply Hn.
  apply in_map_iff in Hin as (x & Hx & Hin). apply filter_In in Hin as [Hin _].
  rewrite <- Hx. now apply in_map.
Qed.

Lemma NoDup_map_inj_in (A B : Type) (f : A -> B) (l : list A) (a b : A) :
  NoDup (map f l) -> In a l -> In b l -> f a = f b -> a = b.
Proof.
  induction l as [|x l IH]; simpl; intros H Ha Hb Hf; [contradiction|].
  inversion H as [|? ? Hn Hnd]; subst.
  destruct Ha as [->|Ha], Hb as [->|Hb]; auto.
  - exfalso. apply Hn. rewrite Hf. now apply in_map.
  - exfalso. apply Hn. rewrite <- Hf. now apply in_map.
Qed.

Lemma NoDup_app_disjoint (A : Type) (l1 l2 : list A) (a : A) :
  NoDup (l1 ++ l2) -> In a l1 -> ~ In a l2.
Proof.
  induction l1 as [|x l1 IH]; simpl; intros H Ha; [contradiction|].
  inversion H as [|? ? Hn Hnd]; subst. destruct Ha as [->|Ha].
  - intros Hin. apply Hn. apply in_or_app. now right.
  - now apply IH.
Qed.

Lemma filter_idem (A : Type) (p : A -> bool) (l : list A) :
  filter p (filter p l) = filter p l.
Proof.
  induction l as [|a l IH]; simpl; [reflexivity|].
  destruct (p a) eqn:E; simpl; [rewrite E; now f_equal | exact IH].
Qed.

(** The account at position [p] of the accounts handed to [assignIndexes]
    gets the index [nextIndex + p]. *)
Lemma assignIndexes_nth (accs : list AccountEntry) (m : JSMap.t nat) (n p : nat)
    (e : AccountEntry) :
  NoDup (map pubkey accs) -> nth_error accs p = Some e ->
  JSMap.get (fst (fst (assignIndexes m n accs))) (pubkey e) = Some (n + p).
Proof.
  revert m n p. induction accs as [|acc accs IH]; intros m n p Hnd Hp.
  - destruct p; discriminate.
  - simpl. inversion Hnd as [|? ? Hn Hnd']; subst.
    pose proof (assignIndexes_get accs (JSMap.set m (toBase58 (pubkey acc)) n) (S n)
                  (pubkey e)) as [Hout _].
    specialize (IH (JSMap.set m (toBase58 (pubkey acc)) n) (S n)).
    destruct (assignIndexes _ _ accs) as [[m' n'] idx]. simpl in *.
    destruct p as [|p]; simpl in Hp.
    + injection Hp as ->. rewrite Hout by exact Hn. unfold toBase58.
      rewrite JSMapFacts.get_set_same. f_equal. lia.
    + rewrite (IH p Hnd' Hp). f_equal. lia.
Qed.

Lemma buildLookup_nextIndex (st : LookupState) (g : Address * list AccountEntry) :
  ls_nextIndex (buildLookup st g) = ls_nextIndex st + length (snd g).
Proof.
  destruct g as [k data]. unfold buildLookup. simpl.
  pose proof (filter_length isWritable data) as Hlen.
  pose proof (assignIndexes_next (filter isWritable data)
                (ls_keyIndexMap st) (ls_nextIndex st)) as Hn1.
  destruct (assignIndexes (ls_keyIndexMap st) (ls_nextIndex st) (filter isWritable data))
    as [[m1 n1] w]. simpl in *.
  pose proof (assignIndexes_next (filter (fun a => negb (isWritable a)) data) m1 n1)
    as Hn2.
  destruct (assignIndexes m1 n1 (filter (fun a => negb (isWritable a)) data))
    as [[m2 n2] r]. simpl in *. lia.
Qed.

(** One group: its writable accounts get the next indexes, in order, then
    its read-only accounts. *)
Lemma buildLookup_nth (st : LookupState) (k : Address) (data : list AccountEntry)
    (e : AccountEntry) :
  NoDup (map pubkey data) -> In e data ->
  exists j,
    JSMap.get (ls_keyIndexMap (buildLookup st (k, data))) (pubkey e)
    = Some (ls_nextIndex st + j)
    /\ j < length data
    /\ (j <? length (filter isWritable data)) = isWritable e
    /\ nth_error (map entryTableIndex (filter isWritable data)
                  ++ map entryTableIndex (filter (fun a => negb (isWritable a)) data)) j
       = Some (entryTableIndex e).
Proof.
  intros Hnd He. unfold buildLookup. simpl.
  pose proof (filter_length isWritable data) as Hlen.
  pose proof (assignIndexes_next (filter isWritable data)
                (ls_keyIndexMap st) (ls_nextIndex st)) as Hn1.
  pose proof (fun p =>
                assignIndexes_nth (filter isWritable data)
                  (ls_keyIndexMap st) (ls_nextIndex st) p e
                  (NoDup_map_filter _ _ pubkey isWritable data Hnd)) as Hw.
  destruct (assignIndexes (ls_keyIndexMap st) (ls_nextIndex st) (filter isWritable data))
    as [[m1 n1] w]. simpl in *.
  pose proof (assignIndexes_get (filter (fun a => negb (isWritable a)) data) m1 n1
                (pubkey e)) as [Hout2 _].
  pose proof (fun p =>
                assignIndexes_nth (filter (fun a => negb (isWritable a)) data)
                  m1 n1 p e
                  (NoDup_map_filter _ _ pubkey (fun a => negb (isWritable a)) data Hnd))
    as Hr.
  destruct (assignIndexes m1 n1 (filter (fun a => negb (isWritable a)) data))
    as [[m2 n2] r]. simpl in *.
  destruct (isWritable e) eqn:W.
  - assert (Hin : In e (filter isWritable data)) by (apply filter_In; auto).
    apply In_nth_error in Hin as [p Hp].
    assert (Hlt : p < length (filter isWritable data))
      by (apply nth_error_Some; congruence).
    exists p. split; [|split; [|split]].
    + rewrite Hout2; [now apply Hw|].
      intros Hin. apply in_map_iff in Hin as (x & Hx & Hin).
      apply filter_In in Hin as [Hin Hwx].
      assert (x = e) by (apply (NoDup_map_inj_in _ _ pubkey data); auto).
      subst x. rewrite W in Hwx. discriminate.
    + lia.
    + now apply Nat.ltb_lt.
    + rewrite nth_error_app1 by (rewrite length_map; exact Hlt).
      now apply map_nth_error.
  - assert (Hin : In e (filter (fun a => negb (isWritable a)) data))
      by (apply filter_In; rewrite W; auto).
    apply In_nth_error in Hin as [p Hp].
    assert (Hlt : p < length (filter (fun a => negb (isWritable a)) data))
      by (apply nth_error_Some; congruence).
    exists (length (filter isWritable data) + p). split; [|split; [|split]].
    + rewrite (Hr p Hp). f_equal. lia.
    + lia.
    + apply Nat.ltb_ge. lia.
    + rewrite nth_error_app2 by (rewrite length_map; lia).
      rewrite length_map.
      replace (length (filter isWritable data) + p - length (filter isWritable data))
        with p by lia.
      now apply map_nth_error.
Qed.

Lemma lookupsSize_group (g : Address * list AccountEntry) :
  lookupsSize (lookupOfGroup g) = length (snd g).
Proof.
  destruct g as [k data]. unfold lookupOfGroup. simpl. rewrite !length_map.
  pose proof (filter_length isWritable data) as H.
  destruct (Nat.ltb_spec 0 (length (filter isWritable data))) as [E1|E1];
    destruct (Nat.ltb_spec 0 (length (filter (fun a => negb (isWritable a)) data)))
      as [E2|E2]; simpl; unfold lookupsSize, lookupSize; simpl;
    rewrite ?length_map; lia.
Qed.

Lemma lookupsSize_groups (groups : JSMap.t (list AccountEntry)) :
  lookupsSize (flat_map lookupOfGroup groups) = length (groupedAccounts groups).
Proof.
  induction groups as [|g groups IH]; [reflexivity|].
  unfold groupedAccounts in *. simpl.
  rewrite lookupsSize_app, length_app, lookupsSize_group, IH. reflexivity.
Qed.

(** Every group: an account of a group gets an index past the [N] static
    accounts, at its place in the run of the lookup of its group. *)
Lemma buildLookup_fold_position (groups : JSMap.t (list AccountEntry))
    (st : LookupState) (N : nat) (g : Address * list AccountEntry) (e : AccountEntry) :
  NoDup (map pubkey (groupedAccounts groups)) ->
  ls_nextIndex st = N + lookupsSize (ls_lookups st) ->
  In g groups -> In e (snd g) ->
  exists pre L post j,
    ls_lookups (fold_left buildLookup groups st) = pre ++ L :: post
    /\ JSMap.get (ls_keyIndexMap (fold_left buildLookup groups st)) (pubkey e)
       = Some (N + lookupsSize pre + j)
    /\ atl_accountKey L = fst g
    /\ j < lookupSize L
    /\ (j <? length (writableIndexes L)) = isWritable e
    /\ nth_error (writableIndexes L ++ readonlyIndexes L) j = Some (entryTableIndex e).
Proof.
  revert st. induction groups as [|g0 groups IH]; intros st Hnd Hst Hg He;
    [contradiction|].
  cbn [fold_left]. unfold groupedAccounts in Hnd. simpl in Hnd.
  rewrite map_app in Hnd. fold (groupedAccounts groups) in Hnd.
  assert (Hst1 : ls_nextIndex (buildLookup st g0)
                 = N + lookupsSize (ls_lookups (buildLookup st g0))).
  { rewrite buildLookup_nextIndex, buildLookup_lookups, lookupsSize_app,
      lookupsSize_group. lia. }
  destruct Hg as [<-|Hg].
  - destruct g0 as [k data]. simpl in He, Hnd.
    destruct (buildLookup_nth st k data e (NoDup_app_remove_r _ _ Hnd) He)
      as (j & Hj1 & Hj2 & Hj3 & Hj4).
    exists (ls_lookups st),
      {| atl_accountKey := fromAddress k;
         readonlyIndexes :=
           map entryTableIndex (filter (fun a => negb (isWritable a)) data);
         writableIndexes := map entryTableIndex (filter isWritable data) |},
      (flat_map lookupOfGroup groups), j.
    split; [|split; [|split; [|split; [|split]]]].
    + rewrite buildLookup_fold_lookups, buildLookup_lookups,
        (lookupOfGroup_nonempty k data e He), <- app_assoc. reflexivity.
    + rewrite (proj1 (buildLookup_fold_get groups (buildLookup st (k, data))
                        (pubkey e))).
      * rewrite Hj1. f_equal. lia.
      * intros g' Hg' Hin.
        apply (NoDup_app_disjoint _ _ _ (pubkey e) Hnd); [now apply in_map|].
        apply in_map_iff in Hin as (x & Hx & Hin). rewrite <- Hx. apply in_map.
        unfold groupedAccounts. apply in_flat_map. eauto.
    + reflexivity.
    + unfold lookupSize. cbn [writableIndexes readonlyIndexes].
      rewrite !length_map. pose proof (filter_length isWritable data). lia.
    + cbn [writableIndexes]. rewrite length_map. exact Hj3.
    + exact Hj4.
  - apply (IH (buildLookup st g0) (NoDup_app_remove_l _ _ Hnd) Hst1 Hg He).
Qed.

(** At that index the walk over the lookups finds the writable flag of the
    account. *)
Lemma buildLookup_fold_nth (groups : JSMap.t (list AccountEntry)) (st : LookupState)
    (N : nat) (g : Address * list AccountEntry) (e : AccountEntry) :
  NoDup (map pubkey (groupedAccounts groups)) ->
  ls_nextIndex st = N + lookupsSize (ls_lookups st) ->
  In g groups -> In e (snd g) ->
  exists idx,
    JSMap.get (ls_keyIndexMap (fold_left buildLookup groups st)) (pubkey e) = Some idx
    /\ N <= idx
    /\ idx < N + lookupsSize (ls_lookups (fold_left buildLookup groups st))
    /\ lookupWritable (ls_lookups (fold_left buildLookup groups st)) (idx - N) 0
       = isWritable e.
Proof.
  intros Hnd Hst Hg He.
  destruct (buildLookup_fold_position groups st N g e Hnd Hst Hg He)
    as (pre & L & post & j & Hl & Hget & _ & Hj & Hw & _).
  exists (N + lookupsSize pre + j). split; [exact Hget|]. split; [lia|]. split.
  - rewrite Hl, lookupsSize_app.
    change (lookupsSize (L :: post)) with (lookupSize L + lookupsSize post). lia.
  - rewrite Hl.
    replace (N + lookupsSize pre + j - N) with (0 + lookupsSize pre + j) by lia.
    rewrite lookupWritable_app by exact Hj. exact Hw.
Qed.

(** Grouping keeps the lookup accounts, each once. *)
Lemma JSMap_set_set (V : Type) (m : JSMap.t V) (k : Address) (v v' : V) :
  JSMap.set (JSMap.set m k v) k v' = JSMap.set m k v'.
Proof.
  induction m as [|[k0 v0] m IH]; simpl.
  - now rewrite bytes_eqb_refl.
  - destruct (bytes_eqb k0 k) eqn:E; simpl; rewrite E; [reflexivity | now rewrite IH].
Qed.

Lemma groupAccount_perm (t : JSMap.t (list AccountEntry)) (acc : AccountEntry) :
  Permutation (groupedAccounts (groupAccount t acc))
    (if isSome (fromLookup acc) then groupedAccounts t ++ [acc] else groupedAccounts t).
Proof.
  unfold groupAccount. destruct (fromLookup acc) as [info|]; simpl; [|reflexivity].
  set (k := toBase58 (tableKey info)).
  destruct (JSMap.has t k) eqn:Hh.
  - apply JSMapFacts.has_true in Hh as [accounts Hget]. rewrite Hget.
    destruct (JSMapFacts.set_present _ t k (accounts ++ [acc]) accounts Hget)
      as (m1 & m2 & Ht & Hset & _).
    rewrite Hset. rewrite Ht. unfold groupedAccounts.
    rewrite !flat_map_app. simpl. rewrite <- !app_assoc.
    apply Permutation_app_head. apply Permutation_app_head.
    apply Permutation_app_comm.
  - apply JSMapFacts.has_false in Hh.
    rewrite JSMapFacts.get_set_same, JSMap_set_set, (JSMapFacts.set_absent _ t k _ Hh).
    unfold groupedAccounts. rewrite flat_map_app. simpl.
    reflexivity.
Qed.

Lemma groupAccount_fold_perm (accs : list AccountEntry)
    (t : JSMap.t (list AccountEntry)) :
  Permutation (groupedAccounts (fold_left groupAccount accs t))
    (groupedAccounts t ++ lookupAccountsOf accs).
Proof.
  revert t. induction accs as [|a accs IH]; intros t; simpl.
  - now rewrite app_nil_r.
  - rewrite IH, groupAccount_perm. unfold lookupAccountsOf. simpl.
    destruct (isSome (fromLookup a)); [|reflexivity].
    now rewrite <- app_assoc.
Qed.

Lemma v0_values_keys (args : CompileV0Args) :
  map pubkey (JSMap.values (v0FinalMap args)) = JSMap.keys (v0FinalMap args).
Proof.
  destruct (v0AccountMap_inv (buildLookupMap (tablesOf args)) (cv_payerKey args)
              (normalizedInstructions (cv_instructions args))) as (_ & Hkey & _).
  fold (v0FinalMap args) in Hkey.
  unfold JSMap.values, JSMap.keys. rewrite map_map. apply map_ext_in.
  intros kv Hin. rewrite Forall_forall in Hkey. now apply Hkey.
Qed.

Lemma v0_values_nodup (args : CompileV0Args) :
  NoDup (map pubkey (JSMap.values (v0FinalMap args))).
Proof.
  rewrite v0_values_keys.
  apply (v0AccountMap_inv (buildLookupMap (tablesOf args)) (cv_payerKey args)
           (normalizedInstructions (cv_instructions args))).
Qed.

Lemma v0_grouped_perm (args : CompileV0Args) :
  Permutation
    (groupedAccounts
       (fold_left groupAccount (lookupAccountsOf (JSMap.values (v0FinalMap args)))
          (JSMap.empty _)))
    (lookupAccountsOf (JSMap.values (v0FinalMap args))).
Proof.
  rewrite groupAccount_fold_perm. simpl. unfold lookupAccountsOf.
  now rewrite filter_idem.
Qed.

Lemma v0_grouped_nodup (args : CompileV0Args) :
  NoDup (map pubkey
           (groupedAccounts
              (fold_left groupAccount
                 (lookupAccountsOf (JSMap.values (v0FinalMap args)))
                 (JSMap.empty _)))).
Proof.
  apply (Permutation_NoDup
           (Permutation_map pubkey (Permutation_sym (v0_grouped_perm args)))).
  apply NoDup_map_filter. apply v0_values_nodup.
Qed.

(* ================================================================== *)
(** * The query interface on compiled versioned messages *)
(* ================================================================== *)

Lemma setIndexes_get_nth (ks : list Address) (k : Address) (i : nat) :
  NoDup ks ->
  JSMap.get (setIndexes (JSMap.empty _) ks 0) k = Some i -> nth_error ks i = Some k.
Proof.
  intros Hnd Hget.
  destruct (in_dec (list_eq_dec Byte.byte_eq_dec) k ks) as [Hin|Hout].
  - apply In_nth_error in Hin as [j Hj].
    rewrite (setIndexes_nth ks (JSMap.empty _) 0 j k Hnd Hj) in Hget.
    injection Hget as <-. exact Hj.
  - rewrite (setIndexes_other ks (JSMap.empty _) 0 k Hout) in Hget. discriminate.
Qed.

Lemma MessageV0_compile_header_bounds (tables : list AddressLookupTableAccount)
    (payerKey : PublicKey) (blockhash : Blockhash) (ixs : list TransactionInstruction) :
  let m := MessageV0_compile_normalized tables payerKey blockhash ixs in
  1 <= numRequiredSignatures (v0_header m)
  /\ numReadonlySignedAccounts (v0_header m) < numRequiredSignatures (v0_header m)
  /\ numRequiredSignatures (v0_header m) + numReadonlyUnsignedAccounts (v0_header m)
     <= length (staticAccountKeys m).
Proof.
  unfold MessageV0_compile_normalized. cbv zeta. cbn [v0_header staticAccountKeys].
  rewrite length_map.
  set (accounts := JSMap.values (v0AccountMap (buildLookupMap tables) payerKey ixs)).
  pose proof (buildHeader_bounds AccountEntry isSigner isWritable
                (staticAccountsOf accounts)) as [_ Hb].
  destruct (v0AccountMap_inv (buildLookupMap tables) payerKey ixs)
    as (_ & _ & e & Hhd & Hs & Hw & Hf).
  assert (Hws : 1 <= length (writableSignersOf isSigner isWritable
                               (staticAccountsOf accounts))).
  { unfold accounts.
    destruct (v0AccountMap (buildLookupMap tables) payerKey ixs) as [|[k0 e0] rest];
      [discriminate|].
    simpl in Hhd. injection Hhd as -> ->. unfold writableSignersOf, staticAccountsOf.
    simpl. rewrite Hf. simpl. rewrite Hs, Hw. simpl. lia. }
  unfold buildHeader in *. simpl in *. lia.
Qed.

(** The index of an address in the index map of the versioned compiler, and
    what the query interface answers there. *)
Lemma v0_index_role (args : CompileV0Args) (m : MessageV0) (a : Address) (i : nat) :
  MessageV0_compile args = Ok m ->
  JSMap.get (v0KeyIndexMap (tablesOf args) (cv_payerKey args)
               (normalizedInstructions (cv_instructions args))) a = Some i ->
  v0FinalRole args a
  = Some {| signer := MessageV0_isAccountSigner m i;
            writable := MessageV0_isAccountWritable m i |}
  /\ (In a (staticAccountKeys m) -> nth_error (staticAccountKeys m) i = Some a)
  /\ (~ In a (staticAccountKeys m) ->
      length (staticAccountKeys m) <= i
      /\ i < length (staticAccountKeys m) + numAccountKeysFromLookups m).
Proof.
  intros Hm Hget.
  pose proof (v0_static_in args m a Hm) as Hstatic.
  pose proof (v0_lookups args m Hm) as Hlookups.
  apply MessageV0_compile_ok in Hm.
  pose proof (MessageV0_compile_header_bounds (tablesOf args) (cv_payerKey args)
                (cv_recentBlockhash args)
                (normalizedInstructions (cv_instructions args))) as Hb.
  cbv zeta in Hb. rewrite <- Hm in Hb. destruct Hb as (_ & _ & Hb).
  assert (Hhdr : v0_header m
                 = buildHeader isSigner isWritable
                     (staticAccountsOf (JSMap.values (v0FinalMap args))))
    by (subst m; reflexivity).
  assert (Hkeys : staticAccountKeys m
                  = map pubkey
                      (orderAccounts isSigner isWritable
                         (staticAccountsOf (JSMap.values (v0FinalMap args)))))
    by (subst m; reflexivity).
  assert (Hsum : numAccountKeysFromLookups m = lookupsSize (addressTableLookups m)).
  { unfold numAccountKeysFromLookups. now rewrite numAccountKeysFromLookups_sum. }
  unfold v0KeyIndexMap in Hget. cbv zeta in Hget. fold (v0FinalMap args) in Hget.
  set (accounts := JSMap.values (v0FinalMap args)) in *.
  set (ordered := orderAccounts isSigner isWritable (staticAccountsOf accounts)) in *.
  match type of Hget with
  | context [fold_left buildLookup ?g ?s] => set (groups := g) in *; set (st0 := s) in *
  end.
  assert (Hl : addressTableLookups m = ls_lookups (fold_left buildLookup groups st0)).
  { rewrite Hlookups, buildLookup_fold_lookups. reflexivity. }
  destruct (classic_in_groups groups a) as [(g & Hg & Ha)|Hnone].
  - apply in_map_iff in Ha as (e & <- & He).
    destruct (buildLookup_fold_nth groups st0 (length ordered) g e
                (v0_grouped_nodup args) ltac:(simpl; unfold lookupsSize; simpl; lia)
                Hg He) as (idx & Hidx & Hle & Hlt & Hwr).
    rewrite Hidx in Hget. injection Hget as <-.
    destruct (v0_group_accounts args g e Hg He) as [Hentry Hf].
    destruct (fromLookup e) as [info|] eqn:F; [|contradiction].
    destruct (lookup_entry_info args (pubkey e) e info Hentry F) as [Hsg _].
    assert (Hnot : ~ In (pubkey e) (staticAccountKeys m)).
    { intros Hin. apply Hstatic in Hin as (e' & Hget' & F'). congruence. }
    assert (Hlen : length (staticAccountKeys m) = length ordered)
      by (rewrite Hkeys; apply length_map).
    split; [|split].
    + unfold v0FinalRole. rewrite Hentry. simpl. f_equal.
      unfold MessageV0_isAccountSigner, MessageV0_isAccountWritable.
      destruct (Nat.ltb_spec idx (numRequiredSignatures (v0_header m))); [lia|].
      destruct (Nat.ltb_spec idx (length (staticAccountKeys m))); [lia|].
      rewrite Hl, Hlen, Hwr, Hsg. reflexivity.
    + intros Hin. contradiction.
    + intros _. rewrite Hsum, Hl. lia.
  - rewrite (proj1 (buildLookup_fold_get groups st0 a) Hnone) in Hget.
    simpl in Hget.
    apply setIndexes_get_nth in Hget; [|apply (v0_static_keys_nodup args)].
    apply nth_error_map_some in Hget as (e & He & Hk).
    unfold toBase58 in Hk. simpl in Hk. subst a.
    assert (Hin : In e (staticAccountsOf accounts)).
    { apply nth_error_In in He. now apply orderAccounts_in in He. }
    pose proof (ordered_index_flags AccountEntry isSigner isWritable _ i e He)
      as [Hs Hw].
    assert (Hi : i < length ordered) by (apply nth_error_Some; congruence).
    assert (Hnth : nth_error (staticAccountKeys m) i = Some (pubkey e)).
    { rewrite Hkeys, nth_error_map. fold ordered. now rewrite He. }
    split; [|split].
    + pose proof (v0FinalRole_static args e Hin) as Hr. unfold toBase58 in Hr.
      rewrite Hr. f_equal.
      unfold MessageV0_isAccountSigner, MessageV0_isAccountWritable.
      rewrite Hhdr, Hkeys, length_map, Hs, Hw. fold accounts ordered.
      destruct (Nat.ltb_spec i (length ordered)); [reflexivity | lia].
    + intros _. exact Hnth.
    + intros Hout. exfalso. apply Hout. apply nth_error_In in Hnth. exact Hnth.
Qed.

Lemma v0_static_index (args : CompileV0Args) (m : MessageV0) (a : Address) (i : nat) :
  MessageV0_compile args = Ok m ->
  nth_error (staticAccountKeys m) i = Some a ->
  JSMap.get (v0KeyIndexMap (tablesOf args) (cv_payerKey args)
               (normalizedInstructions (cv_instructions args))) a = Some i.
Proof.
  intros Hm Hi.
  pose proof (proj1 (v0_static_in args m a Hm) (nth_error_In _ _ Hi))
    as (e & Hget & F).
  apply MessageV0_compile_ok in Hm. subst m.
  unfold v0KeyIndexMap. cbv zeta. fold (v0FinalMap args).
  match goal with
  | |- context [fold_left buildLookup ?g ?s] => set (groups := g); set (st0 := s)
  end.
  rewrite (proj1 (buildLookup_fold_get groups st0 a)).
  - apply (setIndexes_nth _ (JSMap.empty nat) 0 i a (v0_static_keys_nodup args)).
    exact Hi.
  - intros g Hg Hkg. apply in_map_iff in Hkg as (e' & He' & Hin').
    destruct (v0_group_accounts args g e' Hg Hin') as [Hget' Hf'].
    rewrite He' in Hget'. congruence.
Qed.

Lemma v0_payer_static (args : CompileV0Args) (m : MessageV0) :
  MessageV0_compile args = Ok m -> In (cv_payerKey args) (staticAccountKeys m).
Proof.
  intros Hm. apply (v0_static_in args m _ Hm).
  destruct (v0AccountMap_inv (buildLookupMap (tablesOf args)) (cv_payerKey args)
              (normalizedInstructions (cv_instructions args)))
    as (_ & _ & e & Hhd & _ & _ & Hf).
  exists e. split; [|exact Hf].
  apply (JSMap_hd_get AccountEntry). exact Hhd.
Qed.

(** X4. In a compiled versioned message every address the input mentions has
    an index, the one the compiled instructions use for it; at that index
    [isAccountSigner] and [isAccountWritable] give the final merged role of
    the address, whether the index is a static one or one of the lookup
    region; and the static indexes are the positions of the static account
    keys. *)
Theorem MessageV0_queries_give_final_roles (args : CompileV0Args) (m : MessageV0) :
  MessageV0_compile args = Ok m ->
  let ixs := normalizedInstructions (cv_instructions args) in
  let keyIndexMap := v0KeyIndexMap (tablesOf args) (cv_payerKey args) ixs in
  compiledInstructions m = map (compileV0Instruction keyIndexMap) ixs
  /\ (forall a, mentioned (cv_payerKey args) ixs a ->
        exists i, JSMap.get keyIndexMap a = Some i
                  /\ i < length (staticAccountKeys m) + numAccountKeysFromLookups m)
  /\ (forall a i, JSMap.get keyIndexMap a = Some i ->
        v0FinalRole args a
        = Some {| signer := MessageV0_isAccountSigner m i;
                  writable := MessageV0_isAccountWritable m i |})
  /\ (forall a i, nth_error (staticAccountKeys m) i = Some a ->
        JSMap.get keyIndexMap a = Some i).
Proof.
  intros Hm ixs keyIndexMap. unfold keyIndexMap, ixs. clear keyIndexMap ixs.
  split; [|split; [|split]].
  - apply MessageV0_compile_ok in Hm. subst m. reflexivity.
  - intros a Ha.
    assert (Hex : exists i,
               JSMap.get (v0KeyIndexMap (tablesOf args) (cv_payerKey args)
                            (normalizedInstructions (cv_instructions args))) a
               = Some i).
    { destruct Ha as [->|(ix & Hix & Hk)].
      - pose proof (v0_payer_static args m Hm) as Hin.
        apply In_nth_error in Hin as [i Hi]. exists i.
        now apply (v0_static_index args m).
      - destruct (v0_key_index args m ix a Hm Hix Hk) as (i & Hi & _). eauto. }
    destruct Hex as [i Hi]. exists i. split; [exact Hi|].
    destruct (v0_index_role args m a i Hm Hi) as (_ & Hs & Hl).
    destruct (in_dec (list_eq_dec Byte.byte_eq_dec) a (staticAccountKeys m))
      as [Hin|Hout].
    + assert (i < length (staticAccountKeys m))
        by (apply nth_error_Some; rewrite (Hs Hin); discriminate).
      lia.
    + apply (Hl Hout).
  - intros a i Hi. apply (v0_index_role args m a i Hm Hi).
  - intros a i Hi. now apply (v0_static_index args m).
Qed.

Lemma MessageV0_queries_give_final_roles_witness :
  exists m,
    MessageV0_compile SampleCompile.twoTables = Ok m
    /\ let ixs := normalizedInstructions (cv_instructions SampleCompile.twoTables) in
       let keyIndexMap := v0KeyIndexMap (tablesOf SampleCompile.twoTables) Sample.P ixs in
       compiledInstructions m = map (compileV0Instruction keyIndexMap) ixs
       /\ (forall a, mentioned Sample.P ixs a ->
             exists i, JSMap.get keyIndexMap a = Some i
                       /\ i < length (staticAccountKeys m)
                              + numAccountKeysFromLookups m)
       /\ (forall a i, JSMap.get keyIndexMap a = Some i ->
             v0FinalRole SampleCompile.twoTables a
             = Some {| signer := MessageV0_isAccountSigner m i;
                       writable := MessageV0_isAccountWritable m i |})
       /\ (forall a i, nth_error (staticAccountKeys m) i = Some a ->
             JSMap.get keyIndexMap a = Some i).
Proof.
  eexists. split; [reflexivity|].
  apply (MessageV0_queries_give_final_roles SampleCompile.twoTables). reflexivity.
Defined.

(** X5. The static account keys of a compiled versioned message hold no
    address twice and only addresses the input mentions, and the static keys
    and the accounts of the lookups together are as many as the distinct
    addresses the input mentions: every address is placed once. *)
Theorem MessageV0_compile_account_count (args : CompileV0Args) (m : MessageV0) :
  MessageV0_compile args = Ok m ->
  NoDup (staticAccountKeys m)
  /\ (forall a, In a (staticAccountKeys m) ->
        mentioned (cv_payerKey args) (normalizedInstructions (cv_instructions args)) a)
  /\ exists l,
       NoDup l
       /\ (forall a, In a l
                     <-> mentioned (cv_payerKey args)
                           (normalizedInstructions (cv_instructions args)) a)
       /\ length (staticAccountKeys m) + numAccountKeysFromLookups m = length l.
Proof.
  intros Hm.
  pose proof (v0_lookups args m Hm) as Hlookups.
  pose proof (fun a => v0_static_in args m a Hm) as Hstatic.
  apply MessageV0_compile_ok in Hm.
  assert (Hkeys : staticAccountKeys m
                  = map pubkey
                      (orderAccounts isSigner isWritable
                         (staticAccountsOf (JSMap.values (v0FinalMap args)))))
    by (subst m; reflexivity).
  split; [|split].
  - rewrite Hkeys. exact (v0_static_keys_nodup args).
  - intros a Ha. apply Hstatic in Ha as (e & He & _).
    apply (v0AccountMap_mentioned (buildLookupMap (tablesOf args))). eauto.
  - exists (JSMap.keys (v0FinalMap args)). split; [|split].
    + apply (v0AccountMap_inv (buildLookupMap (tablesOf args)) (cv_payerKey args)
               (normalizedInstructions (cv_instructions args))).
    + intros a. rewrite JSMap_in_keys_get.
      apply (v0AccountMap_mentioned (buildLookupMap (tablesOf args))).
    + unfold numAccountKeysFromLookups.
      rewrite numAccountKeysFromLookups_sum, Hlookups, lookupsSize_groups,
        (Permutation_length (v0_grouped_perm args)), Hkeys, length_map,
        (Permutation_length (orderAccounts_perm _ _ _ _)).
      pose proof (filter_length (fun a => isSome (fromLookup a))
                    (JSMap.values (v0FinalMap args))) as Hf.
      unfold staticAccountsOf, lookupAccountsOf, JSMap.keys, JSMap.values in *.
      rewrite !length_map in *. simpl in *. lia.
Qed.

Lemma MessageV0_compile_account_count_witness :
  exists m,
    MessageV0_compile SampleCompile.twoTables = Ok m
    /\ NoDup (staticAccountKeys m)
    /\ (forall a, In a (staticAccountKeys m) ->
          mentioned Sample.P
            (normalizedInstructions (cv_instructions SampleCompile.twoTables)) a)
    /\ exists l,
         NoDup l
         /\ (forall a, In a l
                       <-> mentioned Sample.P
                             (normalizedInstructions
                                (cv_instructions SampleCompile.twoTables)) a)
         /\ length (staticAccountKeys m) + numAccountKeysFromLookups m = length l.
Proof.
  eexists. split; [reflexivity|].
  apply (MessageV0_compile_account_count SampleCompile.twoTables). reflexivity.
Defined.

(* ================================================================== *)
(** * The compiled instructions point at the addresses of the input *)
(* ================================================================== *)

(** X6. The compiled instructions of a compiled legacy message, read through
    the [compiledInstructions] getter, stand for the instructions of the
    input, one for one: the data are the same bytes, and the program index
    and the account indexes are positions of the account keys that hold the
    program and the accounts of the instruction. *)
Theorem Message_compiledInstructions_resolve (args : CompileLegacyArgs) (m : Message) :
  Message_compile args = Ok m ->
  Forall2
    (fun ix cix =>
       mci_data cix = ix_data ix
       /\ nth_error (accountKeys m) (mci_programIdIndex cix) = Some (ix_programId ix)
       /\ Forall2 (fun meta i => nth_error (accountKeys m) i = Some (meta_pubkey meta))
            (ix_keys ix) (accountKeyIndexes cix))
    (normalizedInstructions (cl_instructions args)) (Message_compiledInstructions m).
Proof.
  intros H. apply Message_compile_ok in H. subst m.
  set (ixs := normalizedInstructions (cl_instructions args)).
  unfold Message_compiledInstructions, Message_compile_normalized. cbv zeta.
  cbn [instructions accountKeys]. rewrite map_map.
  apply Forall2_map_right. intros ix Hix. cbn. split; [|split].
  - apply fromBase64_toBase64.
  - apply (legacy_key_index (cl_payerKey args) ixs ix); [exact Hix | now left].
  - apply Forall2_map_right. intros meta Hmeta.
    apply (legacy_key_index (cl_payerKey args) ixs ix); [exact Hix|].
    right. now apply (in_map (fun meta => toBase58 (meta_pubkey meta))).
Qed.

Lemma Message_compiledInstructions_resolve_witness :
  exists m,
    Message_compile SampleCompile.mixedLegacy = Ok m
    /\ Forall2
         (fun ix cix =>
            mci_data cix = ix_data ix
            /\ nth_error (accountKeys m) (mci_programIdIndex cix)
               = Some (ix_programId ix)
            /\ Forall2
                 (fun meta i => nth_error (accountKeys m) i = Some (meta_pubkey meta))
                 (ix_keys ix) (accountKeyIndexes cix))
         (normalizedInstructions SampleCompile.mixedInstructions)
         (Message_compiledInstructions m).
Proof.
  eexists. split; [reflexivity|].
  apply (Message_compiledInstructions_resolve SampleCompile.mixedLegacy). reflexivity.
Defined.

Lemma resolveLookup_length (tables : list AddressLookupTableAccount)
    (L : MessageAddressTableLookup) :
  length (resolveLookup tables L) = lookupSize L.
Proof.
  unfold resolveLookup, lookupSize.
  destruct (find _ tables); now rewrite length_map, length_app.
Qed.

Lemma resolveLookups_length (tables : list AddressLookupTableAccount)
    (lookups : list MessageAddressTableLookup) :
  length (flat_map (resolveLookup tables) lookups) = lookupsSize lookups.
Proof.
  induction lookups as [|L ls IH]; [reflexivity|]. simpl.
  rewrite length_app, resolveLookup_length, IH. reflexivity.
Qed.

Lemma v0_group_key (args : CompileV0Args) (g : Address * list AccountEntry)
    (e : AccountEntry) :
  In g (fold_left groupAccount (lookupAccountsOf (JSMap.values (v0FinalMap args)))
          (JSMap.empty _)) ->
  In e (snd g) -> tableKeyOf e = Some (fst g).
Proof.
  destruct g as [k data]. simpl. intros Hg He.
  apply JSMapFacts.in_get in Hg;
    [|apply groupAccount_nodup; simpl; constructor].
  rewrite groupAccount_get in Hg. unfold groupOf in Hg.
  assert (Hdata : data = filter (inTable k)
                           (lookupAccountsOf (JSMap.values (v0FinalMap args))))
    by (destruct (filter _ _); [discriminate | congruence]).
  rewrite Hdata in He. apply filter_In in He as [_ He].
  unfold inTable in He. destruct (tableKeyOf e) as [k'|]; [|discriminate].
  apply bytes_eqb_eq in He. now subst k'.
Qed.

(** The index of an address resolves to the address: among the static keys,
    or through the lookup and the table it names. *)
Lemma v0_index_resolves (args : CompileV0Args) (m : MessageV0) (a : Address) (i : nat) :
  MessageV0_compile args = Ok m ->
  NoDup (map alt_key (tablesOf args)) ->
  JSMap.get (v0KeyIndexMap (tablesOf args) (cv_payerKey args)
               (normalizedInstructions (cv_instructions args))) a = Some i ->
  nth_error (map Some (staticAccountKeys m) ++ lookupAddresses (tablesOf args) m) i
  = Some (Some a).
Proof.
  intros Hm Htables Hget.
  pose proof (v0_lookups args m Hm) as Hlookups.
  apply MessageV0_compile_ok in Hm.
  assert (Hkeys : staticAccountKeys m
                  = map pubkey
                      (orderAccounts isSigner isWritable
                         (staticAccountsOf (JSMap.values (v0FinalMap args)))))
    by (subst m; reflexivity).
  unfold v0KeyIndexMap in Hget. cbv zeta in Hget. fold (v0FinalMap args) in Hget.
  set (accounts := JSMap.values (v0FinalMap args)) in *.
  set (ordered := orderAccounts isSigner isWritable (staticAccountsOf accounts)) in *.
  match type of Hget with
  | context [fold_left buildLookup ?g ?s] => set (groups := g) in *; set (st0 := s) in *
  end.
  assert (Hl : addressTableLookups m = ls_lookups (fold_left buildLookup groups st0)).
  { rewrite Hlookups, buildLookup_fold_lookups. reflexivity. }
  assert (Hlen : length (map Some (staticAccountKeys m)) = length ordered)
    by (rewrite Hkeys, !length_map; reflexivity).
  destruct (classic_in_groups groups a) as [(g & Hg & Ha)|Hnone].
  - apply in_map_iff in Ha as (e & <- & He).
    destruct (buildLookup_fold_position groups st0 (length ordered) g e
                (v0_grouped_nodup args) ltac:(simpl; unfold lookupsSize; simpl; lia)
                Hg He) as (pre & L & post & j & Hpos & Hidx & HL & Hj & _ & Hnth).
    rewrite Hidx in Hget. injection Hget as <-.
    destruct (v0_group_accounts args g e Hg He) as [Hentry Hf].
    pose proof (v0_group_key args g e Hg He) as Hgk.
    destruct (fromLookup e) as [info|] eqn:F; [|contradiction].
    destruct (lookup_entry_info args (pubkey e) e info Hentry F) as [_ Hfirst].
    destruct (firstTable_some _ _ _ Hfirst) as (table & Htable & Hkey & Haddr).
    unfold tableKeyOf in Hgk. rewrite F in Hgk. simpl in Hgk.
    injection Hgk as Hgk. unfold toBase58 in Hgk.
    unfold entryTableIndex in Hnth. rewrite F in Hnth.
    rewrite nth_error_app2 by lia. rewrite Hlen.
    replace (length ordered + lookupsSize pre + j - length ordered)
      with (lookupsSize pre + j) by lia.
    unfold lookupAddresses. rewrite Hl, Hpos, flat_map_app.
    rewrite nth_error_app2 by (rewrite resolveLookups_length; lia).
    rewrite resolveLookups_length.
    replace (lookupsSize pre + j - lookupsSize pre) with j by lia.
    cbn [flat_map]. rewrite nth_error_app1 by (rewrite resolveLookup_length; exact Hj).
    unfold resolveLookup.
    assert (Hfind : find (fun t => bytes_eqb (alt_key t) (atl_accountKey L))
                      (tablesOf args) = Some table).
    { rewrite HL, <- Hgk, <- Hkey. now apply find_table_by_key. }
    rewrite Hfind.
    rewrite (map_nth_error _ _ _ Hnth). now rewrite Haddr.
  - rewrite (proj1 (buildLookup_fold_get groups st0 a) Hnone) in Hget.
    simpl in Hget.
    apply setIndexes_get_nth in Hget; [|apply (v0_static_keys_nodup args)].
    assert (Hnth : nth_error (staticAccountKeys m) i = Some a).
    { rewrite Hkeys. fold accounts ordered. rewrite <- Hget.
      unfold toBase58. now rewrite !nth_error_map. }
    assert (Hi : i < length (staticAccountKeys m))
      by (apply nth_error_Some; congruence).
    rewrite nth_error_app1 by (now rewrite length_map).
    now apply map_nth_error.
Qed.

(** X7. The compiled instructions of a compiled versioned message stand for
    the instructions of the input, one for one, when the caller's tables
    have distinct keys: the data are the same bytes, and every index
    resolves to the program or account of the instruction, where the
    indexes past the static keys run through the accounts of the lookups,
    each resolved in the table the lookup names. *)
Theorem MessageV0_compiledInstructions_resolve (args : CompileV0Args) (m : MessageV0) :
  MessageV0_compile args = Ok m ->
  NoDup (map alt_key (tablesOf args)) ->
  let keyAt i :=
    nth_error (map Some (staticAccountKeys m) ++ lookupAddresses (tablesOf args) m) i in
  Forall2
    (fun ix cix =>
       mci_data cix = ix_data ix
       /\ keyAt (mci_programIdIndex cix) = Some (Some (ix_programId ix))
       /\ Forall2 (fun meta i => keyAt i = Some (Some (meta_pubkey meta)))
            (ix_keys ix) (accountKeyIndexes cix))
    (normalizedInstructions (cv_instructions args)) (compiledInstructions m).
Proof.
  intros Hm Htables keyAt.
  set (ixs := normalizedInstructions (cv_instructions args)).
  assert (Hkey : forall ix k, In ix ixs -> In k (instructionKeys ix) ->
                   keyAt (indexOfKey
                            (v0KeyIndexMap (tablesOf args) (cv_payerKey args) ixs) k)
                   = Some (Some k)).
  { intros ix k Hix Hk.
    destruct (v0_key_index args m ix k Hm Hix Hk) as (i & Hget & _).
    unfold indexOfKey. fold ixs in Hget. rewrite Hget.
    now apply (v0_index_resolves args m k i Hm Htables). }
  assert (Hci : compiledInstructions m
                = map (compileV0Instruction
                         (v0KeyIndexMap (tablesOf args) (cv_payerKey args) ixs)) ixs).
  { apply MessageV0_compile_ok in Hm. subst m. reflexivity. }
  rewrite Hci. apply Forall2_map_right. intros ix Hix. cbn. split; [|split].
  - reflexivity.
  - apply (Hkey ix); [exact Hix | now left].
  - apply Forall2_map_right. intros meta Hmeta. apply (Hkey ix); [exact Hix|].
    right. now apply (in_map (fun meta => toBase58 (meta_pubkey meta))).
Qed.

Lemma MessageV0_compiledInstructions_resolve_witness :
  exists m,
    MessageV0_compile SampleCompile.twoTables = Ok m
    /\ let keyAt i :=
         nth_error (map Some (staticAccountKeys m)
                    ++ lookupAddresses (tablesOf SampleCompile.twoTables) m) i in
       Forall2
         (fun ix cix =>
            mci_data cix = ix_data ix
            /\ keyAt (mci_programIdIndex cix) = Some (Some (ix_programId ix))
            /\ Forall2 (fun meta i => keyAt i = Some (Some (meta_pubkey meta)))
                 (ix_keys ix) (accountKeyIndexes cix))
         (normalizedInstructions (cv_instructions SampleCompile.twoTables))
         (compiledInstructions m).
Proof.
  eexists. split; [reflexivity|].
  apply (MessageV0_compiledInstructions_resolve SampleCompile.twoTables);
    [reflexivity|].
  vm_compute. repeat constructor; simpl; intuition discriminate.
Defined.

(* ================================================================== *)
(** * Errors of the compilers, and what the lookup tables do not change *)
(* ================================================================== *)

Lemma mapM_normalizeAccount (accounts : list KitAccount) :
  existsb (fun account => match account with
                          | KitAccountLookupMeta _ _ _ _ => true
                          | KitAccountMeta _ _ => false
                          end) accounts = true
  /\ mapM normalizeAccount accounts = Err AccountLookupMetaNotSupported
  \/ existsb (fun account => match account with
                             | KitAccountLookupMeta _ _ _ _ => true
                             | KitAccountMeta _ _ => false
                             end) accounts = false
     /\ exists keys, mapM normalizeAccount accounts = Ok keys.
Proof.
  induction accounts as [|[a r|a r t i] accounts IH]; simpl.
  - right. eauto.
  - destruct IH as [[-> ->]|[-> [keys ->]]]; simpl; [left | right]; eauto.
  - left. auto.
Qed.

Lemma normalizeInstruction_lookup (input : InstructionInput) :
  hasLookupMeta input = true
  /\ normalizeInstruction input = Err AccountLookupMetaNotSupported
  \/ hasLookupMeta input = false /\ exists ix, normalizeInstruction input = Ok ix.
Proof.
  destruct input as [i|i]; simpl.
  - destruct (mapM_normalizeAccount
                (match kit_accounts i with Some l => l | None => [] end))
      as [[-> ->]|[-> [keys ->]]]; simpl; [left | right]; eauto.
  - right. eauto.
Qed.

Lemma mapM_normalizeInstruction (inputs : list InstructionInput) :
  mapM normalizeInstruction inputs
  = if existsb hasLookupMeta inputs then Err AccountLookupMetaNotSupported
    else Ok (normalizedInstructions inputs).
Proof.
  unfold normalizedInstructions.
  induction inputs as [|input inputs IH]; simpl; [reflexivity|].
  destruct (normalizeInstruction_lookup input) as [[-> ->]|[-> [ix ->]]]; simpl;
    [reflexivity|].
  rewrite IH. destruct (existsb hasLookupMeta inputs); simpl; [reflexivity|].
  destruct (mapM normalizeInstruction inputs); simpl; [reflexivity | discriminate].
Qed.


Lemma filter_map_comm (A B : Type) (f : A -> B) (p : B -> bool) (l : list A) :
  filter p (map f l) = map f (filter (fun x => p (f x)) l).
Proof.
  induction l as [|a l IH]; simpl; [reflexivity|].
  destruct (p (f a)); simpl; now rewrite IH.
Qed.

Lemma filter_all (A : Type) (p : A -> bool) (l : list A) :
  (forall x, In x l -> p x = true) -> filter p l = l.
Proof.
  induction l as [|a l IH]; simpl; intros H; [reflexivity|].
  rewrite (H a) by now left. f_equal. apply IH. intros x Hx. apply H. now right.
Qed.

Lemma filter_none (A : Type) (p : A -> bool) (l : list A) :
  (forall x, In x l -> p x = false) -> filter p l = [].
Proof.
  induction l as [|a l IH]; simpl; intros H; [reflexivity|].
  rewrite (H a) by now left. apply IH. intros x Hx. apply H. now right.
Qed.

Lemma values_forgetLookups (m : JSMap.t AccountEntry) :
  JSMap.values (forgetLookups m) = map forgetLookup (JSMap.values m).
Proof.
  unfold JSMap.values, forgetLookups. now rewrite !map_map.
Qed.

Lemma orderAccounts_forgetLookup (l : list AccountEntry) :
  orderAccounts le_isSigner le_isWritable (map forgetLookup l)
  = map forgetLookup (orderAccounts isSigner isWritable l).
Proof.
  unfold orderAccounts, writableSignersOf, readonlySignersOf, writableNonSignersOf,
    readonlyNonSignersOf.
  rewrite !map_app, !filter_map_comm. reflexivity.
Qed.

Lemma buildHeader_forgetLookup (l : list AccountEntry) :
  buildHeader le_isSigner le_isWritable (map forgetLookup l)
  = buildHeader isSigner isWritable l.
Proof.
  unfold buildHeader, writableSignersOf, readonlySignersOf, readonlyNonSignersOf.
  rewrite !filter_map_comm, !length_map. reflexivity.
Qed.

(** With tables that list none of the addresses of the input, no entry of
    the account map is taken from a lookup. *)
Lemma v0_unused_tables_static (tables : list AddressLookupTableAccount)
    (payerKey : PublicKey) (ixs : list TransactionInstruction) (e : AccountEntry) :
  (forall table a, In table tables -> In a (alt_addresses table) ->
                   ~ mentioned payerKey ixs a) ->
  In e (JSMap.values (v0AccountMap (buildLookupMap tables) payerKey ixs)) ->
  fromLookup e = None.
Proof.
  intros Hunused He.
  destruct (v0AccountMap_inv (buildLookupMap tables) payerKey ixs) as (Hnd & Hkey & _).
  apply (JSMap_in_values_get AccountEntry (fun e => toBase58 (pubkey e)) _ e Hnd Hkey)
    in He.
  assert (Hm : mentioned payerKey ixs (toBase58 (pubkey e)))
    by (apply (v0AccountMap_mentioned (buildLookupMap tables)); eauto).
  assert (Hfirst : JSMap.get (buildLookupMap tables) (toBase58 (pubkey e)) = None).
  { rewrite buildLookupMap_get. apply firstTable_none.
    intros table Htable Hin. exact (Hunused table _ Htable Hin Hm). }
  rewrite v0AccountMap_encounters, v0_fold_mergedEntry in He.
  unfold mergedEntry in He. rewrite Hfirst in He.
  destruct (bytes_eqb (toBase58 payerKey) (toBase58 (pubkey e)));
    [injection He as <-; reflexivity|].
  destruct (firstEncounter (encounters ixs) (toBase58 (pubkey e))) as [[p|meta]|];
    [injection He as <-; reflexivity | | discriminate].
  injection He as <-. simpl.
  destruct (anySigner (encounters ixs) (toBase58 (pubkey e))); reflexivity.
Qed.

(** X9. When the lookup tables list none of the addresses the input
    mentions (in particular when there are no tables), [MessageV0.compile]
    returns what [Message.compile] returns on the same instructions, fee
    payer and blockhash: the same header, account keys and compiled
    instructions, and no lookups; and it fails when [Message.compile]
    fails, with the same error. *)
Theorem MessageV0_compile_unused_tables (args : CompileV0Args) :
  (forall table a, In table (tablesOf args) -> In a (alt_addresses table) ->
     ~ mentioned (cv_payerKey args) (normalizedInstructions (cv_instructions args)) a) ->
  MessageV0_compile args
  = (m <- Message_compile (withoutTables args) ;; Ok (Message_asVersioned m)).
Proof.
  intros Hunused. unfold MessageV0_compile, Message_compile, withoutTables.
  cbv zeta. cbn [cl_instructions cl_payerKey cl_recentBlockhash].
  unfold normalizedInstructions in Hunused.
  destruct (mapM normalizeInstruction (cv_instructions args)) as [ixs|err]; simpl;
    [|reflexivity].
  f_equal. fold (tablesOf args).
  set (tables := tablesOf args) in *. set (payerKey := cv_payerKey args) in *.
  unfold MessageV0_compile_normalized, Message_asVersioned, Message_compile_normalized,
    Message_staticAccountKeys, Message_compiledInstructions, Message_addressTableLookups.
  cbv zeta. cbn [header accountKeys recentBlockhash instructions].
  rewrite (forgetLookups_accountMap (buildLookupMap tables) payerKey ixs),
    values_forgetLookups.
  set (accounts := JSMap.values (v0AccountMap (buildLookupMap tables) payerKey ixs)).
  assert (Hstatic : staticAccountsOf accounts = accounts).
  { apply filter_all. intros e He.
    now rewrite (v0_unused_tables_static tables payerKey ixs e Hunused He). }
  assert (Hlookup : lookupAccountsOf accounts = []).
  { apply filter_none. intros e He.
    now rewrite (v0_unused_tables_static tables payerKey ixs e Hunused He). }
  rewrite Hstatic, Hlookup, orderAccounts_forgetLookup, buildHeader_forgetLookup.
  cbn [fold_left ls_keyIndexMap ls_lookups]. rewrite !map_map.
  f_equal. apply map_ext. intros ix.
  unfold compileV0Instruction, compileLegacyInstruction.
  cbn [ci_accounts ci_data ci_programIdIndex]. now rewrite fromBase64_toBase64.
Qed.

Lemma MessageV0_compile_unused_tables_witness :
  MessageV0_compile SampleSign.unusedTables
  = (m <- Message_compile SampleCompile.mixedLegacy ;; Ok (Message_asVersioned m)).
Proof.
  apply (MessageV0_compile_unused_tables SampleSign.unusedTables).
  intros table a [<-|[]] [<-|[<-|[]]] [H|(ix & [<-|[<-|[]]] & Hk)];
    vm_compute in *; intuition discriminate.
Defined.

(** X10. The final merged role of an address does not depend on the
    compiler or on the lookup tables: it is defined exactly for the addresses
    the input mentions, the fee payer is a writable signer, and for any other
    address each flag is the logical OR of that flag over the account metas
    that name the address. *)
Theorem final_role_merges_observations (args : CompileV0Args) (a : Address) :
  let ixs := normalizedInstructions (cv_instructions args) in
  let es := encounters ixs in
  v0FinalRole args a = legacyFinalRole (withoutTables args) a
  /\ (v0FinalRole args a <> None <-> mentioned (cv_payerKey args) ixs a)
  /\ (forall r, v0FinalRole args a = Some r ->
        signer r = bytes_eqb (cv_payerKey args) a || anySigner es a
        /\ writable r = bytes_eqb (cv_payerKey args) a || anyWritable es a).
Proof.
  intros ixs es. split; [|split].
  - unfold v0FinalRole, legacyFinalRole, legacyFinalMap, v0FinalMap, withoutTables.
    cbn [cl_instructions cl_payerKey].
    rewrite (forgetLookups_accountMap (buildLookupMap (tablesOf args))),
      forgetLookups_get.
    destruct (JSMap.get _ a); reflexivity.
  - rewrite <- (v0AccountMap_mentioned (buildLookupMap (tablesOf args))).
    unfold v0FinalRole, v0FinalMap. fold ixs.
    destruct (JSMap.get (v0AccountMap (buildLookupMap (tablesOf args))
                           (cv_payerKey args) ixs) a) as [e|]; simpl.
    + split; [eauto | discriminate].
    + split; [congruence | intros [e He]; discriminate].
  - intros r Hr. exact (v0FinalRole_merge args a r Hr).
Qed.

Lemma final_role_merges_observations_witness :
  let es := encounters (normalizedInstructions (cv_instructions SampleCompile.scenarioC)) in
  signer WS = bytes_eqb Sample.P Sample.X || anySigner es Sample.X
  /\ writable WS = bytes_eqb Sample.P Sample.X || anyWritable es Sample.X.
Proof.
  exact (proj2 (proj2 (final_role_merges_observations SampleCompile.scenarioC Sample.X))
           WS eq_refl).
Defined.

(* ================================================================== *)
(** * The lookups of a compiled versioned message *)
(* ================================================================== *)

Lemma lookupOfGroup_keys (gs : JSMap.t (list AccountEntry)) (k : Address) :
  In k (map atl_accountKey (flat_map lookupOfGroup gs)) -> In k (map fst gs).
Proof.
  induction gs as [|[k0 data] gs IH]; simpl; [tauto|].
  rewrite map_app, in_app_iff. intros [H|H]; [left | right; now apply IH].
  unfold lookupOfGroup in H. simpl in H.
  destruct (_ || _) in H; simpl in H; [|contradiction].
  destruct H as [H|[]]. exact H.
Qed.

Lemma lookupOfGroup_nodup (gs : JSMap.t (list AccountEntry)) :
  NoDup (map fst gs) -> NoDup (map atl_accountKey (flat_map lookupOfGroup gs)).
Proof.
  induction gs as [|[k0 data] gs IH]; simpl; intros H; [constructor|].
  inversion H as [|? ? Hn Hnd]; subst. rewrite map_app.
  unfold lookupOfGroup at 1. simpl.
  destruct (_ || _); simpl; [|now apply IH]. constructor; [|now apply IH].
  intros Hin. apply lookupOfGroup_keys in Hin. contradiction.
Qed.

(** X11. The lookups of a compiled versioned message name each table once,
    none of them is empty, and each of their indexes is a position of a
    table of the caller that has the key the lookup names. *)
Theorem MessageV0_compile_lookups_well_formed (args : CompileV0Args) (m : MessageV0) :
  MessageV0_compile args = Ok m ->
  NoDup (map atl_accountKey (addressTableLookups m))
  /\ Forall (fun L => 0 < lookupSize L) (addressTableLookups m)
  /\ (forall L i,
        In L (addressTableLookups m) ->
        In i (writableIndexes L ++ readonlyIndexes L) ->
        exists table,
          In table (tablesOf args) /\ alt_key table = atl_accountKey L
          /\ i < length (alt_addresses table)).
Proof.
  intros Hm. pose proof (v0_lookups args m Hm) as Hlookups. split; [|split].
  - rewrite Hlookups. apply lookupOfGroup_nodup.
    apply groupAccount_nodup. constructor.
  - rewrite Hlookups. apply Forall_forall. intros L HL.
    apply in_flat_map in HL as ([k data] & _ & HL).
    unfold lookupOfGroup in HL. simpl in HL.
    destruct (Nat.ltb_spec 0 (length (map entryTableIndex (filter isWritable data))))
      as [Hw|Hw]; simpl in HL.
    + destruct HL as [<-|[]]. unfold lookupSize. simpl. lia.
    + destruct (Nat.ltb_spec 0
                  (length (map entryTableIndex
                             (filter (fun a => negb (isWritable a)) data))))
        as [Hr|Hr]; simpl in HL; [|contradiction].
      destruct HL as [<-|[]]. unfold lookupSize. simpl. lia.
  - intros L i HL Hi.
    destruct (v0_lookup_origin args m L i Hm HL Hi)
      as (e & info & Hget & Hf & Hkey & Hidx).
    destruct (lookup_entry_info args (pubkey e) e info Hget Hf) as [_ Hfirst].
    destruct (firstTable_some _ _ _ Hfirst) as (table & Htable & Hk & Hnth).
    exists table. split; [exact Htable|]. split; [congruence|].
    rewrite <- Hidx. apply nth_error_Some. congruence.
Qed.

Lemma MessageV0_compile_lookups_well_formed_witness :
  exists m,
    MessageV0_compile SampleCompile.twoTables = Ok m
    /\ NoDup (map atl_accountKey (addressTableLookups m))
    /\ Forall (fun L => 0 < lookupSize L) (addressTableLookups m)
    /\ (forall L i,
          In L (addressTableLookups m) ->
          In i (writableIndexes L ++ readonlyIndexes L) ->
          exists table,
            In table (tablesOf SampleCompile.twoTables)
            /\ alt_key table = atl_accountKey L
            /\ i < length (alt_addresses table)).
Proof.
  eexists. split; [reflexivity|].
  apply (MessageV0_compile_lookups_well_formed SampleCompile.twoTables). reflexivity.
Defined.

(** X12. The header of a compiled message, legacy or versioned, stays inside
    its static account keys: there is at least one required signature (the
    fee payer's), the read-only signers are fewer than the signers, and the
    signers and the read-only non-signers together are no more than the
    static account keys. *)
Theorem compiled_header_in_range :
  (forall args m,
     Message_compile args = Ok m ->
     1 <= numRequiredSignatures (header m)
     /\ numReadonlySignedAccounts (header m) < numRequiredSignatures (header m)
     /\ numRequiredSignatures (header m) + numReadonlyUnsignedAccounts (header m)
        <= length (accountKeys m))
  /\ (forall args m,
        MessageV0_compile args = Ok m ->
        1 <= numRequiredSignatures (v0_header m)
        /\ numReadonlySignedAccounts (v0_header m) < numRequiredSignatures (v0_header m)
        /\ numRequiredSignatures (v0_header m) + numReadonlyUnsignedAccounts (v0_header m)
           <= length (staticAccountKeys m)).
Proof.
  split; intros args m Hm.
  - apply Message_compile_ok in Hm. subst m. apply Message_compile_header_bounds.
  - apply MessageV0_compile_ok in Hm. subst m. apply MessageV0_compile_header_bounds.
Qed.

Lemma compiled_header_in_range_witness :
  (exists m,
     Message_compile SampleCompile.mixedLegacy = Ok m
     /\ 1 <= numRequiredSignatures (header m)
     /\ numReadonlySignedAccounts (header m) < numRequiredSignatures (header m)
     /\ numRequiredSignatures (header m) + numReadonlyUnsignedAccounts (header m)
        <= length (accountKeys m))
  /\ (exists m,
        MessageV0_compile SampleCompile.twoTables = Ok m
        /\ 1 <= numRequiredSignatures (v0_header m)
        /\ numReadonlySignedAccounts (v0_header m) < numRequiredSignatures (v0_header m)
        /\ numRequiredSignatures (v0_header m) + numReadonlyUnsignedAccounts (v0_header m)
           <= length (staticAccountKeys m)).
Proof.
  split.
  - eexists. split; [reflexivity|].
    apply (proj1 compiled_header_in_range SampleCompile.mixedLegacy). reflexivity.
  - eexists. split; [reflexivity|].
    apply (proj2 compiled_header_in_range SampleCompile.twoTables). reflexivity.
Defined.

(* ================================================================== *)
(** * Adding instructions to a transaction *)
(* ================================================================== *)

Lemma addItems_app (pushed : list TransactionInstruction)
    (items1 items2 : list TransactionItem) :
  addItems pushed (items1 ++ items2)
  = match addItems pushed items1 with
    | Some ixs => addItems ixs items2
    | None => None
    end.
Proof.
  revert pushed. induction items1 as [|item items1 IH]; intros pushed; simpl;
    [reflexivity|].
  destruct (itemInstructions item); [apply IH | reflexivity].
Qed.

(** The callback of [add] and the one of [normalizeInstruction] agree. *)
Lemma allSome_addAccount (accounts : list KitAccount) :
  allSome (map addAccount accounts)
  = match mapM normalizeAccount accounts with
    | Ok keys => Some keys
    | Err _ => None
    end.
Proof.
  induction accounts as [|[a r|a r t i] accounts IH]; simpl; [reflexivity | | reflexivity].
  rewrite IH. destruct (mapM normalizeAccount accounts); reflexivity.
Qed.

Lemma itemInstructions_input (input : InstructionInput) :
  itemInstructions (itemOfInput input)
  = match normalizeInstruction input with
    | Ok ix => Some [ix]
    | Err _ => None
    end.
Proof.
  destruct input as [i|i]; simpl.
  - rewrite allSome_addAccount. destruct (mapM normalizeAccount _); reflexivity.
  - reflexivity.
Qed.

Lemma addItems_inputs (pushed : list TransactionInstruction)
    (inputs : list InstructionInput) :
  addItems pushed (map itemOfInput inputs)
  = match mapM normalizeInstruction inputs with
    | Ok ixs => Some (pushed ++ ixs)
    | Err _ => None
    end.
Proof.
  revert pushed. induction inputs as [|input inputs IH]; intros pushed; simpl.
  - now rewrite app_nil_r.
  - rewrite itemInstructions_input.
    destruct (normalizeInstruction input) as [ix|e]; simpl; [|reflexivity].
    rewrite IH. destruct (mapM normalizeInstruction inputs); simpl; [|reflexivity].
    now rewrite <- app_assoc.
Qed.

Lemma mapM_normalize_legacy (ixs : list TransactionInstruction) :
  mapM normalizeInstruction (map LegacyInstruction ixs) = Ok ixs.
Proof.
  induction ixs as [|[d k p] ixs IH]; simpl; [reflexivity|]. now rewrite IH.
Qed.

(** X13. [add] appends: adding two lists of items one after the other is
    adding them at once, and an added transaction gives its instructions.
    [add] turns the instructions it is given into the form the compilers
    work on, and fails on the inputs they fail on, a lookup meta, with a
    message of its own; so building a transaction with [add] and compiling
    its message gives what [Message.compile] gives on the instructions. *)
Theorem Transaction_add_spec :
  (forall tx items1 items2,
     Transaction_add tx (items1 ++ items2)
     = match Transaction_add tx items1 with
       | Some tx1 => Transaction_add tx1 items2
       | None => None
       end)
  /\ (forall tx t,
        Transaction_add tx [ItemTransaction t]
        = Some (withInstructions tx (tx_instructions tx ++ tx_instructions t)))
  /\ (forall tx inputs,
        Transaction_add tx (map itemOfInput inputs)
        = if existsb hasLookupMeta inputs then None
          else Some (withInstructions tx
                       (tx_instructions tx ++ normalizedInstructions inputs)))
  /\ (forall payerKey blockhash inputs,
        blockhash <> [] ->
        let args := {| cl_instructions := inputs; cl_payerKey := payerKey;
                       cl_recentBlockhash := blockhash |} in
        match Transaction_add
                {| signatures := []; feePayer := Some payerKey;
                   tx_instructions := []; tx_recentBlockhash := Some blockhash;
                   nonceInfo := None |}
                (map itemOfInput inputs) with
        | Some tx => compileMessage tx = Message_compile args
        | None => Message_compile args = Err AccountLookupMetaNotSupported
        end).
Proof.
  split; [|split; [|split]].
  - intros tx items1 items2. unfold Transaction_add. rewrite addItems_app.
    destruct (addItems (tx_instructions tx) items1); reflexivity.
  - reflexivity.
  - intros tx inputs. unfold Transaction_add.
    rewrite addItems_inputs, mapM_normalizeInstruction.
    destruct (existsb hasLookupMeta inputs); reflexivity.
  - intros payerKey blockhash inputs Hb args. unfold Transaction_add, args, Message_compile.
    cbn [tx_instructions cl_instructions cl_payerKey cl_recentBlockhash].
    rewrite addItems_inputs, mapM_normalizeInstruction.
    destruct (existsb hasLookupMeta inputs); simpl; [reflexivity|].
    destruct blockhash as [|b bs]; [contradiction|].
    unfold compileMessage, withInstructions, Message_compile. simpl.
    now rewrite mapM_normalize_legacy.
Qed.

Lemma Transaction_add_spec_witness :
  match Transaction_add
          {| signatures := []; feePayer := Some Sample.P;
             tx_instructions := []; tx_recentBlockhash := Some Sample.blockhash;
             nonceInfo := None |}
          (map itemOfInput SampleCompile.mixedInstructions) with
  | Some tx => compileMessage tx = Message_compile SampleCompile.mixedLegacy
  | None => Message_compile SampleCompile.mixedLegacy = Err AccountLookupMetaNotSupported
  end.
Proof.
  apply (proj2 (proj2 (proj2 Transaction_add_spec)) Sample.P Sample.blockhash
           SampleCompile.mixedInstructions).
  discriminate.
Defined.

(* ================================================================== *)
(** * Signature slots *)
(* ================================================================== *)

Lemma setAt_length (A : Type) (l : list A) (i : nat) (v : A) :
  length (setAt l i v) = length l.
Proof.
  revert i. induction l as [|x l IH]; intros [|i]; simpl; auto.
Qed.

Lemma setAt_nth_same (A : Type) (l : list A) (i : nat) (v : A) :
  i < length l -> nth_error (setAt l i v) i = Some v.
Proof.
  revert i. induction l as [|x l IH]; intros [|i] H; simpl in *; try lia;
    [reflexivity | apply IH; lia].
Qed.

Lemma setAt_nth_other (A : Type) (l : list A) (i j : nat) (v : A) :
  i <> j -> nth_error (setAt l i v) j = nth_error l j.
Proof.
  revert i j. induction l as [|x l IH]; intros [|i] [|j] H; simpl; try reflexivity;
    [contradiction | apply IH; lia].
Qed.

Lemma setAt_map (A B : Type) (f : A -> B) (l : list A) (i : nat) (v x : A) :
  nth_error l i = Some x -> f v = f x -> map f (setAt l i v) = map f l.
Proof.
  revert i. induction l as [|y l IH]; intros [|i] H Hf; simpl in *; try discriminate.
  - injection H as ->. now rewrite Hf.
  - f_equal. now apply IH.
Qed.

Lemma findIndex_map (A B : Type) (f : A -> B) (p : B -> bool) (l : list A) :
  findIndex (fun x => p (f x)) l = findIndex p (map f l).
Proof.
  induction l as [|x l IH]; simpl; [reflexivity|].
  destruct (p (f x)); [reflexivity | now rewrite IH].
Qed.

Lemma findIndex_first (A : Type) (p : A -> bool) (l : list A) (i j : nat) (x : A) :
  findIndex p l = Some i -> nth_error l j = Some x -> p x = true -> i <= j.
Proof.
  revert i j. induction l as [|y l IH]; intros i j Hf Hn Hp; simpl in *;
    [discriminate|].
  destruct (p y) eqn:E; [injection Hf as <-; lia|].
  destruct (findIndex p l) as [i'|]; [|discriminate]. injection Hf as <-.
  destruct j as [|j]; simpl in Hn; [injection Hn as ->; congruence|].
  specialize (IH i' j eq_refl Hn Hp). lia.
Qed.

Lemma findIndex_nodup (l : list Address) (i : nat) (k : Address) :
  NoDup l -> nth_error l i = Some k ->
  findIndex (fun x => bytes_eqb x k) l = Some i.
Proof.
  revert i. induction l as [|y l IH]; intros i Hnd Hn; [destruct i; discriminate|].
  inversion Hnd as [|? ? Hnot Hnd']; subst. simpl.
  destruct i as [|i]; simpl in Hn.
  - injection Hn as ->. now rewrite bytes_eqb_refl.
  - eqb_cases y k.
    + subst y. exfalso. apply Hnot. exact (nth_error_In _ _ Hn).
    + now rewrite (IH i Hnd' Hn).
Qed.

Lemma NoDup_firstn (A : Type) (n : nat) (l : list A) : NoDup l -> NoDup (firstn n l).
Proof.
  intros H. rewrite <- (firstn_skipn n l) in H. exact (NoDup_app_remove_r _ _ H).
Qed.

Lemma verifySlots_forallb (verify : bytes -> bytes -> bytes -> bool) (message : bytes)
    (slots : list SignaturePubkeyPair) :
  verifySlots verify message true slots = forallb (slotVerifies verify message) slots.
Proof.
  induction slots as [|slot slots IH]; simpl; [reflexivity|].
  unfold slotVerifies at 1. destruct (sp_signature slot) as [sig|]; [|reflexivity].
  destruct (verify (toBytes (sp_publicKey slot)) sig message); simpl;
    [exact IH | reflexivity].
Qed.

(* ================================================================== *)
(** * Signing a transaction *)
(* ================================================================== *)

Lemma slotOf_keys (Signer : Type) (publicKeyOf : Signer -> PublicKey)
    (slots1 slots2 : list SignaturePubkeyPair) (s : Signer) :
  map sp_publicKey slots1 = map sp_publicKey slots2 ->
  slotOf publicKeyOf slots1 s = slotOf publicKeyOf slots2 s.
Proof.
  intros H. unfold slotOf.
  transitivity (findIndex (fun k => bytes_eqb (toBase58 k) (toBase58 (publicKeyOf s)))
                  (map sp_publicKey slots1)).
  - apply (findIndex_map SignaturePubkeyPair PublicKey sp_publicKey
             (fun k => bytes_eqb (toBase58 k) (toBase58 (publicKeyOf s)))).
  - rewrite H. symmetry.
    apply (findIndex_map SignaturePubkeyPair PublicKey sp_publicKey
             (fun k => bytes_eqb (toBase58 k) (toBase58 (publicKeyOf s)))).
Qed.

Lemma slotOf_some (Signer : Type) (publicKeyOf : Signer -> PublicKey)
    (slots : list SignaturePubkeyPair) (s : Signer) (i : nat) :
  slotOf publicKeyOf slots s = Some i ->
  exists slot, nth_error slots i = Some slot /\ sp_publicKey slot = publicKeyOf s.
Proof.
  intros H. apply findIndex_some in H as (slot & Hn & Hk).
  apply bytes_eqb_eq in Hk. now exists slot.
Qed.

Lemma slotOf_in (Signer : Type) (publicKeyOf : Signer -> PublicKey)
    (slots : list SignaturePubkeyPair) (s : Signer) :
  In (publicKeyOf s) (map sp_publicKey slots) ->
  exists i, slotOf publicKeyOf slots s = Some i.
Proof.
  intros Hin. unfold slotOf.
  destruct (findIndex _ slots) as [i|] eqn:F; [eauto|].
  apply findIndex_none in F. rewrite Forall_forall in F.
  apply in_map_iff in Hin as (slot & Hk & Hin). specialize (F slot Hin).
  simpl in F. unfold toBase58 in F. rewrite Hk, bytes_eqb_refl in F. discriminate.
Qed.

Section SigningFacts.
Variable Signer : Type.
Variable publicKeyOf : Signer -> PublicKey.
Variable signatureBy : Signer -> bytes -> result bytes.

(** One turn of the loop of [partialSign]. *)
Lemma signSlots_step (msg : bytes) (slots : list SignaturePubkeyPair)
    (signer : Signer) (rest : list Signer) (slots' : list SignaturePubkeyPair) :
  signSlots publicKeyOf signatureBy msg slots (signer :: rest) = Ok slots' ->
  exists i slot sig,
    slotOf publicKeyOf slots signer = Some i
    /\ nth_error slots i = Some slot
    /\ sp_publicKey slot = publicKeyOf signer
    /\ signatureBy signer msg = Ok sig
    /\ signSlots publicKeyOf signatureBy msg
         (setAt slots i {| sp_publicKey := sp_publicKey slot; sp_signature := Some sig |})
         rest = Ok slots'.
Proof.
  cbn [signSlots]. cbv zeta. fold (slotOf publicKeyOf slots signer).
  destruct (slotOf publicKeyOf slots signer) as [i|] eqn:F; [|discriminate].
  destruct (slotOf_some _ publicKeyOf slots signer i F) as (slot & Hn & Hk).
  destruct (signatureBy signer msg) as [sig|e] eqn:S; simpl; [|discriminate].
  rewrite Hn. intros H. exists i, slot, sig. auto.
Qed.

Lemma signSlots_keys (msg : bytes) (signers : list Signer)
    (slots slots' : list SignaturePubkeyPair) :
  signSlots publicKeyOf signatureBy msg slots signers = Ok slots' ->
  map sp_publicKey slots' = map sp_publicKey slots
  /\ Forall (fun s => In (publicKeyOf s) (map sp_publicKey slots)) signers.
Proof.
  revert slots. induction signers as [|signer rest IH]; intros slots H.
  - injection H as <-. auto.
  - apply signSlots_step in H as (i & slot & sig & Hi & Hn & Hk & Hs & H).
    destruct (IH _ H) as [Hkeys Hall].
    rewrite (setAt_map _ _ sp_publicKey slots i
               {| sp_publicKey := sp_publicKey slot; sp_signature := Some sig |}
               slot Hn eq_refl) in Hkeys, Hall.
    split; [exact Hkeys|]. constructor; [|exact Hall].
    rewrite <- Hk. apply in_map. exact (nth_error_In _ _ Hn).
Qed.

(** Every slot after the loop is as it was, no signer having found it, or
    holds the signature of a signer that found it. *)
Lemma signSlots_slots (msg : bytes) (signers : list Signer)
    (slots slots' : list SignaturePubkeyPair) (i : nat) (slot' : SignaturePubkeyPair) :
  signSlots publicKeyOf signatureBy msg slots signers = Ok slots' ->
  nth_error slots' i = Some slot' ->
  (nth_error slots i = Some slot'
   /\ forall s, In s signers -> slotOf publicKeyOf slots s <> Some i)
  \/ exists s sig,
       In s signers /\ slotOf publicKeyOf slots s = Some i
       /\ sp_publicKey slot' = publicKeyOf s
       /\ signatureBy s msg = Ok sig /\ sp_signature slot' = Some sig.
Proof.
  revert slots. induction signers as [|signer rest IH]; intros slots H Hn.
  - injection H as <-. left. split; [exact Hn | intros s []].
  - apply signSlots_step in H as (i0 & slot0 & sig0 & Hi0 & Hn0 & Hk0 & Hs0 & H).
    assert (Hkeys : map sp_publicKey
                      (setAt slots i0 {| sp_publicKey := sp_publicKey slot0;
                                         sp_signature := Some sig0 |})
                    = map sp_publicKey slots)
      by (apply (setAt_map _ _ sp_publicKey slots i0
                   {| sp_publicKey := sp_publicKey slot0; sp_signature := Some sig0 |}
                   slot0 Hn0 eq_refl)).
    destruct (IH _ H Hn) as [[Hold Hnone]|(s & sig & Hs & Hslot & Hk & Hsig & Hsome)].
    + destruct (Nat.eq_dec i0 i) as [->|Hne].
      * right. exists signer, sig0.
        rewrite setAt_nth_same in Hold
          by (apply nth_error_Some; congruence).
        injection Hold as <-. simpl. auto using in_eq.
      * left. rewrite setAt_nth_other in Hold by exact Hne. split; [exact Hold|].
        intros s [<-|Hs]; [congruence|].
        rewrite <- (slotOf_keys _ publicKeyOf _ _ s Hkeys). now apply Hnone.
    + right. exists s, sig. rewrite (slotOf_keys _ publicKeyOf _ _ s Hkeys) in Hslot.
      auto using in_cons.
Qed.

Lemma compileMessage_signed (tx : Transaction) (message : Message)
    (slots' : list SignaturePubkeyPair) :
  compileMessage tx = Ok message ->
  map sp_publicKey slots' = map sp_publicKey (initialSlots message (signatures tx)) ->
  compileMessage (withSignatures tx slots') = Ok message.
Proof.
  unfold compileMessage, withSignatures. simpl.
  destruct (tx_recentBlockhash tx) as [[|b bs]|]; try discriminate.
  destruct (feePayer tx) as [p|]; [auto|].
  unfold initialSlots.
  destruct (signatures tx) as [|s0 rest]; simpl; [discriminate|].
  destruct slots' as [|s0' rest']; simpl; [discriminate|].
  intros H [= Hk _]. now rewrite Hk.
Qed.

Lemma compileMessage_compiled (tx : Transaction) (message : Message) :
  compileMessage tx = Ok message -> exists args, Message_compile args = Ok message.
Proof.
  unfold compileMessage.
  destruct (tx_recentBlockhash tx) as [[|b bs]|]; try discriminate.
  destruct (match feePayer tx with
            | Some p => Some p
            | None => option_map sp_publicKey (nth_error (signatures tx) 0)
            end); [eauto | discriminate].
Qed.

End SigningFacts.

(** X14. When [partialSign] succeeds the transaction compiles to the same
    message as before and only its slots have changed: when there were none
    they are the required signers of the message, in order, and otherwise
    the keys of the slots are as they were; every signer's key has a slot;
    and every slot is as it was or holds a signature one of the signers with
    the key of the slot made over the message bytes, which the first slot
    with the key of a signer does. *)
Theorem Transaction_partialSign_spec (Signer : Type) (publicKeyOf : Signer -> PublicKey)
    (signatureBy : Signer -> bytes -> result bytes)
    (tx tx' : Transaction) (signers : list Signer) :
  Transaction_partialSign publicKeyOf signatureBy tx signers = Ok tx' ->
  exists message messageBytes,
    compileMessage tx = Ok message
    /\ Message_serialize message = Ok messageBytes
    /\ compileMessage tx' = Ok message
    /\ tx' = withSignatures tx (signatures tx')
    /\ map sp_publicKey (signatures tx')
       = (if length (signatures tx) =? 0
          then firstn (numRequiredSignatures (header message)) (accountKeys message)
          else map sp_publicKey (signatures tx))
    /\ (forall i slot',
          nth_error (signatures tx') i = Some slot' ->
          nth_error (initialSlots message (signatures tx)) i = Some slot'
          \/ exists s sig,
               In s signers /\ sp_publicKey slot' = publicKeyOf s
               /\ signatureBy s messageBytes = Ok sig
               /\ sp_signature slot' = Some sig)
    /\ (forall s, In s signers ->
          exists i slot' s' sig,
            slotOf publicKeyOf (signatures tx') s = Some i
            /\ nth_error (signatures tx') i = Some slot'
            /\ In s' signers /\ publicKeyOf s' = publicKeyOf s
            /\ signatureBy s' messageBytes = Ok sig
            /\ sp_signature slot' = Some sig).
Proof.
  unfold Transaction_partialSign. intros H.
  destruct (compileMessage tx) as [message|] eqn:Hc; [|discriminate].
  simpl in H. destruct (Message_serialize message) as [messageBytes|] eqn:Hs;
    [|discriminate].
  simpl in H.
  destruct (signSlots publicKeyOf signatureBy messageBytes
              (initialSlots message (signatures tx)) signers) as [slots'|] eqn:Hsign;
    [|discriminate].
  injection H as <-. exists message, messageBytes.
  destruct (signSlots_keys _ publicKeyOf signatureBy _ _ _ _ Hsign) as [Hkeys Hall].
  split; [reflexivity|]. split; [exact Hs|]. split; [|split; [|split; [|split]]].
  - now apply compileMessage_signed.
  - reflexivity.
  - cbn [signatures withSignatures]. rewrite Hkeys. unfold initialSlots.
    destruct (length (signatures tx) =? 0); [|reflexivity].
    rewrite map_map. simpl. now rewrite map_id.
  - cbn [signatures withSignatures]. intros i slot' Hn.
    destruct (signSlots_slots _ publicKeyOf signatureBy _ _ _ _ i slot' Hsign Hn)
      as [[Hold _]|(s & sig & Hin & _ & Hk & Hsig & Hsome)]; [now left | right].
    exists s, sig. auto.
  - cbn [signatures withSignatures]. intros s Hs'.
    rewrite Forall_forall in Hall. specialize (Hall s Hs').
    rewrite <- Hkeys in Hall.
    destruct (slotOf_in _ publicKeyOf slots' s Hall) as [i Hi].
    destruct (slotOf_some _ publicKeyOf slots' s i Hi) as (slot' & Hn & Hk).
    exists i, slot'.
    destruct (signSlots_slots _ publicKeyOf signatureBy _ _ _ _ i slot' Hsign Hn)
      as [[_ Hnone]|(s' & sig & Hin & _ & Hk' & Hsig & Hsome)].
    + exfalso. apply (Hnone s Hs').
      now rewrite <- (slotOf_keys _ publicKeyOf _ _ s Hkeys).
    + exists s', sig. repeat split; auto. congruence.
Qed.

(** X15. With a provider that accepts the signatures its signers make: when
    [sign] succeeds on a transaction whose slots, if it has any, have
    distinct keys, and every slot of the result has the key of one of the
    signers, then [verifySignatures] accepts the result. *)
Theorem Transaction_sign_then_verify (Signer : Type) (publicKeyOf : Signer -> PublicKey)
    (signatureBy : Signer -> bytes -> result bytes)
    (verifySignature : bytes -> bytes -> bytes -> bool)
    (tx tx' : Transaction) (signers : list Signer) :
  (forall s message sig,
     signatureBy s message = Ok sig ->
     verifySignature (toBytes (publicKeyOf s)) sig message = true) ->
  Transaction_sign publicKeyOf signatureBy tx signers = Ok tx' ->
  NoDup (map sp_publicKey (signatures tx)) ->
  (forall slot, In slot (signatures tx') ->
                In (sp_publicKey slot) (map publicKeyOf signers)) ->
  verifySignatures verifySignature tx' true = Ok true.
Proof.
  unfold Transaction_sign, Transaction_partialSign. intros signatures_verify H Hnd Hall.
  destruct (compileMessage tx) as [message|] eqn:Hc; [|discriminate].
  simpl in H. destruct (Message_serialize message) as [messageBytes|] eqn:Hs;
    [|discriminate].
  simpl in H.
  destruct (signSlots publicKeyOf signatureBy messageBytes
              (initialSlots message (signatures tx)) signers) as [slots'|] eqn:Hsign;
    [|discriminate].
  injection H as <-. cbn [signatures withSignatures] in Hall.
  destruct (signSlots_keys _ publicKeyOf signatureBy _ _ _ _ Hsign) as [Hkeys _].
  unfold verifySignatures, serializeMessage.
  rewrite (compileMessage_signed tx message slots' Hc Hkeys). simpl. rewrite Hs. simpl.
  f_equal. cbn [signatures withSignatures]. rewrite verifySlots_forallb.
  apply forallb_forall. intros slot' Hin.
  apply In_nth_error in Hin as [i Hn].
  destruct (signSlots_slots _ publicKeyOf signatureBy _ _ _ _ i slot' Hsign Hn)
    as [[Hold Hnone]|(s & sig & Hin & _ & Hk & Hsig & Hsome)].
  - exfalso.
    assert (Hnd0 : NoDup (map sp_publicKey (initialSlots message (signatures tx)))).
    { unfold initialSlots. destruct (length (signatures tx) =? 0); [|exact Hnd].
      rewrite map_map. simpl. rewrite map_id. apply NoDup_firstn.
      destruct (compileMessage_compiled tx message Hc) as [args Hargs].
      exact (Message_compile_keys_nodup args message Hargs). }
    specialize (Hall slot' (nth_error_In _ _ Hn)).
    apply in_map_iff in Hall as (s & Hk & Hs').
    apply (Hnone s Hs'). unfold slotOf.
    transitivity (findIndex (fun k => bytes_eqb k (publicKeyOf s))
                    (map sp_publicKey (initialSlots message (signatures tx)))).
    + apply (findIndex_map SignaturePubkeyPair PublicKey sp_publicKey
               (fun k => bytes_eqb k (publicKeyOf s))).
    + apply findIndex_nodup; [exact Hnd0|].
      rewrite nth_error_map, Hold. simpl. now rewrite Hk.
  - unfold slotVerifies. rewrite Hsome, Hk. now apply signatures_verify.
Qed.

Lemma Transaction_partialSign_spec_witness :
  exists tx',
    Transaction_partialSign SampleSign.toyKey SampleSign.toySign SampleSign.unsigned
      [Sample.X] = Ok tx'
    /\ exists message,
         compileMessage SampleSign.unsigned = Ok message
         /\ compileMessage tx' = Ok message.
Proof.
  eexists. split; [vm_compute; reflexivity|].
  match goal with
  | |- exists message, _ /\ compileMessage ?t = _ =>
      destruct (Transaction_partialSign_spec SampleSign.toySigner SampleSign.toyKey
                  SampleSign.toySign SampleSign.unsigned t [Sample.X])
        as (message & messageBytes & Hc & Hs & Hc' & _)
  end; [vm_compute; reflexivity|].
  exists message. split; assumption.
Defined.

Lemma Transaction_sign_then_verify_witness :
  exists tx',
    Transaction_sign SampleSign.toyKey SampleSign.toySign SampleSign.unsigned
      [Sample.X; Sample.P] = Ok tx'
    /\ verifySignatures SampleSign.toyVerify tx' true = Ok true.
Proof.
  eexists. split; [reflexivity|].
  apply (Transaction_sign_then_verify SampleSign.toySigner SampleSign.toyKey
           SampleSign.toySign SampleSign.toyVerify SampleSign.unsigned _
           [Sample.X; Sample.P]).
  - intros s message sig [= <-]. apply bytes_eqb_refl.
  - reflexivity.
  - constructor.
  - intros slot [<-|[<-|[]]]; simpl; auto.
Defined.

(* ================================================================== *)
(** * Signing a versioned transaction, and adding signatures *)
(* ================================================================== *)

Section VersionedSigningFacts.
Variable Signer : Type.
Variable publicKeyOf : Signer -> PublicKey.
Variable signatureBy : Signer -> bytes -> result bytes.

Lemma signVersionedSlots_step (msg : bytes) (staticKeys : list PublicKey)
    (sigs : list bytes) (signer : Signer) (rest : list Signer) (sigs' : list bytes) :
  signVersionedSlots publicKeyOf signatureBy msg staticKeys sigs (signer :: rest)
  = Ok sigs' ->
  exists i sig,
    findIndex (fun k : PublicKey => bytes_eqb k (publicKeyOf signer)) staticKeys = Some i
    /\ nth_error staticKeys i = Some (publicKeyOf signer)
    /\ i < length sigs
    /\ signatureBy signer msg = Ok sig
    /\ signVersionedSlots publicKeyOf signatureBy msg staticKeys (setAt sigs i sig) rest
       = Ok sigs'.
Proof.
  cbn [signVersionedSlots]. cbv zeta.
  change (fun k : PublicKey => bytes_eqb (toBase58 k) (toBase58 (publicKeyOf signer)))
    with (fun k : PublicKey => bytes_eqb k (publicKeyOf signer)).
  destruct (findIndex (fun k : PublicKey => bytes_eqb k (publicKeyOf signer)) staticKeys)
    as [i|] eqn:F; [|intros H; discriminate H].
  destruct (findIndex_some _ _ _ F) as (k & Hn & Hk). apply bytes_eqb_eq in Hk. subst k.
  destruct (Nat.leb_spec (length sigs) i) as [Hle|Hlt]; [intros H; discriminate H|].
  destruct (signatureBy signer msg) as [sig|e] eqn:S; simpl;
    [|intros H; discriminate H].
  intros H. exists i, sig. auto.
Qed.

Lemma signVersionedSlots_slots (msg : bytes) (staticKeys : list PublicKey)
    (signers : list Signer) (sigs sigs' : list bytes) :
  signVersionedSlots publicKeyOf signatureBy msg staticKeys sigs signers = Ok sigs' ->
  length sigs' = length sigs
  /\ (forall s, In s signers ->
        exists i, findIndex (fun k : PublicKey => bytes_eqb k (publicKeyOf s)) staticKeys = Some i
                  /\ nth_error staticKeys i = Some (publicKeyOf s)
                  /\ i < length sigs)
  /\ (forall i sig',
        nth_error sigs' i = Some sig' ->
        (nth_error sigs i = Some sig'
         /\ forall s, In s signers ->
                      findIndex (fun k : PublicKey => bytes_eqb k (publicKeyOf s)) staticKeys
                      <> Some i)
        \/ exists s,
             In s signers
             /\ findIndex (fun k : PublicKey => bytes_eqb k (publicKeyOf s)) staticKeys = Some i
             /\ signatureBy s msg = Ok sig').
Proof.
  revert sigs. induction signers as [|signer rest IH]; intros sigs H.
  - injection H as <-. split; [reflexivity|]. split; [intros s []|].
    intros i sig' Hn. left. split; [exact Hn | intros s []].
  - apply signVersionedSlots_step in H as (i0 & sig0 & Hf0 & Hn0 & Hlt0 & Hs0 & H).
    destruct (IH _ H) as (Hlen & Hknown & Hslots). rewrite setAt_length in Hlen, Hknown.
    split; [exact Hlen|]. split.
    + intros s [<-|Hs]; [eauto | now apply Hknown].
    + intros i sig' Hn.
      destruct (Hslots i sig' Hn) as [[Hold Hnone]|(s & Hs & Hf & Hsig)].
      * destruct (Nat.eq_dec i0 i) as [->|Hne].
        -- right. exists signer. rewrite setAt_nth_same in Hold by exact Hlt0.
           injection Hold as <-. auto using in_eq.
        -- left. rewrite setAt_nth_other in Hold by exact Hne. split; [exact Hold|].
           intros s [<-|Hs]; [congruence | now apply Hnone].
      * right. exists s. auto using in_cons.
Qed.
End VersionedSigningFacts.

(** X16. When [sign] succeeds on a versioned transaction, the message and
    the number of signatures are as they were; the key of every signer is a
    static account key whose position has a signature; and every signature
    is as it was or was made over the message bytes by a signer whose key is
    the static account key at that position, which the position of the key
    of every signer holds. *)
Theorem VersionedTransaction_sign_spec (Signer : Type)
    (publicKeyOf : Signer -> PublicKey)
    (signatureBy : Signer -> bytes -> result bytes)
    (vt vt' : VersionedTransaction) (signers : list Signer) :
  VersionedTransaction_sign publicKeyOf signatureBy vt signers = Ok vt' ->
  vt_message vt' = vt_message vt
  /\ length (vt_signatures vt') = length (vt_signatures vt)
  /\ exists messageBytes,
       vm_serialize (vt_message vt) = Ok messageBytes
       /\ (forall i sig',
             nth_error (vt_signatures vt') i = Some sig' ->
             nth_error (vt_signatures vt) i = Some sig'
             \/ exists s,
                  In s signers
                  /\ nth_error (vm_staticAccountKeys (vt_message vt)) i
                     = Some (publicKeyOf s)
                  /\ signatureBy s messageBytes = Ok sig')
       /\ (forall s, In s signers ->
             exists i s' sig,
               nth_error (vm_staticAccountKeys (vt_message vt)) i
               = Some (publicKeyOf s)
               /\ In s' signers /\ publicKeyOf s' = publicKeyOf s
               /\ signatureBy s' messageBytes = Ok sig
               /\ nth_error (vt_signatures vt') i = Some sig).
Proof.
  unfold VersionedTransaction_sign. intros H.
  destruct (vm_serialize (vt_message vt)) as [messageBytes|] eqn:Hs; [|discriminate].
  simpl in H.
  destruct (signVersionedSlots publicKeyOf signatureBy messageBytes
              (vm_staticAccountKeys (vt_message vt)) (vt_signatures vt) signers)
    as [sigs'|] eqn:Hsign; [|discriminate].
  injection H as <-. cbn [vt_message vt_signatures].
  destruct (signVersionedSlots_slots _ publicKeyOf signatureBy _ _ _ _ _ Hsign)
    as (Hlen & Hknown & Hslots).
  split; [reflexivity|]. split; [exact Hlen|]. exists messageBytes.
  split; [reflexivity|]. split.
  - intros i sig' Hn.
    destruct (Hslots i sig' Hn) as [[Hold _]|(s & Hin & Hf & Hsig)]; [now left | right].
    exists s. split; [exact Hin|]. split; [|exact Hsig].
    destruct (findIndex_some _ _ _ Hf) as (k & Hk & He).
    apply bytes_eqb_eq in He. now subst k.
  - intros s Hin. destruct (Hknown s Hin) as (i & Hf & Hn & Hlt).
    rewrite <- Hlen in Hlt. apply nth_error_Some in Hlt.
    destruct (nth_error sigs' i) as [sig'|] eqn:Hn'; [|contradiction].
    destruct (Hslots i sig' Hn') as [[_ Hnone]|(s' & Hin' & Hf' & Hsig)].
    + exfalso. exact (Hnone s Hin Hf).
    + exists i, s', sig'. repeat split; auto.
      destruct (findIndex_some _ _ _ Hf') as (k & Hk & He).
      apply bytes_eqb_eq in He. congruence.
Qed.

Lemma VersionedTransaction_sign_spec_witness :
  exists vt',
    VersionedTransaction_sign SampleSign.toyKey SampleSign.toySign SampleSign.versioned
      [Sample.P] = Ok vt'
    /\ vt_message vt' = vt_message SampleSign.versioned
    /\ length (vt_signatures vt') = length (vt_signatures SampleSign.versioned).
Proof.
  eexists. split; [vm_compute; reflexivity|].
  match goal with
  | |- vt_message ?t = _ /\ _ =>
      destruct (VersionedTransaction_sign_spec SampleSign.toySigner SampleSign.toyKey
                  SampleSign.toySign SampleSign.versioned t [Sample.P])
        as (Hm & Hl & _)
  end; [vm_compute; reflexivity|].
  split; assumption.
Defined.

Lemma findIndex_app_none (A : Type) (p : A -> bool) (l : list A) (x : A) :
  findIndex p l = None -> p x = true -> findIndex p (l ++ [x]) = Some (length l).
Proof.
  induction l as [|y l IH]; simpl; intros H Hx; [now rewrite Hx|].
  destruct (p y); [discriminate|].
  destruct (findIndex p l); [discriminate|]. now rewrite IH.
Qed.

(** X17. [addSignature] changes one slot only.  On a transaction it always
    succeeds; afterwards the first slot with the key holds the key and the
    signature, every slot of another key is as it was, and when the key had
    a slot the keys of the slots are as they were.  On a versioned
    transaction, when it succeeds, the message and the number of signatures
    are as they were, the key is the static account key at some position,
    that position holds the signature, and every other position is as it
    was. *)
Theorem addSignature_changes_one_slot :
  (forall tx pk sig,
     exists tx',
       Transaction_addSignature tx pk sig = Ok tx'
       /\ tx' = withSignatures tx (signatures tx')
       /\ (exists i,
             findIndex (fun s => equals (sp_publicKey s) pk) (signatures tx') = Some i
             /\ nth_error (signatures tx') i
                = Some {| sp_publicKey := pk; sp_signature := Some sig |})
       /\ (forall j slot,
             nth_error (signatures tx) j = Some slot ->
             sp_publicKey slot <> pk ->
             nth_error (signatures tx') j = Some slot)
       /\ (In pk (map sp_publicKey (signatures tx)) ->
           map sp_publicKey (signatures tx') = map sp_publicKey (signatures tx)))
  /\ (forall vt pk sig vt',
        VersionedTransaction_addSignature vt pk sig = Ok vt' ->
        vt_message vt' = vt_message vt
        /\ length (vt_signatures vt') = length (vt_signatures vt)
        /\ exists i,
             nth_error (vm_staticAccountKeys (vt_message vt)) i = Some pk
             /\ nth_error (vt_signatures vt') i = Some sig
             /\ forall j, j <> i ->
                          nth_error (vt_signatures vt') j
                          = nth_error (vt_signatures vt) j).
Proof.
  split.
  - intros tx pk sig. unfold Transaction_addSignature.
    destruct (findIndex (fun s => equals (sp_publicKey s) pk) (signatures tx))
      as [i|] eqn:F.
    + destruct (findIndex_some _ _ _ F) as (slot & Hn & Hk).
      apply bytes_eqb_eq in Hk. unfold toAddress in Hk. rewrite Hn.
      assert (Hkeys : map sp_publicKey
                        (setAt (signatures tx) i
                           {| sp_publicKey := sp_publicKey slot;
                              sp_signature := Some sig |})
                      = map sp_publicKey (signatures tx))
        by (apply (setAt_map _ _ sp_publicKey (signatures tx) i
                     {| sp_publicKey := sp_publicKey slot; sp_signature := Some sig |}
                     slot Hn eq_refl)).
      eexists. split; [reflexivity|]. cbn [signatures]. split; [reflexivity|].
      split; [|split].
      * exists i. split.
        -- rewrite (findIndex_map _ _ sp_publicKey (fun k => equals k pk)), Hkeys,
             <- (findIndex_map _ _ sp_publicKey (fun k => equals k pk)). exact F.
        -- rewrite setAt_nth_same by (apply nth_error_Some; congruence).
           now rewrite Hk.
      * intros j slot' Hj Hne. rewrite setAt_nth_other; [exact Hj|].
        intros ->. congruence.
      * intros _. exact Hkeys.
    + pose proof F as Fnone. apply findIndex_none in Fnone.
      rewrite Forall_forall in Fnone.
      eexists. split; [reflexivity|]. cbn [signatures]. split; [reflexivity|].
      split; [|split].
      * exists (length (signatures tx)). split.
        -- apply findIndex_app_none; [exact F|]. simpl. apply bytes_eqb_refl.
        -- rewrite nth_error_app2 by lia. now rewrite Nat.sub_diag.
      * intros j slot Hj _. rewrite nth_error_app1; [exact Hj|].
        apply nth_error_Some. congruence.
      * intros Hin. exfalso. apply in_map_iff in Hin as (slot & Hk & Hin).
        specialize (Fnone slot Hin). simpl in Fnone. unfold equals, toAddress in Fnone.
        rewrite Hk, bytes_eqb_refl in Fnone. discriminate.
  - intros vt pk sig vt'. unfold VersionedTransaction_addSignature. cbv zeta.
    destruct (findIndex (fun k => equals k pk) (vm_staticAccountKeys (vt_message vt)))
      as [i|] eqn:F; [|discriminate].
    destruct (Nat.leb_spec (length (vt_signatures vt)) i) as [|Hlt]; [discriminate|].
    intros [= <-]. cbn [vt_message vt_signatures].
    split; [reflexivity|]. split; [apply setAt_length|].
    exists i. destruct (findIndex_some _ _ _ F) as (k & Hn & Hk).
    apply bytes_eqb_eq in Hk. unfold toAddress in Hk. subst k.
    split; [exact Hn|]. split; [now apply setAt_nth_same|].
    intros j Hj. apply setAt_nth_other. congruence.
Qed.

Lemma addSignature_changes_one_slot_witness :
  map sp_publicKey
    (signatures (withSignatures (Sample.tx None)
                   [{| sp_publicKey := Sample.P;
                       sp_signature := Some (repeat x01 64) |}]))
  = map sp_publicKey (signatures (Sample.tx None))
  /\ exists i,
       nth_error (vm_staticAccountKeys (vt_message SampleSign.versioned)) i
       = Some Sample.P
       /\ nth_error [repeat x01 64] i = Some (repeat x01 64).
Proof.
  split.
  - destruct (proj1 addSignature_changes_one_slot (Sample.tx None) Sample.P
                (repeat x01 64)) as (tx' & Hadd & _ & _ & _ & Hkeys).
    injection Hadd as <-. apply Hkeys. simpl. auto.
  - destruct (proj2 addSignature_changes_one_slot SampleSign.versioned Sample.P
                (repeat x01 64)
                {| vt_signatures := [repeat x01 64];
                   vt_message := vt_message SampleSign.versioned |} eq_refl)
      as (_ & _ & i & Hk & Hs & _).
    exists i. split; [exact Hk | exact Hs].
Defined.

(* ================================================================== *)
(** * Program-derived addresses: what the seeds contribute *)
(* ================================================================== *)

(** X18. A derived address is never on the curve, and the seeds enter it
    only through the bytes they make up together: two lists of seeds within
    the limits that concatenate to the same bytes, whatever their
    boundaries and whether given as text or as bytes, derive the same
    address for a program, or fail alike. *)
Theorem createProgramAddress_seed_bytes (sha256 : bytes -> bytes)
    (isOffCurveAddress : Address -> bool) (programId : PublicKey) :
  (forall seeds a,
     createProgramAddress sha256 isOffCurveAddress seeds programId = Ok a ->
     isOnCurve isOffCurveAddress a = false)
  /\ (forall seeds1 seeds2,
        length seeds1 <= MAX_SEEDS -> length seeds2 <= MAX_SEEDS ->
        Forall (fun s => length (seedToBytes s) <= MAX_SEED_LENGTH) seeds1 ->
        Forall (fun s => length (seedToBytes s) <= MAX_SEED_LENGTH) seeds2 ->
        concat (map seedToBytes seeds1) = concat (map seedToBytes seeds2) ->
        createProgramAddress sha256 isOffCurveAddress seeds1 programId
        = createProgramAddress sha256 isOffCurveAddress seeds2 programId).
Proof.
  split.
  - intros seeds a. unfold createProgramAddress, isOnCurve.
    destruct (MAX_SEEDS <? length seeds); [discriminate|].
    destruct (collectSeedBytes seeds []) as [seedBytes|]; simpl; [|discriminate].
    destruct (isOffCurveAddress
                (sha256 (seedBytes ++ toBytes programId ++ PDA_MARKER_BYTES))) eqn:E;
      simpl; [|discriminate].
    intros [= <-]. unfold toAddress, fromAddress. now rewrite E.
  - intros seeds1 seeds2 H1 H2 F1 F2 Heq. unfold createProgramAddress.
    destruct (Nat.ltb_spec MAX_SEEDS (length seeds1)); [lia|].
    destruct (Nat.ltb_spec MAX_SEEDS (length seeds2)); [lia|].
    rewrite (collectSeedBytes_ok seeds1 [] F1), (collectSeedBytes_ok seeds2 [] F2), Heq.
    reflexivity.
Qed.

Lemma createProgramAddress_seed_bytes_witness :
  createProgramAddress Sample.digest Sample.offCurve
    [SeedText "ab"; SeedText "c"] Sample.Q
  = createProgramAddress Sample.digest Sample.offCurve
      [SeedBytes [x61]; SeedText "bc"] Sample.Q
  /\ isOnCurve Sample.offCurve
       (Sample.digest (list_byte_of_string "abc" ++ Sample.Q ++ PDA_MARKER_BYTES))
     = false.
Proof.
  split.
  - apply (proj2 (createProgramAddress_seed_bytes Sample.digest Sample.offCurve Sample.Q));
      [vm_compute; lia | vm_compute; lia
      | repeat constructor; vm_compute; lia | repeat constructor; vm_compute; lia
      | reflexivity].
  - apply (proj1 (createProgramAddress_seed_bytes Sample.digest Sample.offCurve Sample.Q)
             [SeedText "abc"]).
    reflexivity.
Defined.

(* ================================================================== *)
(** * Reading a message of either version *)
(* ================================================================== *)

Lemma deserializeMessageVersion_head (b0 : byte) (tl : bytes) :
  (Byte.to_nat b0 <= 127 -> deserializeMessageVersion (b0 :: tl) = VersionLegacy)
  /\ (b0 = x80 -> deserializeMessageVersion (b0 :: tl) = VersionNumber 0).
Proof.
  split.
  - intros H. unfold deserializeMessageVersion. simpl.
    assert (Hland : Z.land (Z.of_nat (Byte.to_nat b0)) 127 = Z.of_nat (Byte.to_nat b0)).
    { change 127%Z with (Z.ones 7). rewrite Z.land_ones by lia.
      apply Z.mod_small. change (2 ^ 7)%Z with 128%Z. lia. }
    rewrite Hland, Z.eqb_refl. reflexivity.
  - intros ->. reflexivity.
Qed.

Lemma Message_serialize_head (m : Message) (b : bytes) :
  Message_serialize m = Ok b ->
  exists b0 tl, b = b0 :: tl /\ Byte.to_nat b0 = numRequiredSignatures (header m).
Proof.
  unfold Message_serialize, Wire.encodeCompiledMessage.
  change (Wire.cm_version (Message_compiledMessage m)) with Wire.Legacy. cbv iota.
  unfold Wire.encodeBody.
  destruct (Wire.encodeHeader (Wire.cm_header (Message_compiledMessage m)))
    as [h|] eqn:Eh; simpl; [|discriminate].
  destruct (Wire.encodeArray _ _) as [a|]; simpl; [|discriminate].
  destruct (Wire.encodeFixed _ _) as [t|]; simpl; [|discriminate].
  destruct (Wire.encodeArray _ _) as [i|]; simpl; [|discriminate].
  intros [= <-]. apply encodeHeader_head in Eh as (b0 & tl & -> & Hb0).
  exists b0, (tl ++ a ++ t ++ i). split; [reflexivity | exact Hb0].
Qed.

Lemma MessageV0_serialize_head (m : MessageV0) (b : bytes) :
  MessageV0_serialize m = Ok b -> exists tl, b = x80 :: tl.
Proof.
  unfold MessageV0_serialize, Wire.encodeCompiledMessage.
  change (Wire.cm_version (MessageV0_compiledMessage m)) with Wire.V0. cbv iota.
  destruct (Wire.encodeBody _) as [e|]; simpl; [|discriminate].
  destruct (Wire.encodeArray _ _) as [l|]; simpl; [|discriminate].
  intros [= <-]. eauto.
Qed.

(** X19. Under the wire layout of the specification,
    [VersionedMessage.deserialize] reads a compiled message of either kind
    back from its own encoding as a message of that kind: a legacy message
    that fits the layout and requires at most 127 signatures as that legacy
    message, and a versioned message that fits the layout as that versioned
    message. *)
Theorem VersionedMessage_deserialize_round_trip :
  (forall args m,
     Message_compile args = Ok m -> legacyFitsWire m = true ->
     (buffer <- Message_serialize m ;; VersionedMessage_deserialize buffer)
     = Ok (LegacyMessage m))
  /\ (forall args m,
        MessageV0_compile args = Ok m -> v0FitsWire m = true ->
        (buffer <- MessageV0_serialize m ;; VersionedMessage_deserialize buffer)
        = Ok (V0Message m)).
Proof.
  split; intros args m Hm Hfits.
  - pose proof (Message_roundTrip_fits m Hfits
                  (Message_compile_canonical_data args m Hm)) as Hrt.
    unfold Message_roundTrip in Hrt.
    destruct (Message_serialize m) as [b|] eqn:Hs; [|discriminate]. simpl in *.
    destruct (Message_serialize_head m b Hs) as (b0 & tl & -> & Hb0).
    unfold VersionedMessage_deserialize.
    rewrite (proj1 (deserializeMessageVersion_head b0 tl)).
    + now rewrite Hrt.
    + unfold legacyFitsWire in Hfits. repeat (apply andb_split in Hfits as [Hfits _]).
      apply Nat.leb_le in Hfits. lia.
  - pose proof (MessageV0_roundTrip_fits m Hfits) as Hrt.
    unfold MessageV0_roundTrip in Hrt.
    destruct (MessageV0_serialize m) as [b|] eqn:Hs; [|discriminate]. simpl in *.
    destruct (MessageV0_serialize_head m b Hs) as (tl & ->).
    unfold VersionedMessage_deserialize.
    rewrite (proj2 (deserializeMessageVersion_head x80 tl) eq_refl).
    now rewrite Hrt.
Qed.

Lemma VersionedMessage_deserialize_round_trip_witness :
  (exists m,
     Message_compile SampleCompile.mixedLegacy = Ok m
     /\ (buffer <- Message_serialize m ;; VersionedMessage_deserialize buffer)
        = Ok (LegacyMessage m))
  /\ (exists m,
        MessageV0_compile SampleCompile.twoTables = Ok m
        /\ (buffer <- MessageV0_serialize m ;; VersionedMessage_deserialize buffer)
           = Ok (V0Message m)).
Proof.
  split.
  - eexists. split; [reflexivity|].
    apply (proj1 VersionedMessage_deserialize_round_trip SampleCompile.mixedLegacy);
      [reflexivity | vm_compute; reflexivity].
  - eexists. split; [reflexivity|].
    apply (proj2 VersionedMessage_deserialize_round_trip SampleCompile.twoTables);
      [reflexivity | vm_compute; reflexivity].
Defined.

(* ================================================================== *)
(** * Populating a transaction from a compiled message *)
(* ================================================================== *)

Lemma allSome_map (A B : Type) (f : A -> option B) (g : A -> B) (l : list A) :
  (forall x, In x l -> f x = Some (g x)) -> allSome (map f l) = Some (map g l).
Proof.
  induction l as [|a l IH]; simpl; intros H; [reflexivity|].
  rewrite (H a) by now left.
  rewrite IH by (intros x Hx; apply H; now right). reflexivity.
Qed.

Lemma firstn_nth_seq (A : Type) (d : A) (l : list A) (n : nat) :
  n <= length l -> map (fun i => nth i l d) (seq 0 n) = firstn n l.
Proof.
  revert n. induction l as [|a l IH]; intros [|n] H; simpl in *; try reflexivity;
    [lia|].
  f_equal. rewrite <- seq_shift, map_map. apply IH. lia.
Qed.

(** Two maps with the same keys, in order, and the same value at every key
    are the same map. *)
Lemma JSMap_ext (V : Type) (m1 m2 : JSMap.t V) :
  NoDup (JSMap.keys m1) -> JSMap.keys m1 = JSMap.keys m2 ->
  (forall k, JSMap.get m1 k = JSMap.get m2 k) -> m1 = m2.
Proof.
  revert m2. induction m1 as [|[k1 v1] m1 IH]; intros [|[k2 v2] m2] Hnd Hk Hget;
    try discriminate; [reflexivity|].
  simpl in Hk. injection Hk as <- Hk. inversion Hnd as [|? ? Hnot Hnd']; subst.
  pose proof (Hget k1) as H1. simpl in H1. rewrite bytes_eqb_refl in H1.
  injection H1 as <-. f_equal. apply IH; [exact Hnd' | exact Hk|].
  intros k. eqb_cases k1 k.
  - subst k. pose proof Hnot as Hnot2. unfold JSMap.keys in Hk.
    apply (JSMapFacts.get_none_not_in V) in Hnot.
    assert (Hnot' : ~ In k1 (JSMap.keys m2)) by (unfold JSMap.keys; now rewrite <- Hk).
    apply (JSMapFacts.get_none_not_in V) in Hnot'. congruence.
  - specialize (Hget k). simpl in Hget.
    apply bytes_eqb_neq in E. rewrite E in Hget. exact Hget.
Qed.

Lemma JSMap_has_keys (V W : Type) (m : JSMap.t V) (m' : JSMap.t W) (k : Address) :
  JSMap.keys m = JSMap.keys m' -> JSMap.has m k = JSMap.has m' k.
Proof.
  revert m'. induction m as [|[k1 v1] m IH]; intros [|[k2 v2] m'] Hk;
    try discriminate; [reflexivity|].
  simpl in Hk. injection Hk as <- Hk. unfold JSMap.has in *. simpl.
  destruct (bytes_eqb k1 k); [reflexivity | now apply IH].
Qed.

Lemma JSMap_keys_set (V : Type) (m : JSMap.t V) (k : Address) (v : V) :
  JSMap.keys (JSMap.set m k v)
  = if JSMap.has m k then JSMap.keys m else JSMap.keys m ++ [k].
Proof.
  destruct (JSMap.has m k) eqn:H.
  - apply JSMapFacts.has_true in H as [v0 H0].
    exact (JSMapFacts.keys_set_present V m k v v0 H0).
  - apply JSMapFacts.has_false in H. exact (JSMapFacts.keys_set_absent V m k v H).
Qed.

Lemma legacyAddProgram_keys (m m' : JSMap.t LegacyEntry) (p : PublicKey) :
  JSMap.keys m = JSMap.keys m' ->
  JSMap.keys (legacyAddProgram m p) = JSMap.keys (legacyAddProgram m' p).
Proof.
  intros H. unfold legacyAddProgram. cbv zeta.
  rewrite (JSMap_has_keys _ _ m m' (toBase58 p) H).
  destruct (JSMap.has m' (toBase58 p)) eqn:E; [exact H|].
  rewrite !JSMap_keys_set, (JSMap_has_keys _ _ m m' (toBase58 p) H), E, H.
  reflexivity.
Qed.

Lemma legacyAddMeta_keys (m m' : JSMap.t LegacyEntry) (meta meta' : AccountMeta) :
  JSMap.keys m = JSMap.keys m' -> meta_pubkey meta = meta_pubkey meta' ->
  JSMap.keys (legacyAddMeta m meta) = JSMap.keys (legacyAddMeta m' meta').
Proof.
  intros H Hk. unfold legacyAddMeta. cbv zeta. rewrite <- Hk.
  destruct (JSMap.get m (toBase58 (meta_pubkey meta)));
    destruct (JSMap.get m' (toBase58 (meta_pubkey meta)));
    rewrite !JSMap_keys_set, (JSMap_has_keys _ _ m m' _ H), H; reflexivity.
Qed.

Lemma legacy_fold_populated_keys (msg : Message) (keyIndexMap : JSMap.t nat)
    (ixs : list TransactionInstruction) (m m' : JSMap.t LegacyEntry) :
  JSMap.keys m = JSMap.keys m' ->
  JSMap.keys (fold_left legacyAddInstruction
                (map (populatedInstruction msg keyIndexMap) ixs) m)
  = JSMap.keys (fold_left legacyAddInstruction ixs m').
Proof.
  revert m m'. induction ixs as [|ix ixs IH]; intros m m' H; simpl; [exact H|].
  apply IH. unfold legacyAddInstruction.
  cbn [ix_keys ix_programId populatedInstruction].
  pose proof (legacyAddProgram_keys m m' (ix_programId ix) H) as Hp.
  revert Hp. generalize (legacyAddProgram m (ix_programId ix)).
  generalize (legacyAddProgram m' (ix_programId ix)).
  induction (ix_keys ix) as [|meta metas IHm]; intros b a Hab; simpl; [exact Hab|].
  apply IHm. now apply legacyAddMeta_keys.
Qed.

Lemma legacyAccountMap_populated_keys (msg : Message) (keyIndexMap : JSMap.t nat)
    (payerKey : PublicKey) (ixs : list TransactionInstruction) :
  JSMap.keys (legacyAccountMap payerKey (map (populatedInstruction msg keyIndexMap) ixs))
  = JSMap.keys (legacyAccountMap payerKey ixs).
Proof.
  unfold legacyAccountMap. now apply legacy_fold_populated_keys.
Qed.

Lemma encounters_populated (msg : Message) (keyIndexMap : JSMap.t nat)
    (ixs : list TransactionInstruction) :
  encounters (map (populatedInstruction msg keyIndexMap) ixs)
  = map (populatedEncounter msg keyIndexMap) (encounters ixs).
Proof.
  unfold encounters. induction ixs as [|ix ixs IH]; simpl; [reflexivity|].
  rewrite IH, map_app, !map_map. reflexivity.
Qed.

Lemma firstEncounter_populated (msg : Message) (keyIndexMap : JSMap.t nat)
    (es : list Encounter) (a : Address) :
  firstEncounter (map (populatedEncounter msg keyIndexMap) es) a
  = option_map (populatedEncounter msg keyIndexMap) (firstEncounter es a).
Proof.
  unfold firstEncounter. induction es as [|e es IH]; simpl; [reflexivity|].
  assert (Hk : encounterKey (populatedEncounter msg keyIndexMap e) = encounterKey e)
    by (destruct e; reflexivity).
  rewrite Hk. destruct (bytes_eqb (encounterKey e) a); [reflexivity | exact IH].
Qed.

Section PopulateFacts.
Variable args : CompileLegacyArgs.
Variable m : Message.
Hypothesis compiled : Message_compile args = Ok m.

(** The instructions, the encounters and the index map of the compilation. *)
Lemma populate_key_index (ix : TransactionInstruction) (k : Address) :
  In ix (normalizedInstructions (cl_instructions args)) ->
  In k (instructionKeys ix) ->
  nth_error (accountKeys m)
    (indexOfKey (legacyKeyIndexMap (cl_payerKey args)
                   (normalizedInstructions (cl_instructions args))) k)
  = Some k.
Proof.
  intros Hix Hk. rewrite (Message_compile_ok args m compiled).
  exact (legacy_key_index (cl_payerKey args) _ ix k Hix Hk).
Qed.

Lemma meta_encounter_key (ixs : list TransactionInstruction) (meta : AccountMeta) :
  In (AsMeta meta) (encounters ixs) ->
  exists ix, In ix ixs /\ In (toBase58 (meta_pubkey meta)) (instructionKeys ix).
Proof.
  unfold encounters. intros H. apply in_flat_map in H as (ix & Hix & [H|H]);
    [discriminate|].
  apply in_map_iff in H as (meta' & [= <-] & Hmeta). exists ix. split; [exact Hix|].
  right. now apply (in_map (fun meta => toBase58 (meta_pubkey meta))).
Qed.

(** The flags [populate] gives an account meta are the final merged flags of
    its address. *)
Lemma populatedMeta_flags (meta : AccountMeta) :
  let ixs := normalizedInstructions (cl_instructions args) in
  In (AsMeta meta) (encounters ixs) ->
  legacyFinalRole args (meta_pubkey meta)
  = Some {| signer :=
              meta_isSigner
                (populatedMeta m (legacyKeyIndexMap (cl_payerKey args) ixs) meta);
            writable :=
              meta_isWritable
                (populatedMeta m (legacyKeyIndexMap (cl_payerKey args) ixs) meta) |}.
Proof.
  intros ixs Hin. destruct (meta_encounter_key ixs meta Hin) as (ix & Hix & Hk).
  apply (Message_query_role args m _ _ compiled).
  exact (populate_key_index ix _ Hix Hk).
Qed.

Lemma anySigner_populated (a : Address) :
  let ixs := normalizedInstructions (cl_instructions args) in
  bytes_eqb (cl_payerKey args) a = false ->
  anySigner (map (populatedEncounter m (legacyKeyIndexMap (cl_payerKey args) ixs))
               (encounters ixs)) a
  = anySigner (encounters ixs) a.
Proof.
  intros ixs Hp.
  assert (Hflag : forall meta, In (AsMeta meta) (encounters ixs) ->
                    meta_pubkey meta = a ->
                    meta_isSigner
                      (populatedMeta m (legacyKeyIndexMap (cl_payerKey args) ixs) meta)
                    = anySigner (encounters ixs) a).
  { intros meta Hin Hk. pose proof (populatedMeta_flags meta Hin) as Hr.
    destruct (legacyFinalRole_merge args _ _ Hr) as [Hs _].
    cbn [signer] in Hs. unfold ixs. rewrite Hs, Hk, Hp. reflexivity. }
  destruct (anySigner (encounters ixs) a) eqn:S.
  - unfold anySigner in S. apply existsb_exists in S as (e & Hin & He).
    destruct e as [p|meta]; [discriminate|]. apply andb_prop in He as [Hk _].
    apply bytes_eqb_eq in Hk.
    unfold anySigner. apply existsb_exists.
    exists (populatedEncounter m (legacyKeyIndexMap (cl_payerKey args) ixs)
              (AsMeta meta)).
    split; [now apply in_map|]. cbn [populatedEncounter].
    change (meta_pubkey
              (populatedMeta m (legacyKeyIndexMap (cl_payerKey args) ixs) meta))
      with (meta_pubkey meta).
    rewrite (Hflag meta Hin Hk), Hk, bytes_eqb_refl. reflexivity.
  - destruct (anySigner (map _ (encounters ixs)) a) eqn:S'; [|reflexivity].
    unfold anySigner in S'. apply existsb_exists in S' as (e' & Hin' & He').
    apply in_map_iff in Hin' as (e & <- & Hin).
    destruct e as [p|meta]; [discriminate|]. cbn [populatedEncounter] in He'.
    change (meta_pubkey
              (populatedMeta m (legacyKeyIndexMap (cl_payerKey args) ixs) meta))
      with (meta_pubkey meta) in He'.
    apply andb_prop in He' as [Hk Hs]. apply bytes_eqb_eq in Hk.
    rewrite (Hflag meta Hin Hk) in Hs. discriminate.
Qed.

Lemma anyWritable_populated (a : Address) :
  let ixs := normalizedInstructions (cl_instructions args) in
  bytes_eqb (cl_payerKey args) a = false ->
  anyWritable (map (populatedEncounter m (legacyKeyIndexMap (cl_payerKey args) ixs))
                 (encounters ixs)) a
  = anyWritable (encounters ixs) a.
Proof.
  intros ixs Hp.
  assert (Hflag : forall meta, In (AsMeta meta) (encounters ixs) ->
                    meta_pubkey meta = a ->
                    meta_isWritable
                      (populatedMeta m (legacyKeyIndexMap (cl_payerKey args) ixs) meta)
                    = anyWritable (encounters ixs) a).
  { intros meta Hin Hk. pose proof (populatedMeta_flags meta Hin) as Hr.
    destruct (legacyFinalRole_merge args _ _ Hr) as [_ Hw].
    cbn [writable] in Hw. unfold ixs. rewrite Hw, Hk, Hp. reflexivity. }
  destruct (anyWritable (encounters ixs) a) eqn:S.
  - unfold anyWritable in S. apply existsb_exists in S as (e & Hin & He).
    destruct e as [p|meta]; [discriminate|]. apply andb_prop in He as [Hk _].
    apply bytes_eqb_eq in Hk.
    unfold anyWritable. apply existsb_exists.
    exists (populatedEncounter m (legacyKeyIndexMap (cl_payerKey args) ixs)
              (AsMeta meta)).
    split; [now apply in_map|]. cbn [populatedEncounter].
    change (meta_pubkey
              (populatedMeta m (legacyKeyIndexMap (cl_payerKey args) ixs) meta))
      with (meta_pubkey meta).
    rewrite (Hflag meta Hin Hk), Hk, bytes_eqb_refl. reflexivity.
  - destruct (anyWritable (map _ (encounters ixs)) a) eqn:S'; [|reflexivity].
    unfold anyWritable in S'. apply existsb_exists in S' as (e' & Hin' & He').
    apply in_map_iff in Hin' as (e & <- & Hin).
    destruct e as [p|meta]; [discriminate|]. cbn [populatedEncounter] in He'.
    change (meta_pubkey
              (populatedMeta m (legacyKeyIndexMap (cl_payerKey args) ixs) meta))
      with (meta_pubkey meta) in He'.
    apply andb_prop in He' as [Hk Hs]. apply bytes_eqb_eq in Hk.
    rewrite (Hflag meta Hin Hk) in Hs. discriminate.
Qed.

(** The populated instructions merge into the account map of the input. *)
Lemma legacyAccountMap_populated :
  let ixs := normalizedInstructions (cl_instructions args) in
  legacyAccountMap (cl_payerKey args)
    (map (populatedInstruction m (legacyKeyIndexMap (cl_payerKey args) ixs)) ixs)
  = legacyAccountMap (cl_payerKey args) ixs.
Proof.
  cbv zeta. apply JSMap_ext.
  - rewrite legacyAccountMap_populated_keys. apply legacyAccountMap_inv.
  - apply legacyAccountMap_populated_keys.
  - intros a.
    rewrite !(forgetLookups_accountMap (JSMap.empty _)), !forgetLookups_get,
      !v0AccountMap_encounters, !v0_fold_mergedEntry, encounters_populated.
    unfold mergedEntry.
    destruct (bytes_eqb (toBase58 (cl_payerKey args)) a) eqn:Hp; [reflexivity|].
    rewrite firstEncounter_populated.
    unfold toBase58 in Hp.
    rewrite (anySigner_populated a Hp), (anyWritable_populated a Hp).
    destruct (firstEncounter _ a) as [[p|meta]|]; reflexivity.
Qed.

Lemma populateInstruction_compiled (ix : TransactionInstruction) :
  let ixs := normalizedInstructions (cl_instructions args) in
  In ix ixs ->
  populateInstruction m
    (compileLegacyInstruction (legacyKeyIndexMap (cl_payerKey args) ixs) ix)
  = Some (populatedInstruction m (legacyKeyIndexMap (cl_payerKey args) ixs) ix).
Proof.
  cbv zeta. intros Hix. unfold populateInstruction, compileLegacyInstruction.
  cbn [ci_accounts ci_data ci_programIdIndex]. rewrite map_map.
  rewrite (allSome_map _ _ _
             (populatedMeta m
                (legacyKeyIndexMap (cl_payerKey args)
                   (normalizedInstructions (cl_instructions args))))).
  - rewrite (populate_key_index ix _ Hix (or_introl eq_refl)).
    rewrite fromBase64_toBase64. reflexivity.
  - intros meta Hmeta. unfold populateMeta.
    rewrite (populate_key_index ix (toBase58 (meta_pubkey meta)) Hix).
    + reflexivity.
    + right. now apply (in_map (fun meta => toBase58 (meta_pubkey meta))).
Qed.

Lemma compile_populated :
  let ixs := normalizedInstructions (cl_instructions args) in
  Message_compile_normalized (cl_payerKey args) (cl_recentBlockhash args)
    (map (populatedInstruction m (legacyKeyIndexMap (cl_payerKey args) ixs)) ixs)
  = m.
Proof.
  cbv zeta. rewrite (Message_compile_ok args m compiled) at 2.
  unfold Message_compile_normalized. cbv zeta.
  pose proof legacyAccountMap_populated as Hmap. cbv zeta in Hmap.
  rewrite Hmap. f_equal. rewrite map_map. apply map_ext. intros ix.
  unfold compileLegacyInstruction, populatedInstruction.
  cbn [ix_keys ix_data ix_programId]. now rewrite map_map.
Qed.

Lemma legacy_payer_first : nth_error (accountKeys m) 0 = Some (cl_payerKey args).
Proof.
  rewrite (Message_compile_ok args m compiled).
  unfold Message_compile_normalized. cbv zeta. cbn [accountKeys].
  destruct (legacyAccountMap_inv (cl_payerKey args)
              (normalizedInstructions (cl_instructions args)))
    as (_ & Hkey & e & Hhd & Hs & Hw).
  destruct (legacyAccountMap (cl_payerKey args)
              (normalizedInstructions (cl_instructions args))) as [|[k0 e0] rest];
    [discriminate|].
  simpl in Hhd. injection Hhd as -> ->.
  inversion Hkey as [|? ? Hk _]; subst. simpl in Hk.
  destruct (orderAccounts_head LegacyEntry le_isSigner le_isWritable e
              (JSMap.values rest) Hs Hw) as [tl Htl].
  simpl. rewrite Htl. simpl. f_equal. exact Hk.
Qed.
End PopulateFacts.

(** X20. [populate] undoes [Message.compile]: from a compiled legacy message
    it builds a transaction whose fee payer is the fee payer of the input,
    whose slots are the required signers of the message, in order, and
    whose instructions are the instructions of the input with every account
    meta carrying the final merged role of its address; and, the blockhash
    not being empty, that transaction compiles to the same message. *)
Theorem Transaction_populate_round_trip (args : CompileLegacyArgs) (m : Message)
    (sigs : list bytes) :
  Message_compile args = Ok m ->
  exists tx,
    Transaction_populate m sigs = Some tx
    /\ feePayer tx = Some (cl_payerKey args)
    /\ tx_recentBlockhash tx = Some (cl_recentBlockhash args)
    /\ map sp_publicKey (signatures tx)
       = firstn (numRequiredSignatures (header m)) (accountKeys m)
    /\ Forall2
         (fun ix ix' =>
            ix_programId ix' = ix_programId ix /\ ix_data ix' = ix_data ix
            /\ Forall2
                 (fun meta meta' =>
                    meta_pubkey meta' = meta_pubkey meta
                    /\ legacyFinalRole args (meta_pubkey meta)
                       = Some {| signer := meta_isSigner meta';
                                 writable := meta_isWritable meta' |})
                 (ix_keys ix) (ix_keys ix'))
         (normalizedInstructions (cl_instructions args)) (tx_instructions tx)
    /\ (cl_recentBlockhash args <> [] -> compileMessage tx = Ok m).
Proof.
  intros Hm.
  set (ixs := normalizedInstructions (cl_instructions args)).
  set (kim := legacyKeyIndexMap (cl_payerKey args) ixs).
  pose proof (Message_compile_ok args m Hm) as Hnorm.
  assert (Hinstr : instructions m = map (compileLegacyInstruction kim) ixs)
    by (rewrite Hnorm; reflexivity).
  assert (Hhash : recentBlockhash m = cl_recentBlockhash args)
    by (rewrite Hnorm; reflexivity).
  pose proof (Message_compile_header_bounds (cl_payerKey args) (cl_recentBlockhash args)
                ixs) as Hb.
  cbv zeta in Hb. unfold ixs in Hb. rewrite <- Hnorm in Hb. destruct Hb as (_ & _ & Hb).
  assert (Hslots :
            allSome (map (populateSlot m sigs)
                       (seq 0 (numRequiredSignatures (header m))))
            = Some (map (fun i =>
                           {| sp_publicKey := nth i (accountKeys m) [];
                              sp_signature :=
                                match nth_error sigs i with
                                | Some (b :: s) => Some (b :: s)
                                | _ => None
                                end |})
                      (seq 0 (numRequiredSignatures (header m))))).
  { apply allSome_map. intros i Hi. apply in_seq in Hi. unfold populateSlot.
    rewrite (nth_error_nth' (accountKeys m) []) by lia. reflexivity. }
  assert (Hixs : allSome (map (populateInstruction m) (instructions m))
                 = Some (map (populatedInstruction m kim) ixs)).
  { rewrite Hinstr, map_map. apply allSome_map. intros ix Hix.
    exact (populateInstruction_compiled args m Hm ix Hix). }
  unfold Transaction_populate.
  rewrite Hslots, Hixs, (legacy_payer_first args m Hm), Hhash.
  eexists. split; [reflexivity|].
  cbn [feePayer tx_recentBlockhash signatures tx_instructions].
  split; [reflexivity|]. split; [reflexivity|]. split; [|split].
  - rewrite map_map. cbn [sp_publicKey]. apply firstn_nth_seq. lia.
  - apply Forall2_map_right. intros ix Hix. cbn [populatedInstruction ix_programId
                                                ix_data ix_keys].
    split; [reflexivity|]. split; [reflexivity|].
    apply Forall2_map_right. intros meta Hmeta. split; [reflexivity|].
    apply (populatedMeta_flags args m Hm meta).
    unfold encounters. apply in_flat_map. exists ix. split; [exact Hix|].
    right. now apply in_map.
  - intros Hne. unfold compileMessage. cbn [tx_recentBlockhash feePayer nonceInfo
                                            tx_instructions].
    destruct (cl_recentBlockhash args) as [|b bs] eqn:Hbh; [contradiction|].
    unfold Message_compile. cbn [cl_instructions cl_payerKey cl_recentBlockhash].
    rewrite mapM_normalize_legacy. simpl. f_equal. rewrite <- Hbh.
    exact (compile_populated args m Hm).
Qed.

Lemma Transaction_populate_round_trip_witness :
  exists m tx,
    Message_compile SampleCompile.mixedLegacy = Ok m
    /\ Transaction_populate m [] = Some tx
    /\ compileMessage tx = Ok m.
Proof.
  eexists.
  destruct (Transaction_populate_round_trip SampleCompile.mixedLegacy _ [] eq_refl)
    as (tx & Hp & _ & _ & _ & _ & Hc).
  exists tx. split; [reflexivity|]. split; [exact Hp|].
  apply Hc. discriminate.
Defined.
